(** * s3gui front end: uploads through the task pool, sync actions and events,
    the error log, the search debounce and HTML escaping; the task list,
    the object listing with its paging, navigation and selection, drag
    and drop

    A shallow embedding of the parts of [src/main.ts], [src/api.ts] and
    [src/types.ts] that the properties of the sync engine rest on, with the
    one-shot sync of the back end written from its specification, and of
    the state handling of the rest of [src/main.ts]; the definitions come
    first, the theorems after them.

    Conventions.
    - JS strings are modelled as [string]; a character is one code unit.
    - JS numbers that count things (array lengths, counters, timer ids,
      milliseconds) are modelled as [nat] or [Z]; no rounding is modelled.
    - The JS event loop is modelled by an explicit step function: one step
      is one run-to-completion piece of code (a synchronous statement of
      the pool, a worker running to its end, a promise reaction, a timer
      callback).
    - Effects on the DOM (rendering, CSS classes) are left out, except the
      texts and the flags the theorems speak of. *)

From Stdlib Require Import ZArith Lia Ascii.
From stdpp Require Import base list strings pretty gmap sorting.


(** ** Characters that cannot be written inside a string literal *)

Definition dquote : ascii := "034"%char.
Definition backslash : ascii := "092"%char.

(** ** [escapeHtml] (main.ts, Helpers)

    [str.replace(/c/g, r)] with a one-character pattern: every occurrence
    of [c] is replaced by [r], left to right; the replacement text is not
    scanned again. *)

Fixpoint replaceAll (c : ascii) (r : string) (str : string) : string :=
  match str with
  | EmptyString => EmptyString
  | String a rest =>
      if Ascii.eqb a c then r +:+ replaceAll c r rest
      else String a (replaceAll c r rest)
  end.

(** The source chains four replacements, in this order: the ampersand by
    [&amp;], then [<] by [&lt;], then [>] by [&gt;], then the double quote
    by [&quot;]. *)
Definition escapeHtml (str : string) : string :=
  replaceAll dquote "&quot;"
    (replaceAll ">" "&gt;"
       (replaceAll "<" "&lt;"
          (replaceAll "&" "&amp;" str))).

(** The four entities [escapeHtml] writes, without their leading ampersand. *)
Definition entity_tails : list string := ["amp;"; "lt;"; "gt;"; "quot;"].

(** One-pass view of [escapeHtml], used to reason about the four passes. *)
Definition escapeChar (a : ascii) : string :=
  if Ascii.eqb a "&" then "&amp;"
  else if Ascii.eqb a "<" then "&lt;"
  else if Ascii.eqb a ">" then "&gt;"
  else if Ascii.eqb a dquote then "&quot;"
  else String a EmptyString.

Fixpoint escapeEach (str : string) : string :=
  match str with
  | EmptyString => EmptyString
  | String a rest => escapeChar a +:+ escapeEach rest
  end.

(** Every ampersand of [s] starts one of the four entities. *)
Definition amp_starts_entity (s : string) : Prop :=
  ∀ pre post, s = pre +:+ String "&" post →
    ∃ e, e ∈ entity_tails ∧ String.prefix e post = true.

(** ** The error log (main.ts, Helpers)

    [let errors: string[] = []; let errorScrollIndex = 0;] and the
    [expanded] class of the footer. [renderErrors] only reads the state. *)

Record ErrorLog := {
  errors : list string;
  errorScrollIndex : Z;
  footerExpanded : bool
}.

Definition initialErrorLog : ErrorLog :=
  {| errors := []; errorScrollIndex := 0; footerExpanded := false |}.

(** [errors.unshift(message); if (errors.length > 50) errors.pop();
     renderErrors(); footer.classList.add("expanded");] *)
Definition showError (message : string) (st : ErrorLog) : ErrorLog :=
  let unshifted := message :: errors st in
  {| errors := if 50 <? length unshifted then removelast unshifted else unshifted;
     errorScrollIndex := errorScrollIndex st;
     footerExpanded := true |}.

(** [errors = []; errorScrollIndex = 0; renderErrors();
     footer.classList.remove("expanded");] *)
Definition clearErrors (st : ErrorLog) : ErrorLog :=
  {| errors := []; errorScrollIndex := 0; footerExpanded := false |}.

(** [errorScrollIndex = Math.max(0, Math.min(errors.length - 5,
     errorScrollIndex + direction));] *)
Definition scrollErrors (direction : Z) (st : ErrorLog) : ErrorLog :=
  {| errors := errors st;
     errorScrollIndex :=
       Z.max 0 (Z.min (Z.of_nat (length (errors st)) - 5) (errorScrollIndex st + direction));
     footerExpanded := footerExpanded st |}.

(** The calls that touch the log. *)
Inductive ErrorOp :=
| OpShowError (message : string)
| OpClearErrors
| OpScrollErrors (direction : Z).

Definition applyErrorOp (op : ErrorOp) (st : ErrorLog) : ErrorLog :=
  match op with
  | OpShowError m => showError m st
  | OpClearErrors => clearErrors st
  | OpScrollErrors d => scrollErrors d st
  end.

(** Calls are applied oldest first. *)
Definition runErrorOps (ops : list ErrorOp) (st : ErrorLog) : ErrorLog :=
  foldl (fun s op => applyErrorOp op s) st ops.

(** ** Values crossing the Tauri bridge (api.ts, types.ts)

    Commands are invoked with a JSON object of arguments, and events arrive
    with a JSON object as payload. *)

Inductive jsval :=
| JNull
| JBool (b : bool)
| JNum (n : Z)                  (* the numbers of the modelled payloads are integers *)
| JStr (s : string)
| JArr (items : list string).   (* the arrays of the modelled calls hold strings *)

(** A value inside a template literal; a missing property reads as
    [undefined], and an array as its elements joined by commas. *)
Fixpoint joinStrings (l : list string) : string :=
  match l with
  | [] => EmptyString
  | [x] => x
  | x :: rest => x +:+ "," +:+ joinStrings rest
  end.

(** [Number.MAX_SAFE_INTEGER]: up to it every integer is a double. *)
Definition MAX_SAFE_INTEGER : Z := 2 ^ 53 - 1.

(** A number of a payload is a JSON number read as a double. Inside a
    template literal an integer within the safe range prints as its
    decimal digits. Outside that range the number arrives rounded, and
    from 1e21 on it prints in exponent form: this is not modelled, and
    the text is [None] there. *)
Definition renderValue (v : jsval) : option string :=
  match v with
  | JNull => Some "null"
  | JBool b => Some (if b then "true" else "false")
  | JNum n =>
      if bool_decide (- MAX_SAFE_INTEGER ≤ n ≤ MAX_SAFE_INTEGER)%Z then Some (pretty n)
      else None
  | JStr s => Some s
  | JArr items => Some (joinStrings items)
  end.

Definition render (v : option jsval) : option string :=
  match v with
  | None => Some "undefined"
  | Some x => renderValue x
  end.

(** The field types used by the interfaces below. *)
Inductive fieldType := TString | TNumber | TBoolean.

Global Instance fieldType_eq_dec : EqDecision fieldType.
Proof. solve_decision. Defined.

Definition hasType (v : jsval) (t : fieldType) : bool :=
  match v, t with
  | JStr _, TString => true
  | JNum _, TNumber => true
  | JBool _, TBoolean => true
  | _, _ => false
  end.

(** An interface of types.ts: its required fields. *)
Definition interface := list (string * fieldType).

(** [interface SyncResult { uploaded; downloaded; deleted; skipped }] *)
Definition SyncResult : interface :=
  [("uploaded", TNumber); ("downloaded", TNumber);
   ("deleted", TNumber); ("skipped", TNumber)].

(** [interface SyncCompletedPayload { sync_id; files_uploaded; files_downloaded }] *)
Definition SyncCompletedPayload : interface :=
  [("sync_id", TString); ("files_uploaded", TNumber); ("files_downloaded", TNumber)].

(** An object has the type of an interface when it has every declared
    field, with a value of the declared type (types are structural). *)
Definition conforms (i : interface) (o : gmap string jsval) : bool :=
  forallb (fun '(k, t) => match o !! k with
                          | Some v => hasType v t
                          | None => false
                          end) i.


(** The listener of [sync-completed] in [setupTauriEventListeners]: the
    message it builds from the payload and hands to [showError]; [None]
    when one of the two counts it prints is outside the safe range. *)
Definition syncCompletedMessage (payload : gmap string jsval) : option string :=
  files_uploaded ← render (payload !! "files_uploaded");
  files_downloaded ← render (payload !! "files_downloaded");
  Some ("Sync completed: " +:+ files_uploaded +:+ " uploaded, "
        +:+ files_downloaded +:+ " downloaded").

(** A call of [invoke(command, args)]; the arguments in the order of the
    object literal. *)
Record InvokeCall := {
  command : string;
  arguments : list (string * jsval)
}.

(** A [string | null] variable as a JSON value. *)
Definition jsOfOption (o : option string) : jsval :=
  match o with
  | Some s => JStr s
  | None => JNull
  end.

(** [!x] is false exactly for a non-empty string. *)
Definition truthy (o : option string) : bool :=
  match o with
  | Some (String _ _) => true
  | _ => false
  end.

(** [api.syncFolder(profileId, bucket, prefix, localPath, direction)] *)
Definition syncFolder (profileId bucket : jsval) (prefix localPath direction : string)
  : InvokeCall :=
  {| command := "sync_folder";
     arguments := [("profileId", profileId); ("bucket", bucket);
                   ("prefix", JStr prefix); ("localPath", JStr localPath);
                   ("direction", JStr direction)] |}.

(** [api.uploadFile(profileId, bucket, prefix, filePath)] *)
Definition uploadFile (profileId bucket : jsval) (prefix filePath : string)
  : InvokeCall :=
  {| command := "upload_files";
     arguments := [("profileId", profileId); ("bucket", bucket);
                   ("prefix", JStr prefix); ("filePaths", JArr [filePath])] |}.

(** The argument of a call, by name. *)
Definition argument (name : string) (c : InvokeCall) : option jsval :=
  (fun found => found.2.2) <$> list_find (fun kv => kv.1 = name) (arguments c).

(** ** Tasks (main.ts, Task management; types.ts) *)

Inductive TaskType := TypeUpload | TypeDelete | TypeSync | TypeKeepsync.
Inductive TaskStatus := StatusPending | StatusRunning | StatusCompleted | StatusFailed.

Global Instance TaskType_eq_dec : EqDecision TaskType.
Proof. solve_decision. Defined.

Global Instance TaskStatus_eq_dec : EqDecision TaskStatus.
Proof. solve_decision. Defined.

Record Task := {
  task_id : string;
  task_type : TaskType;
  task_fileName : string;
  task_status : TaskStatus;
  task_error : option string;
  task_syncId : option string
}.

(** [let tasks: Task[] = []; let taskIdCounter = 0;]

    [statusLog] is not in the source: it records, oldest first, every
    status assignment [updateTaskStatus] performs, as (task id, status
    before, status after), so that the history of a task can be stated. *)
Record TaskStore := {
  tasks : list Task;
  taskIdCounter : nat;
  statusLog : list (string * TaskStatus * TaskStatus)
}.

(** [`task-${++taskIdCounter}`]: the id made from counter value [n]. *)
Definition taskIdOf (n : nat) : string := "task-" +:+ pretty n.

Definition newTask (n : nat) (type : TaskType) (fileName : string) : Task :=
  {| task_id := taskIdOf n; task_type := type; task_fileName := fileName;
     task_status := StatusPending; task_error := None; task_syncId := None |}.

(** [addTask(type, fileName)]: the new task goes to the front. *)
Definition addTask (type : TaskType) (fileName : string) (st : TaskStore)
  : Task * TaskStore :=
  let n := S (taskIdCounter st) in
  let task := newTask n type fileName in
  (task, {| tasks := task :: tasks st; taskIdCounter := n; statusLog := statusLog st |}).

(** [fileNames.map(fileName => ({ id: generateTaskId(), ... }))]: ids are
    drawn in the order of the names, starting from counter value [n]. *)
Fixpoint newTasks (n : nat) (type : TaskType) (fileNames : list string) : list Task :=
  match fileNames with
  | [] => []
  | fileName :: rest => newTask (S n) type fileName :: newTasks (S n) type rest
  end.

(** [addTasksBatch(type, fileNames)]: [tasks.unshift(...newTasks)]. *)
Definition addTasksBatch (type : TaskType) (fileNames : list string) (st : TaskStore)
  : list Task * TaskStore :=
  let created := newTasks (taskIdCounter st) type fileNames in
  (created,
   {| tasks := created ++ tasks st;
      taskIdCounter := taskIdCounter st + length fileNames;
      statusLog := statusLog st |}).

(** [tasks.find(t => t.id === taskId)] *)
Definition findTask (taskId : string) (l : list Task) : option Task :=
  snd <$> list_find (fun t => task_id t = taskId) l.

(** The assignment inside [updateTaskStatus]:
    [task.status = status; if (error) task.error = error;] *)
Definition setStatus (status : TaskStatus) (error : option string) (t : Task) : Task :=
  {| task_id := task_id t; task_type := task_type t; task_fileName := task_fileName t;
     task_status := status;
     task_error := if truthy error then error else task_error t;
     task_syncId := task_syncId t |}.

(** The found task is an object of the array: assigning to it changes the
    first element with that id, in place. *)
Fixpoint assignFirst (taskId : string) (f : Task → Task) (l : list Task) : list Task :=
  match l with
  | [] => []
  | t :: rest =>
      if decide (task_id t = taskId) then f t :: rest
      else t :: assignFirst taskId f rest
  end.

(** [updateTaskStatus(taskId, status, error?)] *)
Definition updateTaskStatus (taskId : string) (status : TaskStatus)
    (error : option string) (st : TaskStore) : TaskStore :=
  match findTask taskId (tasks st) with
  | Some task =>
      {| tasks := assignFirst taskId (setStatus status error) (tasks st);
         taskIdCounter := taskIdCounter st;
         statusLog := statusLog st ++ [(taskId, task_status task, status)] |}
  | None => st
  end.

(** The two terminal statuses, [completed] and [failed]. *)
Definition isTerminal (s : TaskStatus) : bool :=
  match s with
  | StatusCompleted | StatusFailed => true
  | _ => false
  end.

(** [path.split(/[/\\]/).pop() || fallback]: the text after the last slash
    or backslash, or the fallback when that text is empty. *)
Fixpoint lastSegment (acc : string) (path : string) : string :=
  match path with
  | EmptyString => acc
  | String a rest =>
      if Ascii.eqb a "/" || Ascii.eqb a backslash then lastSegment EmptyString rest
      else lastSegment (acc +:+ String a EmptyString) rest
  end.

Definition baseNameOr (fallback : string) (path : string) : string :=
  match lastSegment EmptyString path with
  | EmptyString => fallback
  | name => name
  end.

(** ** The one-shot Sync action (main.ts, Sync operations) *)

(** [currentProfileId], [currentBucket], [currentPrefix]. *)
Record Selection := {
  currentProfileId : option string;
  currentBucket : option string;
  currentPrefix : string
}.

(** What [syncWithLocal] has done when it reaches the await of
    [api.syncFolder], or when it returns before: the bridge call it made
    (if any), the task store and the error log. [sel] is the selection
    when the button is clicked, [folder] the answer of the folder dialog
    ([null] when the user cancels), [later] the selection when the dialog
    has closed: the arguments of the call are read then. *)
Definition syncWithLocal (sel : Selection) (folder : option string) (later : Selection)
    (ts : TaskStore) (log : ErrorLog) : option InvokeCall * TaskStore * ErrorLog :=
  if negb (truthy (currentProfileId sel)) || negb (truthy (currentBucket sel)) then
    (None, ts, showError "Please select a profile and bucket first" log)
  else
    match folder with
    | Some (String _ _ as path) =>
        let folderName := baseNameOr "folder" path in
        let '(task, ts1) := addTask TypeSync folderName ts in
        let ts2 := updateTaskStatus (task_id task) StatusRunning None ts1 in
        (Some (syncFolder (jsOfOption (currentProfileId later))
                          (jsOfOption (currentBucket later))
                          (currentPrefix later) path "local_to_remote"),
         ts2, log)
    | _ => (None, ts, log)
    end.

(** [type SyncDirection = "local_to_remote" | "remote_to_local"] *)
Definition SyncDirection : list string := ["local_to_remote"; "remote_to_local"].

(** A completion event with exactly the declared fields. *)
Definition sampleCompleted : gmap string jsval :=
  {[ "sync_id" := JStr "sync-1"; "files_uploaded" := JNum 3; "files_downloaded" := JNum 0 ]}.

(** ** Search debounce (main.ts, Search functions)

    Time is counted in milliseconds. The browser's timers are modelled as
    a table of pending timers: [setTimeout(cb, ms)] adds one with a fresh
    positive id, due [ms] after the current time; [clearTimeout(id)]
    removes it if it is still pending; when time passes, the due timers
    run in the order of their due times (a timer is taken to run at its
    due time: the delay a busy browser adds is not modelled). *)

(** A pending timer of [handleSearchInput]: the closure holds [value]. *)
Record Timer := {
  timer_id : nat;
  timer_due : Z;
  timer_value : string
}.

(** [searchTimeout], [searchPrefix], [continuationToken], [tokenHistory],
    with the clock and the timer table. [loads] is not in the source: it
    records each call of [loadObjects()] made by a timer callback, as the
    time of the call and the search prefix it loads with. *)
Record SearchState := {
  now : Z;
  timers : list Timer;
  nextTimerId : nat;
  searchTimeout : option nat;
  searchPrefix : string;
  continuationToken : option string;
  tokenHistory : list string;
  loads : list (Z * string)
}.

Definition initialSearchState : SearchState :=
  {| now := 0; timers := []; nextTimerId := 1; searchTimeout := None;
     searchPrefix := EmptyString; continuationToken := None; tokenHistory := [];
     loads := [] |}.

(** [clearTimeout(id)] *)
Definition clearTimeout (id : nat) (st : SearchState) : SearchState :=
  {| now := now st;
     timers := filter (fun tm => timer_id tm ≠ id) (timers st);
     nextTimerId := nextTimerId st;
     searchTimeout := searchTimeout st;
     searchPrefix := searchPrefix st;
     continuationToken := continuationToken st;
     tokenHistory := tokenHistory st;
     loads := loads st |}.

(** [searchTimeout = window.setTimeout(() => {...}, 300)] with [value] in
    the closure. *)
Definition armSearchTimeout (value : string) (st : SearchState) : SearchState :=
  {| now := now st;
     timers := timers st ++ [{| timer_id := nextTimerId st;
                                timer_due := now st + 300;
                                timer_value := value |}];
     nextTimerId := S (nextTimerId st);
     searchTimeout := Some (nextTimerId st);
     searchPrefix := searchPrefix st;
     continuationToken := continuationToken st;
     tokenHistory := tokenHistory st;
     loads := loads st |}.

(** [handleSearchInput()], with [value] the text of the search box:
    [if (searchTimeout) clearTimeout(searchTimeout);] then the timer is
    armed again. A timer id is truthy when it is not 0. *)
Definition handleSearchInput (value : string) (st : SearchState) : SearchState :=
  armSearchTimeout value
    match searchTimeout st with
    | Some (S _ as id) => clearTimeout id st
    | _ => st
    end.

(** The timer callback: [searchPrefix = value; continuationToken = null;
    tokenHistory = []; loadObjects();], run at the timer's due time. *)
Definition fireTimer (st : SearchState) (tm : Timer) : SearchState :=
  {| now := timer_due tm;
     timers := timers st;
     nextTimerId := nextTimerId st;
     searchTimeout := searchTimeout st;
     searchPrefix := timer_value tm;
     continuationToken := None;
     tokenHistory := [];
     loads := loads st ++ [(timer_due tm, timer_value tm)] |}.

Definition dueBy (t : Z) (tm : Timer) : Prop := (timer_due tm ≤ t)%Z.

Definition dueOrder (a b : Timer) : Prop := (timer_due a ≤ timer_due b)%Z.

Global Instance dueBy_dec t tm : Decision (dueBy t tm).
Proof. unfold dueBy. apply _. Defined.

Global Instance dueOrder_dec : RelDecision dueOrder.
Proof. intros a b. unfold dueOrder. apply _. Defined.

(** Time passes until [t]: the timers due by then run, earliest first. *)
Definition elapse (t : Z) (st : SearchState) : SearchState :=
  let due := merge_sort dueOrder (filter (dueBy t) (timers st)) in
  let st1 :=
    foldl fireTimer
      {| now := now st;
         timers := filter (fun tm => ¬ dueBy t tm) (timers st);
         nextTimerId := nextTimerId st;
         searchTimeout := searchTimeout st;
         searchPrefix := searchPrefix st;
         continuationToken := continuationToken st;
         tokenHistory := tokenHistory st;
         loads := loads st |} due in
  {| now := Z.max (now st1) t;
     timers := timers st1;
     nextTimerId := nextTimerId st1;
     searchTimeout := searchTimeout st1;
     searchPrefix := searchPrefix st1;
     continuationToken := continuationToken st1;
     tokenHistory := tokenHistory st1;
     loads := loads st1 |}.

(** An input event at time [t] with the box holding [value]: the timers
    due by [t] have run before the handler does. *)
Definition inputAt (st : SearchState) (ev : Z * string) : SearchState :=
  handleSearchInput ev.2 (elapse ev.1 st).

Definition inputsAt (evs : list (Z * string)) (st : SearchState) : SearchState :=
  foldl inputAt st evs.

(** Each event of the list arrives less than 300 ms after the one before
    it ([prev] is the time of the one before the first). *)
Fixpoint rapid (prev : Z) (evs : list (Z * string)) : Prop :=
  match evs with
  | [] => True
  | ev :: rest => (prev ≤ ev.1 < prev + 300)%Z ∧ rapid ev.1 rest
  end.

(** The state right after an input event at time [t] with text [v]: one
    timer is pending, due at [t + 300], holding [v], and [searchTimeout]
    is its id; [L] are the loads made so far. *)
Definition armed (st : SearchState) (t : Z) (v : string) (L : list (Z * string)) : Prop :=
  now st = t ∧ loads st = L
  ∧ ∃ id, timers st = [{| timer_id := S id; timer_due := (t + 300)%Z; timer_value := v |}]
          ∧ searchTimeout st = Some (S id)
          ∧ nextTimerId st = S (S id).

(** ** The task pool: [runWithConcurrency] (main.ts, File operations)

    [runWithConcurrency] is an async function: it runs without
    interruption up to its [await], and nothing else runs meanwhile. The
    model makes its program points explicit and lets the rest of the
    event loop (the workers and the promise reactions) take steps only
    while the function is suspended or has ended. *)

(** Where [runWithConcurrency] stands. *)
Inductive Control :=
| AtOuterTest                 (* while (queue.length > 0 || running.length > 0) *)
| AtInnerTest                 (* while (running.length < concurrency && queue.length > 0) *)
| AtIfRunning                 (* if (running.length > 0) *)
| Awaiting                    (* await Promise.race(running): the race is pending *)
| Resuming (rejected : bool)  (* the race has settled: the continuation is queued *)
| Returned                    (* the loop has ended: the returned promise is fulfilled *)
| Thrown.                     (* the await threw: the returned promise is rejected *)

Global Instance Control_eq_dec : EqDecision Control.
Proof. solve_decision. Defined.

(** The three synchronous points: no other code runs there. *)
Definition synchronous (c : Control) : bool :=
  match c with
  | AtOuterTest | AtInnerTest | AtIfRunning => true
  | _ => false
  end.

(** The steps of the event loop that concern one run of the pool. *)
Inductive Event {O : Type} :=
| Main                        (* the next statement of runWithConcurrency *)
| Settle (p : nat) (o : O)    (* what worker p awaits settles with o; the worker runs to its end *)
| Finally (p : nat).          (* the finally callback of promise p runs; the promise settles *)

Global Arguments Event : clear implicits.

(** The promise made by [fn(item).finally(...)]: the worker [fn(item)] is
    pending, or has settled (its [finally] callback is queued), or the
    callback has run and the promise itself is settled. [o] is the
    outcome of what the worker awaited. *)
Inductive PromiseState {O : Type} :=
| FnPending
| FnSettled (o : O)
| Finalized (o : O).

Global Arguments PromiseState : clear implicits.

Definition unfinalized {O} (st : PromiseState O) : bool :=
  match st with
  | Finalized _ => false
  | _ => true
  end.

Section Pool.

Context {T O A : Type}.

(** The worker [fn] as the pool sees it, an async function: called on an
    item it runs up to its await ([begin]); when what it awaits settles
    with outcome [o] it runs to its end ([finish]), and its promise is
    then fulfilled or rejected ([rejects]). [A] is the state of the
    application the worker acts on. *)
Record Worker := {
  begin : T → A → A;
  finish : T → O → A → A;
  rejects : T → O → bool
}.

(** [queue] and [running] are the two arrays of the source. The promise
    objects live in [promises], in the order of their creation; [running]
    holds references to them (their indices), as the array of the source
    holds references to promise objects. *)
Record Pool := {
  queue : list T;
  running : list nat;
  promises : list (T * PromiseState O);
  control : Control;
  app : A
}.

Definition setControl (c : Control) (s : Pool) : Pool :=
  {| queue := queue s; running := running s; promises := promises s;
     control := c; app := app s |}.

(** [const queue = [...items]; const running = [];] *)
Definition start (items : list T) (a : A) : Pool :=
  {| queue := items; running := []; promises := []; control := AtOuterTest; app := a |}.

(** [running.indexOf(promise)] *)
Definition indexOf (p : nat) (l : list nat) : option nat :=
  fst <$> list_find (fun x => x = p) l.

(** [const index = running.indexOf(promise);
     if (index > -1) running.splice(index, 1);] *)
Definition finallyCallback (p : nat) (l : list nat) : list nat :=
  match indexOf p l with
  | Some index => delete index l
  | None => l
  end.

(** [concurrency] is the limit as an integer; a limit that is not an
    integer is outside the model. A worker is an async function: a call of
    it returns a promise and does not throw. *)
Variable w : Worker.
Variable concurrency : Z.

(** The body of the inner loop:
    [const item = queue.shift()!;
     const promise = fn(item).finally(...);
     running.push(promise);] *)
Definition dispatch (item : T) (rest : list T) (s : Pool) : Pool :=
  {| queue := rest;
     running := running s ++ [length (promises s)];
     promises := promises s ++ [(item, FnPending)];
     control := AtInnerTest;
     app := begin w item (app s) |}.

Definition step (ev : Event O) (s : Pool) : option Pool :=
  match ev with
  | Main =>
      match control s with
      | AtOuterTest =>
          if bool_decide (0 < length (queue s)) || bool_decide (0 < length (running s))
          then Some (setControl AtInnerTest s)
          else Some (setControl Returned s)
      | AtInnerTest =>
          if bool_decide (Z.of_nat (length (running s)) < concurrency)%Z
             && bool_decide (0 < length (queue s))
          then match queue s with
               | item :: rest => Some (dispatch item rest s)
               | [] => None
               end
          else Some (setControl AtIfRunning s)
      | AtIfRunning =>
          if bool_decide (0 < length (running s))
          then Some (setControl Awaiting s)
          else Some (setControl AtOuterTest s)
      | Resuming rejected =>
          Some (setControl (if rejected then Thrown else AtOuterTest) s)
      | Awaiting | Returned | Thrown => None
      end
  | Settle p o =>
      if synchronous (control s) then None
      else match promises s !! p with
           | Some (item, FnPending) =>
               Some {| queue := queue s;
                       running := running s;
                       promises := <[p := (item, FnSettled o)]> (promises s);
                       control := control s;
                       app := finish w item o (app s) |}
           | _ => None
           end
  | Finally p =>
      if synchronous (control s) then None
      else match promises s !! p with
           | Some (item, FnSettled o) =>
               Some {| queue := queue s;
                       running := finallyCallback p (running s);
                       promises := <[p := (item, Finalized o)]> (promises s);
                       control := match control s with
                                  | Awaiting => Resuming (rejects w item o)
                                  | c => c
                                  end;
                       app := app s |}
           | _ => None
           end
  end.

(** A schedule is a list of events, oldest first; it runs as long as each
    event is enabled. *)
Fixpoint run (schedule : list (Event O)) (s : Pool) : option Pool :=
  match schedule with
  | [] => Some s
  | ev :: rest =>
      match step ev s with
      | Some s' => run rest s'
      | None => None
      end
  end.

(** The promise returned by [runWithConcurrency] has settled. *)
Definition terminated (s : Pool) : Prop :=
  control s = Returned ∨ control s = Thrown.

(** The items on which [fn] has been called, oldest first. *)
Definition called (s : Pool) : list T := fst <$> promises s.

(** The workers still pending, by the index of their promise. *)
Definition pendingAt (s : Pool) (k : nat) : bool :=
  match promises s !! k with
  | Some (_, FnPending) => true
  | _ => false
  end.

Definition inFlight (s : Pool) : list nat :=
  filter (fun k => pendingAt s k = true) (seq 0 (length (promises s))).

End Pool.

Global Arguments Worker : clear implicits.
Global Arguments Pool : clear implicits.

(** *** What holds in every state of a run of the pool over [items] *)

Section PoolInvariant.

Context {T O A : Type}.
Variable concurrency : Z.
Variable items : list T.

Record PoolInv (s : Pool T O A) : Prop := {
  (* the items already handed to fn, then the items still queued *)
  inv_items : called s ++ queue s = items;
  (* running holds each promise whose finally callback has not run, once *)
  inv_nodup : NoDup (running s);
  inv_running : ∀ k, k ∈ running s ↔
    ∃ item st, promises s !! k = Some (item, st) ∧ unfinalized st = true;
  inv_bound : (Z.of_nat (length (running s)) ≤ Z.max 0 concurrency)%Z;
  (* the race awaited is over a non-empty array *)
  inv_awaiting : control s = Awaiting → running s ≠ [];
  (* inside the body of the outer loop *)
  inv_body : control s = AtInnerTest ∨ control s = AtIfRunning →
    queue s ≠ [] ∨ running s ≠ [];
  (* the inner loop has just ended *)
  inv_if : control s = AtIfRunning →
    ¬ ((Z.of_nat (length (running s)) < concurrency)%Z ∧ queue s ≠ []);
  inv_returned : control s = Returned → queue s = [] ∧ running s = []
}.

End PoolInvariant.

(** The measure that every step of the pool decreases. *)
Definition promiseWeight {O} (st : PromiseState O) : nat :=
  match st with
  | FnPending => 6
  | FnSettled _ => 5
  | Finalized _ => 0
  end.

Definition controlRank (c : Control) : nat :=
  match c with
  | Resuming _ => 5
  | AtOuterTest => 4
  | AtInnerTest => 3
  | AtIfRunning => 2
  | Awaiting => 1
  | Returned | Thrown => 0
  end.

Definition measure {T O A} (s : Pool T O A) : nat :=
  7 * length (queue s)
  + sum_list_with (fun p => promiseWeight p.2) (promises s)
  + controlRank (control s).


(** ** Uploads through the pool: [uploadFilesWithTasks] *)

Definition MAX_CONCURRENT_UPLOADS : Z := 20.

(** An element of [uploadItems]: [{ filePath, task }]. *)
Record UploadItem := {
  filePath : string;
  task : Task
}.

(** How [api.uploadFile] settles: it resolves, or it rejects with an
    error; [reason] is [String(err)]. *)
Inductive UploadOutcome :=
| UploadResolved
| UploadRejected (reason : string).

(** The state the upload worker acts on: the task list, and the calls made
    on the bridge so far (oldest first). *)
Record UploadApp := {
  store : TaskStore;
  bridge : list InvokeCall
}.

(** The worker passed to [runWithConcurrency]:
    [async ({ filePath, task }) => {
       updateTaskStatus(task.id, "running");
       try { await api.uploadFile(profileId, bucket, prefix, filePath);
             updateTaskStatus(task.id, "completed"); }
       catch (err) { updateTaskStatus(task.id, "failed", String(err)); } }]
    It catches every rejection, so its own promise is always fulfilled. *)
Definition uploadWorker (profileId bucket prefix : string)
  : Worker UploadItem UploadOutcome UploadApp :=
  {| begin item a :=
       {| store := updateTaskStatus (task_id (task item)) StatusRunning None (store a);
          bridge := bridge a ++ [uploadFile (JStr profileId) (JStr bucket) prefix (filePath item)] |};
     finish item o a :=
       {| store :=
            match o with
            | UploadResolved =>
                updateTaskStatus (task_id (task item)) StatusCompleted None (store a)
            | UploadRejected reason =>
                updateTaskStatus (task_id (task item)) StatusFailed (Some reason) (store a)
            end;
          bridge := bridge a |};
     rejects _ _ := false |}.

(** [filePaths.map((filePath, index) => ({ filePath, task: createdTasks[index] }))] *)
Definition uploadItems (filePaths : list string) (createdTasks : list Task)
  : list UploadItem :=
  zip_with Build_UploadItem filePaths createdTasks.

(** [uploadFilesWithTasks(filePaths)] up to its call of
    [runWithConcurrency]: nothing when no profile or bucket is selected,
    else the worker and the state in which the pool starts. *)
Definition uploadFilesWithTasks (sel : Selection) (filePaths : list string)
    (ts : TaskStore)
  : option (Worker UploadItem UploadOutcome UploadApp * Pool UploadItem UploadOutcome UploadApp) :=
  match currentProfileId sel, currentBucket sel with
  | Some (String _ _ as profileId), Some (String _ _ as bucket) =>
      let fileNames := (fun filePath => baseNameOr filePath filePath) <$> filePaths in
      let '(createdTasks, ts') := addTasksBatch TypeUpload fileNames ts in
      Some (uploadWorker profileId bucket (currentPrefix sel),
            start (uploadItems filePaths createdTasks) {| store := ts'; bridge := [] |})
  | _, _ => None
  end.

(** The text shown for a task by [renderTasks]. *)
Definition statusText (t : Task) : string :=
  match task_status t with
  | StatusPending => "Waiting..."
  | StatusRunning =>
      match task_type t with
      | TypeUpload => "Uploading..."
      | TypeDelete => "Deleting..."
      | TypeSync => "Syncing..."
      | TypeKeepsync => "Watching..."
      end
  | StatusCompleted => "Completed"
  | StatusFailed =>
      match task_error t with
      | Some (String _ _ as reason) => reason
      | _ => "Failed"
      end
  end.

(** A worker that does nothing, on items, outcomes and a state without
    content, used to run the pool alone. *)
Definition idleWorker : Worker unit unit unit :=
  {| begin _ a := a; finish _ _ a := a; rejects _ _ := false |}.



(** *** What holds in every state of an upload batch *)

Definition terminalStatus (o : UploadOutcome) : TaskStatus :=
  match o with
  | UploadResolved => StatusCompleted
  | UploadRejected _ => StatusFailed
  end.

(** The state of the promise of item [k] ([None]: the item is still queued). *)
Definition promiseAt {T O A} (s : Pool T O A) (k : nat) : option (PromiseState O) :=
  snd <$> promises s !! k.

(** The status, the error field and the status assignments of the task of
    an item, as they follow from the state of the item's promise. *)
Definition expectedStatus (p : option (PromiseState UploadOutcome)) : TaskStatus :=
  match p with
  | None => StatusPending
  | Some FnPending => StatusRunning
  | Some (FnSettled o) | Some (Finalized o) => terminalStatus o
  end.

Definition recordedReason (o : UploadOutcome) : option string :=
  match o with
  | UploadRejected (String _ _ as reason) => Some reason
  | _ => None
  end.

Definition expectedError (p : option (PromiseState UploadOutcome)) : option string :=
  match p with
  | Some (FnSettled o) | Some (Finalized o) => recordedReason o
  | _ => None
  end.

Definition expectedHistory (taskId : string) (p : option (PromiseState UploadOutcome))
  : list (string * TaskStatus * TaskStatus) :=
  match p with
  | None => []
  | Some FnPending => [(taskId, StatusPending, StatusRunning)]
  | Some (FnSettled o) | Some (Finalized o) =>
      [(taskId, StatusPending, StatusRunning); (taskId, StatusRunning, terminalStatus o)]
  end.

(** The status assignments of one task, oldest first. *)
Definition historyOf (taskId : string) (log : list (string * TaskStatus * TaskStatus))
  : list (string * TaskStatus * TaskStatus) :=
  filter (fun e => e.1.1 = taskId) log.

(** The bridge call of an upload item. *)
Definition uploadCall (profileId bucket prefix : string) (item : UploadItem) : InvokeCall :=
  uploadFile (JStr profileId) (JStr bucket) prefix (filePath item).

(** The task of [item] in [batch] and its assignments in [log] are what
    the state [p] of the item's promise says. *)
Definition taskFollows (batch : list Task) (log : list (string * TaskStatus * TaskStatus))
    (item : UploadItem) (p : option (PromiseState UploadOutcome)) : Prop :=
  historyOf (task_id (task item)) log = expectedHistory (task_id (task item)) p
  ∧ ∃ t, findTask (task_id (task item)) batch = Some t
         ∧ task_status t = expectedStatus p
         ∧ task_error t = expectedError p.

(** [ts0] is the task store before the batch, [items] the upload items. *)
Definition UploadInv (ts0 : TaskStore) (profileId bucket prefix : string)
    (items : list UploadItem) (s : Pool UploadItem UploadOutcome UploadApp) : Prop :=
  ∃ batch log,
    tasks (store (app s)) = batch ++ tasks ts0
    ∧ length batch = length items
    ∧ statusLog (store (app s)) = statusLog ts0 ++ log
    ∧ bridge (app s) = uploadCall profileId bucket prefix <$> called s
    ∧ control s ≠ Thrown ∧ control s ≠ Resuming true
    ∧ (∀ e, e ∈ log → ∃ item, item ∈ items ∧ e.1.1 = task_id (task item))
    ∧ ∀ k item, items !! k = Some item → taskFollows batch log item (promiseAt s k).

(** The upload of the item has settled with outcome [o]. *)
Definition settledWith (p : option (PromiseState UploadOutcome)) (o : UploadOutcome) : Prop :=
  p = Some (FnSettled o) ∨ p = Some (Finalized o).

(** The reason a task holds, read as a string: like [renderTasks], which
    reads [task.error || ...], this takes an unset error field and the
    empty string for the same thing. *)
Definition errorText (t : Task) : string :=
  default EmptyString (task_error t).

(** The text shown for a failure with the given reason. *)
Definition failureText (reason : string) : string :=
  match reason with
  | EmptyString => "Failed"
  | _ => reason
  end.

(** The [filePaths] argument of the bridge call for an item. *)
Definition filePathsOf (item : UploadItem) : option jsval :=
  Some (JArr [filePath item]).

(** A batch of two uploads under a limit of 1: the first upload fails,
    the second succeeds. *)
Definition sampleSelection : Selection :=
  {| currentProfileId := Some "p1"; currentBucket := Some "photos"; currentPrefix := "2024/" |}.

Definition samplePaths : list string := ["/home/me/a.txt"; "/home/me/b.txt"].

Definition emptyStore : TaskStore := {| tasks := []; taskIdCounter := 0; statusLog := [] |}.

Definition sampleWorker : Worker UploadItem UploadOutcome UploadApp :=
  uploadWorker "p1" "photos" "2024/".

Definition sampleStart : Pool UploadItem UploadOutcome UploadApp :=
  start (uploadItems samplePaths (newTasks 0 TypeUpload ["a.txt"; "b.txt"]))
    {| store := {| tasks := newTasks 0 TypeUpload ["a.txt"; "b.txt"];
                   taskIdCounter := 2; statusLog := [] |};
       bridge := [] |}.

Definition sampleSchedule : list (Event UploadOutcome) :=
  [Main; Main; Main; Main; Settle 0 (UploadRejected "timeout"); Finally 0; Main;
   Main; Main; Main; Main; Settle 1 UploadResolved; Finally 1; Main; Main].

(** ** The one-shot sync behind [sync_folder]

    The front end only calls the command ([syncFolder] above) and reads the
    four counts of its result; the command itself is implemented in the
    Rust back end, whose files are not among the sources. The definitions
    of this part are therefore written from the specification (sections 3,
    4.3 and 4.4), not from code. *)

(** Modelled from the spec: the sync engine of the back end is missing from
    the sources. A file entry is a byte size, a fingerprint and a
    last-modified time; the relative path is the key under which it is
    stored. *)
Record FileEntry := {
  entry_size : N;
  entry_fingerprint : string;
  entry_mtime : Z
}.

(** Modelled from the spec: the sync engine of the back end is missing from
    the sources. One operation per relative path. *)
Inductive SyncOperation :=
| Upload (path : string)
| Download (path : string)
| DeleteLocal (path : string)
| DeleteRemote (path : string)
| Skip (path : string).

(** Modelled from the spec: the sync engine of the back end is missing from
    the sources. The path an operation is about. *)
Definition opPath (op : SyncOperation) : string :=
  match op with
  | Upload p | Download p | DeleteLocal p | DeleteRemote p | Skip p => p
  end.

(** Modelled from the spec: the sync engine of the back end is missing from
    the sources. The transfers are the uploads and the downloads. *)
Definition isTransfer (op : SyncOperation) : bool :=
  match op with
  | Upload _ | Download _ => true
  | _ => false
  end.

(** Modelled from the spec: the sync engine of the back end is missing from
    the sources. The three directions of section 3. *)
Inductive Direction := LocalToRemote | RemoteToLocal | Bidirectional.

(** Modelled from the spec: the Diff Planner of the back end is missing
    from the sources. The decision for one path (section 4.3), from its
    entry on the local side and on the remote side: a path on the source
    side only is transferred; a path on the destination side only is
    skipped, or deleted there when orphans are deleted; a path on both
    sides is skipped when the fingerprints are equal and otherwise
    transferred from the source, which for [Bidirectional] is the side with
    the newer time, a tie being skipped. For [Bidirectional] each side is
    the source of the paths only it has. *)
Definition planEntry (d : Direction) (deleteOrphans : bool)
    (l r : option FileEntry) : option (string → SyncOperation) :=
  match l, r with
  | None, None => None
  | Some _, None =>
      match d with
      | LocalToRemote | Bidirectional => Some Upload
      | RemoteToLocal => Some (if deleteOrphans then DeleteLocal else Skip)
      end
  | None, Some _ =>
      match d with
      | RemoteToLocal | Bidirectional => Some Download
      | LocalToRemote => Some (if deleteOrphans then DeleteRemote else Skip)
      end
  | Some a, Some b =>
      if decide (entry_fingerprint a = entry_fingerprint b) then Some Skip
      else match d with
           | LocalToRemote => Some Upload
           | RemoteToLocal => Some Download
           | Bidirectional =>
               if (entry_mtime b <? entry_mtime a)%Z then Some Upload
               else if (entry_mtime a <? entry_mtime b)%Z then Some Download
               else Some Skip
           end
  end.

(** Modelled from the spec: the Diff Planner of the back end is missing
    from the sources. One operation for each path of the union of the two
    sides. *)
Definition plannedOps (d : Direction) (deleteOrphans : bool)
    (l r : gmap string FileEntry) : list SyncOperation :=
  (fun pk => pk.2 pk.1) <$> map_to_list (merge (planEntry d deleteOrphans) l r).

(** Modelled from the spec: the Diff Planner of the back end is missing
    from the sources. The plan in its order of execution: the transfers
    first, the deletions (and the skips) after them. *)
Definition plan (d : Direction) (deleteOrphans : bool)
    (l r : gmap string FileEntry) : list SyncOperation :=
  filter (fun op => isTransfer op = true) (plannedOps d deleteOrphans l r)
  ++ filter (fun op => ¬ isTransfer op = true) (plannedOps d deleteOrphans l r).

(** Modelled from the spec: the result of a batch (section 3, SyncResult),
    with the two sides as the batch leaves them and the operations that
    failed. *)
Record SyncRun := {
  side_local : gmap string FileEntry;
  side_remote : gmap string FileEntry;
  uploaded : nat;
  downloaded : nat;
  deleted : nat;
  skipped : nat;
  failedOps : list SyncOperation
}.

(** Modelled from the spec: the transfer primitives of the back end are
    missing from the sources. The copy of an entry made by a transfer at
    time [clock]: same bytes, hence same size and fingerprint (section
    4.1); the time is that of the copy. *)
Definition copied (clock : Z) (e : FileEntry) : FileEntry :=
  {| entry_size := entry_size e; entry_fingerprint := entry_fingerprint e;
     entry_mtime := clock |}.

(** Modelled from the spec: the Task Scheduler of the back end is missing
    from the sources. One operation of a batch (section 4.4): on success
    the transfer or deletion takes effect and its counter is incremented;
    on failure the operation is recorded and the batch goes on. A skip
    calls nothing and cannot fail. [fails] tells which operations fail. *)
Definition runOp (fails : SyncOperation → bool) (clock : Z)
    (st : SyncRun) (op : SyncOperation) : SyncRun :=
  let failure :=
    {| side_local := side_local st; side_remote := side_remote st;
       uploaded := uploaded st; downloaded := downloaded st;
       deleted := deleted st; skipped := skipped st;
       failedOps := failedOps st ++ [op] |} in
  match op with
  | Skip _ =>
      {| side_local := side_local st; side_remote := side_remote st;
         uploaded := uploaded st; downloaded := downloaded st;
         deleted := deleted st; skipped := S (skipped st);
         failedOps := failedOps st |}
  | Upload p =>
      match side_local st !! p with
      | Some e =>
          if fails op then failure
          else {| side_local := side_local st;
                  side_remote := <[p := copied clock e]> (side_remote st);
                  uploaded := S (uploaded st); downloaded := downloaded st;
                  deleted := deleted st; skipped := skipped st;
                  failedOps := failedOps st |}
      | None => failure
      end
  | Download p =>
      match side_remote st !! p with
      | Some e =>
          if fails op then failure
          else {| side_local := <[p := copied clock e]> (side_local st);
                  side_remote := side_remote st;
                  uploaded := uploaded st; downloaded := S (downloaded st);
                  deleted := deleted st; skipped := skipped st;
                  failedOps := failedOps st |}
      | None => failure
      end
  | DeleteLocal p =>
      if fails op then failure
      else {| side_local := delete p (side_local st); side_remote := side_remote st;
              uploaded := uploaded st; downloaded := downloaded st;
              deleted := S (deleted st); skipped := skipped st;
              failedOps := failedOps st |}
  | DeleteRemote p =>
      if fails op then failure
      else {| side_local := side_local st; side_remote := delete p (side_remote st);
              uploaded := uploaded st; downloaded := downloaded st;
              deleted := S (deleted st); skipped := skipped st;
              failedOps := failedOps st |}
  end.

(** Modelled from the spec: the Task Scheduler of the back end is missing
    from the sources. A batch starts with all counts at 0. *)
Definition startSync (l r : gmap string FileEntry) : SyncRun :=
  {| side_local := l; side_remote := r;
     uploaded := 0; downloaded := 0; deleted := 0; skipped := 0; failedOps := [] |}.

(** Modelled from the spec: [sync_once] of the back end is missing from the
    sources. One batch: plan, then run every operation of the plan. *)
Definition sync_once (d : Direction) (deleteOrphans : bool)
    (fails : SyncOperation → bool) (clock : Z)
    (l r : gmap string FileEntry) : SyncRun :=
  foldl (runOp fails clock) (startSync l r) (plan d deleteOrphans l r).

(** Modelled from the spec: the sync engine of the back end is missing from
    the sources. The number of entries of the two sides: the paths of
    their union. *)
Definition totalEntries (l r : gmap string FileEntry) : nat :=
  size (dom l ∪ dom r).

(** Modelled from the spec: scenario A of section 8, one file on the local
    side only (the sync engine is missing from the sources). *)
Definition sampleEntry : FileEntry :=
  {| entry_size := 1; entry_fingerprint := "0cc175b9c0f1b6a831c399e269772661"; entry_mtime := 10 |}.

(** Modelled from the spec: the local side of scenario A (the sync engine
    is missing from the sources). *)
Definition sampleLocal : gmap string FileEntry := {[ "a.txt" := sampleEntry ]}.

(** Modelled from the spec: the Task Scheduler of the back end is missing
    from the sources. What a successful operation does to the entries of
    its own path, given as the entry on the local side and the entry on
    the remote side. *)
Definition effect (clock : Z) (op : SyncOperation) (l r : option FileEntry)
  : option FileEntry * option FileEntry :=
  match op with
  | Upload _ => (l, match l with Some e => Some (copied clock e) | None => r end)
  | Download _ => (match r with Some e => Some (copied clock e) | None => l end, r)
  | DeleteLocal _ => (None, r)
  | DeleteRemote _ => (l, None)
  | Skip _ => (l, r)
  end.

(** Modelled from the spec: the sync engine of the back end is missing from
    the sources. The entries of a path on the two sides of a run. *)
Definition entriesAt (st : SyncRun) (p : string) : option FileEntry * option FileEntry :=
  (side_local st !! p, side_remote st !! p).

(** Modelled from the spec: the emitter of the sync events is in the back
    end, missing from the sources. The completion event of a batch
    (sections 4.5 and 6): it carries the SyncResult of the batch, that is
    the four counts [uploaded], [downloaded], [deleted] and [skipped]; the
    further fields, which the spec leaves open (the dots of its
    [{..., uploaded, downloaded, deleted, skipped}]), are those of
    [rest]. *)
Definition completionEvent (rest : gmap string jsval) (st : SyncRun) : gmap string jsval :=
  <["uploaded" := JNum (Z.of_nat (uploaded st))]>
    (<["downloaded" := JNum (Z.of_nat (downloaded st))]>
       (<["deleted" := JNum (Z.of_nat (deleted st))]>
          (<["skipped" := JNum (Z.of_nat (skipped st))]> rest))).

(** The status of the task of item [k] of an upload batch, and the items
    of the batch whose task has status [running], by their index. *)
Definition taskStatusAt (items : list UploadItem) (st : TaskStore) (k : nat)
  : option TaskStatus :=
  items !! k ≫= fun item => task_status <$> findTask (task_id (task item)) (tasks st).

Definition runningTasks (items : list UploadItem) (st : TaskStore) : list nat :=
  filter (fun k => taskStatusAt items st k = Some StatusRunning) (seq 0 (length items)).

(** ** The error panel: [renderErrors] (main.ts, Helpers) *)

(** A bound of [array.slice(start, end)], an integer: a negative bound
    counts from the end of the array, and the bound is clamped to the
    array. *)
Definition sliceBound (len : nat) (i : Z) : nat :=
  Z.to_nat (if (i <? 0)%Z then Z.max (Z.of_nat len + i) 0 else Z.min i (Z.of_nat len)).

(** [array.slice(start, end)] *)
Definition slice {A} (start stop : Z) (l : list A) : list A :=
  let k := sliceBound (length l) start in
  let final := sliceBound (length l) stop in
  take (final - k) (drop k l).

(** [array.join("")] on an array of strings. *)
Definition joinEmpty (l : list string) : string := foldr String.append EmptyString l.

(** [errors.slice(errorScrollIndex, errorScrollIndex + 5)] *)
Definition visibleErrors (st : ErrorLog) : list string :=
  slice (errorScrollIndex st) (errorScrollIndex st + 5) (errors st).

(** The template of one item: a [div] of class [error-item] around the
    escaped message. *)
Definition errorItem (e : string) : string :=
  "<div class=" +:+ String dquote "error-item" +:+ String dquote ">"
  +:+ escapeHtml e +:+ "</div>".

(** The text [renderErrors] assigns to [errorListEl.innerHTML]. *)
Definition renderErrors (st : ErrorLog) : string :=
  joinEmpty (errorItem <$> visibleErrors st).

(** The number of times a character occurs in a string. *)
Fixpoint occurrences (c : ascii) (s : string) : nat :=
  match s with
  | EmptyString => 0
  | String a rest => (if Ascii.eqb a c then 1 else 0) + occurrences c rest
  end.

(** ** The task panel: clearing and progress (main.ts, Task management) *)

(** [tasks = tasks.filter(t => t.status !== "completed" && t.status !== "failed")];
    the counter is not reset. *)
Definition clearCompletedTasks (st : TaskStore) : TaskStore :=
  {| tasks := filter (fun t => task_status t ≠ StatusCompleted ∧ task_status t ≠ StatusFailed)
                     (tasks st);
     taskIdCounter := taskIdCounter st;
     statusLog := statusLog st |}.

(** [tasks.filter(t => t.status === status).length] *)
Definition countStatus (status : TaskStatus) (l : list Task) : nat :=
  length (filter (fun t => task_status t = status) l).

(** [const done = completed + failed] of [updateTaskProgress]. *)
Definition progressDone (st : TaskStore) : nat :=
  countStatus StatusCompleted (tasks st) + countStatus StatusFailed (tasks st).

(** The text [updateTaskProgress] writes: [`${done} / ${total} completed`]. *)
Definition taskProgressText (st : TaskStore) : string :=
  pretty (progressDone st) +:+ " / " +:+ pretty (length (tasks st)) +:+ " completed".

(** The calls that touch the task list. *)
Inductive TaskOp :=
| OpAddTask (type : TaskType) (fileName : string)
| OpAddTasksBatch (type : TaskType) (fileNames : list string)
| OpUpdateTaskStatus (taskId : string) (status : TaskStatus) (error : option string)
| OpClearCompletedTasks.

Definition applyTaskOp (op : TaskOp) (st : TaskStore) : TaskStore :=
  match op with
  | OpAddTask type fileName => (addTask type fileName st).2
  | OpAddTasksBatch type fileNames => (addTasksBatch type fileNames st).2
  | OpUpdateTaskStatus taskId status error => updateTaskStatus taskId status error st
  | OpClearCompletedTasks => clearCompletedTasks st
  end.

(** Calls are applied oldest first. *)
Definition runTaskOps (ops : list TaskOp) (st : TaskStore) : TaskStore :=
  foldl (fun s op => applyTaskOp op s) st ops.

(** The ids in use are those made from counter values 1 to [taskIdCounter],
    each at most once. *)
Definition idsInUse (st : TaskStore) : Prop :=
  NoDup (task_id <$> tasks st)
  ∧ ∀ t, t ∈ tasks st → ∃ n, 1 ≤ n ≤ taskIdCounter st ∧ task_id t = taskIdOf n.

(** A worker whose promise rejects exactly on the outcome [true], used to
    show a run of the pool that throws. *)
Definition rejectingWorker : Worker unit bool unit :=
  {| begin := fun _ a => a; finish := fun _ _ a => a; rejects := fun _ o => o |}.

(** The race awaited by the pool has been lost to a rejection: the
    function is about to throw, or has thrown. *)
Definition rejection (c : Control) : bool :=
  match c with
  | Resuming true | Thrown => true
  | _ => false
  end.

(** *** What else holds along a run of the pool *)

Section PoolEdgeInvariants.

Context {T O A : Type}.
Variable w : Worker T O A.
Variable concurrency : Z.

(** A rejection seen by the pool comes from a promise that has settled
    with an outcome on which the worker rejects. *)
Definition rejectionSeen (s : Pool T O A) : Prop :=
  rejection (control s) = true →
  ∃ k item o, promises s !! k = Some (item, Finalized o) ∧ rejects w item o = true.

(** While the function is suspended at its await, no free slot is left
    beside a waiting item. *)
Definition slotsUsed (s : Pool T O A) : Prop :=
  control s = Awaiting →
  ¬ ((Z.of_nat (length (running s)) < concurrency)%Z ∧ queue s ≠ []).

(** Once a finally callback has woken the function, and until the
    function resumes, the callback's promise has left [running]: a slot
    is free. *)
Definition slotFreed (s : Pool T O A) : Prop :=
  ∀ rejected, control s = Resuming rejected →
    (Z.of_nat (length (running s)) < Z.max 0 concurrency)%Z.

(** With a limit below 1 the pool stays at its three tests over the
    untouched arrays, or has returned at once from an empty list. *)
Definition idleAt (items : list T) (a : A) (s : Pool T O A) : Prop :=
  queue s = items ∧ running s = [] ∧ promises s = [] ∧ app s = a
  ∧ (synchronous (control s) = true ∨ control s = Returned ∧ items = []).

End PoolEdgeInvariants.

(** ** An upload batch beside the rest of the page (main.ts)

    The task list is one array shared by the whole page. While
    [runWithConcurrency] is suspended at its await, other code runs and
    touches it: the listener of the Clear completed button calls
    [clearCompletedTasks]; the delete, sync and keep-sync actions and
    other upload batches add tasks and update the tasks they have added
    ([updateTaskStatus(task.id, ...)] on the task returned by [addTask]
    or [addTasksBatch]). *)

Inductive UploadEvent :=
| OfPool (ev : Event UploadOutcome)   (* a step of the batch: its pool or one of its workers *)
| OfHandler (op : TaskOp).            (* a call made by other code of the page *)

(** Other code runs only while the function of the pool is suspended or
    has ended. The model lets it run at every such point, which covers
    every point at which the browser may run it. *)
Definition uploadStep (uw : Worker UploadItem UploadOutcome UploadApp) (concurrency : Z)
    (e : UploadEvent) (s : Pool UploadItem UploadOutcome UploadApp)
  : option (Pool UploadItem UploadOutcome UploadApp) :=
  match e with
  | OfPool ev => step uw concurrency ev s
  | OfHandler op =>
      if synchronous (control s) then None
      else Some {| queue := queue s; running := running s; promises := promises s;
                   control := control s;
                   app := {| store := applyTaskOp op (store (app s));
                             bridge := bridge (app s) |} |}
  end.

Fixpoint uploadRun (uw : Worker UploadItem UploadOutcome UploadApp) (concurrency : Z)
    (schedule : list UploadEvent) (s : Pool UploadItem UploadOutcome UploadApp)
  : option (Pool UploadItem UploadOutcome UploadApp) :=
  match schedule with
  | [] => Some s
  | e :: rest =>
      match uploadStep uw concurrency e s with
      | Some s' => uploadRun uw concurrency rest s'
      | None => None
      end
  end.

(** The calls made by other code, and the steps of the batch, in a
    schedule. *)
Definition handlerOps (schedule : list UploadEvent) : list TaskOp :=
  omap (fun e => match e with OfHandler op => Some op | OfPool _ => None end) schedule.

Definition poolEvents (schedule : list UploadEvent) : list (Event UploadOutcome) :=
  omap (fun e => match e with OfPool ev => Some ev | OfHandler _ => None end) schedule.

(** Other code updates only tasks it has added itself: its calls of
    [updateTaskStatus] name no task of the batch. *)
Definition foreignTo (items : list UploadItem) (e : UploadEvent) : Prop :=
  match e with
  | OfHandler (OpUpdateTaskStatus taskId _ _) =>
      taskId ∉ (fun item => task_id (task item)) <$> items
  | _ => True
  end.

(** The task of [item], as long as it is in the list, has the status that
    the state [p] of the item's promise says; it has left the list only
    in a terminal status. *)
Definition taskSettles (l : list Task) (item : UploadItem)
    (p : option (PromiseState UploadOutcome)) : Prop :=
  match findTask (task_id (task item)) l with
  | Some t => task_status t = expectedStatus p
  | None => isTerminal (expectedStatus p) = true
  end.

(** What holds of the task list in every state of a batch over [items],
    whatever other code does meanwhile. *)
Definition BatchInv (items : list UploadItem)
    (s : Pool UploadItem UploadOutcome UploadApp) : Prop :=
  idsInUse (store (app s))
  ∧ (∀ item, item ∈ items →
       ∃ n, 1 ≤ n ≤ taskIdCounter (store (app s)) ∧ task_id (task item) = taskIdOf n)
  ∧ ∀ k item, items !! k = Some item →
      taskSettles (tasks (store (app s))) item (promiseAt s k).

(** The batch of two uploads, with a click on Clear completed after the
    first upload has failed. *)
Definition sampleScheduleCleared : list UploadEvent :=
  (OfPool <$> take 6 sampleSchedule) ++ [OfHandler OpClearCompletedTasks]
  ++ (OfPool <$> drop 6 sampleSchedule).

(** ** Clearing the search box: [clearSearch] (main.ts, Search functions)

    [searchPrefix = ""; continuationToken = null; tokenHistory = [];
     loadObjects();]. The function does not call [clearTimeout], and
    [searchTimeout] keeps its value. The reload it starts is not made by a
    timer callback and is not entered in [loads]. *)
Definition clearSearch (st : SearchState) : SearchState :=
  {| now := now st;
     timers := timers st;
     nextTimerId := nextTimerId st;
     searchTimeout := searchTimeout st;
     searchPrefix := EmptyString;
     continuationToken := None;
     tokenHistory := [];
     loads := loads st |}.

(** A click on the clear button at time [t]: the timers due by [t] have
    run before the handler does. *)
Definition clearSearchAt (t : Z) (st : SearchState) : SearchState :=
  clearSearch (elapse t st).

(** ** The object listing: loading, paging, navigation (main.ts, api.ts) *)

(** The functions of api.ts used by the listing, under the name main.ts
    imports them by ([import * as api from "./api"]). *)
Module api.

(** [api.listObjects(profileId, bucket, prefix?, continuationToken?, maxKeys = 50)]:
    an argument left out or [undefined] is [None]; [prefix || null] and
    [continuationToken || null] turn a missing or empty string into
    [null]; [maxKeys] defaults to 50. *)
Definition listObjects (profileId bucket : string) (prefix continuationToken : option string)
    (maxKeys : option Z) : InvokeCall :=
  {| command := "list_objects";
     arguments := [("profileId", JStr profileId); ("bucket", JStr bucket);
                   ("prefix", if truthy prefix then jsOfOption prefix else JNull);
                   ("continuationToken",
                    if truthy continuationToken then jsOfOption continuationToken else JNull);
                   ("maxKeys", JNum (default 50%Z maxKeys))] |}.

(** [api.createFolder(profileId, bucket, key)] *)
Definition createFolder (profileId bucket key : string) : InvokeCall :=
  {| command := "create_folder";
     arguments := [("profileId", JStr profileId); ("bucket", JStr bucket);
                   ("key", JStr key)] |}.

End api.

(** [s.replace(/\/$/, "")] with [c] the slash: one [c] at the very end of
    the string is removed. *)
Fixpoint stripTrailing (c : ascii) (s : string) : string :=
  match s with
  | EmptyString => EmptyString
  | String a EmptyString => if Ascii.eqb a c then EmptyString else s
  | String a rest => String a (stripTrailing c rest)
  end.

(** [s.lastIndexOf(c)] for a one-character [c]; [None] stands for -1. *)
Fixpoint lastIndexOf (c : ascii) (s : string) : option nat :=
  match s with
  | EmptyString => None
  | String a rest =>
      match lastIndexOf c rest with
      | Some i => Some (S i)
      | None => if Ascii.eqb a c then Some 0 else None
      end
  end.

(** The prefix [goToParent] moves to:
    [const trimmed = currentPrefix.replace(/\/$/, "");
     const lastSlash = trimmed.lastIndexOf("/");]
    then the empty prefix when [lastSlash === -1], and
    [trimmed.substring(0, lastSlash + 1)] otherwise. *)
Definition parentPrefix (currentPrefix : string) : string :=
  let trimmed := stripTrailing "/" currentPrefix in
  match lastIndexOf "/" trimmed with
  | None => EmptyString
  | Some lastSlash => String.substring 0 (lastSlash + 1) trimmed
  end.

(** The two alternatives of [/^\/+|\/+$/g] with [c] the slash: the run of
    [c] at the start of the string, and the run of [c] at its end. *)
Fixpoint dropLeading (c : ascii) (s : string) : string :=
  match s with
  | EmptyString => EmptyString
  | String a rest => if Ascii.eqb a c then dropLeading c rest else s
  end.

Fixpoint dropTrailing (c : ascii) (s : string) : string :=
  match s with
  | EmptyString => EmptyString
  | String a rest =>
      match dropTrailing c rest with
      | EmptyString => if Ascii.eqb a c then EmptyString else String a EmptyString
      | kept => String a kept
      end
  end.

(** [value.replace(/^\/+|\/+$/g, '')]: the regular expression is tried
    from left to right, so the leading run goes first (the whole string
    when it holds nothing but slashes), then the trailing run. *)
Definition trimSlashes (value : string) : string :=
  dropTrailing "/" (dropLeading "/" value).

(** A string made of the character [c] only. *)
Fixpoint allChar (c : ascii) (s : string) : bool :=
  match s with
  | EmptyString => true
  | String a rest => Ascii.eqb a c && allChar c rest
  end.

(** The last character of a string is [c]. *)
Fixpoint endsWith (c : ascii) (s : string) : bool :=
  match s with
  | EmptyString => false
  | String a EmptyString => Ascii.eqb a c
  | String _ rest => endsWith c rest
  end.

(** The first character of a string is [c]. *)
Definition startsWith (c : ascii) (s : string) : bool :=
  match s with
  | EmptyString => false
  | String a _ => Ascii.eqb a c
  end.

(** [Set.prototype.add] and [Set.prototype.delete] on a set kept in
    insertion order, the order [Array.from] reads it in. *)
Definition setAdd (k : string) (l : list string) : list string :=
  if decide (k ∈ l) then l else l ++ [k].

Definition setDelete (k : string) (l : list string) : list string :=
  filter (fun x => x ≠ k) l.

(** The state of the listing and the functions of main.ts that act on it.
    Rendering ([renderObjects], [updatePagination], the grid items and
    the thumbnails) is left out. An async function that awaits the back
    end is modelled in two parts: what it does up to its [await], with
    the call it makes, and what it does when the call has settled; any
    other handler may run in between. *)
Module Listing.

(** [interface ObjectInfo] (types.ts) *)
Record ObjectInfo := {
  key : string;
  size : Z;
  last_modified : option string;
  etag : option string;
  is_folder : bool
}.

(** [interface ListObjectsResult] (types.ts); its field [objects] is
    [result_objects] here. *)
Record ListObjectsResult := {
  result_objects : list ObjectInfo;
  common_prefixes : list string;
  next_continuation_token : option string;
  is_truncated : bool
}.

(** The variables of main.ts that the listing uses. *)
Record State := {
  currentProfileId : option string;
  currentBucket : option string;
  currentPrefix : string;
  objects : list ObjectInfo;
  commonPrefixes : list string;
  continuationToken : option string;
  tokenHistory : list string;
  hasMoreData : bool;
  isLoading : bool;
  isLoadingMore : bool;
  searchPrefix : string;
  selectedKeys : list string;
  errorLog : ErrorLog
}.

(** Assignments to groups of variables. *)
Definition setLoading (loading more : bool) (st : State) : State :=
  {| currentProfileId := currentProfileId st; currentBucket := currentBucket st;
     currentPrefix := currentPrefix st; objects := objects st;
     commonPrefixes := commonPrefixes st; continuationToken := continuationToken st;
     tokenHistory := tokenHistory st; hasMoreData := hasMoreData st;
     isLoading := loading; isLoadingMore := more;
     searchPrefix := searchPrefix st; selectedKeys := selectedKeys st;
     errorLog := errorLog st |}.

Definition setPaging (token : option string) (history : list string) (st : State) : State :=
  {| currentProfileId := currentProfileId st; currentBucket := currentBucket st;
     currentPrefix := currentPrefix st; objects := objects st;
     commonPrefixes := commonPrefixes st; continuationToken := token;
     tokenHistory := history; hasMoreData := hasMoreData st;
     isLoading := isLoading st; isLoadingMore := isLoadingMore st;
     searchPrefix := searchPrefix st; selectedKeys := selectedKeys st;
     errorLog := errorLog st |}.

Definition setPrefixes (prefix search : string) (st : State) : State :=
  {| currentProfileId := currentProfileId st; currentBucket := currentBucket st;
     currentPrefix := prefix; objects := objects st;
     commonPrefixes := commonPrefixes st; continuationToken := continuationToken st;
     tokenHistory := tokenHistory st; hasMoreData := hasMoreData st;
     isLoading := isLoading st; isLoadingMore := isLoadingMore st;
     searchPrefix := search; selectedKeys := selectedKeys st;
     errorLog := errorLog st |}.

Definition setSelectedKeys (keys : list string) (st : State) : State :=
  {| currentProfileId := currentProfileId st; currentBucket := currentBucket st;
     currentPrefix := currentPrefix st; objects := objects st;
     commonPrefixes := commonPrefixes st; continuationToken := continuationToken st;
     tokenHistory := tokenHistory st; hasMoreData := hasMoreData st;
     isLoading := isLoading st; isLoadingMore := isLoadingMore st;
     searchPrefix := searchPrefix st; selectedKeys := keys;
     errorLog := errorLog st |}.

Definition setErrorLog (log : ErrorLog) (st : State) : State :=
  {| currentProfileId := currentProfileId st; currentBucket := currentBucket st;
     currentPrefix := currentPrefix st; objects := objects st;
     commonPrefixes := commonPrefixes st; continuationToken := continuationToken st;
     tokenHistory := tokenHistory st; hasMoreData := hasMoreData st;
     isLoading := isLoading st; isLoadingMore := isLoadingMore st;
     searchPrefix := searchPrefix st; selectedKeys := selectedKeys st;
     errorLog := log |}.

(** [objects = result.objects; commonPrefixes = result.common_prefixes;
     continuationToken = result.next_continuation_token || null;
     hasMoreData = result.is_truncated;] *)
Definition setResult (result : ListObjectsResult) (st : State) : State :=
  {| currentProfileId := currentProfileId st; currentBucket := currentBucket st;
     currentPrefix := currentPrefix st; objects := result_objects result;
     commonPrefixes := common_prefixes result;
     continuationToken :=
       if truthy (next_continuation_token result) then next_continuation_token result
       else None;
     tokenHistory := tokenHistory st; hasMoreData := is_truncated result;
     isLoading := isLoading st; isLoadingMore := isLoadingMore st;
     searchPrefix := searchPrefix st; selectedKeys := selectedKeys st;
     errorLog := errorLog st |}.

(** [searchPrefix ? (currentPrefix + searchPrefix) : (currentPrefix || undefined)] *)
Definition effectivePrefix (st : State) : option string :=
  if truthy (Some (searchPrefix st)) then Some (currentPrefix st +:+ searchPrefix st)
  else if truthy (Some (currentPrefix st)) then Some (currentPrefix st)
  else None.

(** [loadObjects(append)] up to its await: nothing without a profile and
    a bucket; otherwise [setLoading(true)] unless appending, and the call
    of [api.listObjects] with [continuationToken || undefined]. *)
Definition loadObjects (append : bool) (st : State) : option InvokeCall * State :=
  match currentProfileId st, currentBucket st with
  | Some (String _ _ as profileId), Some (String _ _ as bucket) =>
      (Some (api.listObjects profileId bucket (effectivePrefix st)
               (if truthy (continuationToken st) then continuationToken st else None)
               None),
       if append then st else setLoading true (isLoadingMore st) st)
  | _, _ => (None, st)
  end.

(** [loadObjects] from the settling of its call on: the result is stored,
    or the failure is reported by [showError]; then the [finally] block,
    [setLoading(false); isLoadingMore = false]. A failure is given by the
    text the thrown value converts to. *)
Definition loadObjectsSettled (outcome : string + ListObjectsResult) (st : State) : State :=
  setLoading false false
    match outcome with
    | inr result => setResult result st
    | inl err => setErrorLog (showError ("Failed to load objects: " +:+ err) (errorLog st)) st
    end.

(** [selectedKeys.clear()] *)
Definition clearSelection (st : State) : State := setSelectedKeys [] st.

(** [nextPage()]: nothing without a continuation token; otherwise
    [tokenHistory.push(continuationToken); await loadObjects();] *)
Definition nextPage (st : State) : option InvokeCall * State :=
  match continuationToken st with
  | Some (String _ _ as token) =>
      loadObjects false (setPaging (continuationToken st) (tokenHistory st ++ [token]) st)
  | _ => (None, st)
  end.


(** [navigateToPrefix(prefix)] *)
Definition navigateToPrefix (prefix : string) (st : State) : option InvokeCall * State :=
  loadObjects false (clearSelection (setPrefixes prefix EmptyString (setPaging None [] st))).

(** [goToParent()]: nothing at the root; the search prefix is kept. *)
Definition goToParent (st : State) : option InvokeCall * State :=
  match currentPrefix st with
  | EmptyString => (None, st)
  | _ =>
      loadObjects false
        (clearSelection
           (setPaging None []
              (setPrefixes (parentPrefix (currentPrefix st)) (searchPrefix st) st)))
  end.


(** [createFolder()] up to its await, with [value] the text of the name
    field. *)
Definition createFolder (value : string) (st : State) : option InvokeCall * State :=
  match currentProfileId st, currentBucket st, value with
  | Some (String _ _ as profileId), Some (String _ _ as bucket), String _ _ =>
      match trimSlashes value with
      | EmptyString =>
          (None, setErrorLog (showError "Folder name cannot be empty" (errorLog st)) st)
      | folderName =>
          let fullKey :=
            if truthy (Some (currentPrefix st)) then currentPrefix st +:+ folderName
            else folderName in
          (Some (api.createFolder profileId bucket fullKey), st)
      end
  | _, _, _ => (None, st)
  end.

(** [objects.filter(o => !o.is_folder)] *)
Definition selectableItems (st : State) : list ObjectInfo :=
  filter (fun o => is_folder o = false) (objects st).

(** [toggleObjectSelection(key, selected)] *)
Definition toggleObjectSelection (k : string) (selected : bool) (st : State) : State :=
  setSelectedKeys (if selected then setAdd k (selectedKeys st)
                   else setDelete k (selectedKeys st)) st.

(** [selectAllObjects(selected)]: each selectable item is added to, or
    deleted from, the set, in the order of the listing. *)
Definition selectAllObjects (selected : bool) (st : State) : State :=
  setSelectedKeys
    (foldl (fun keys o => if selected then setAdd (key o) keys else setDelete (key o) keys)
           (selectedKeys st) (selectableItems st)) st.

(** [updateSelectAllCheckbox()]: the values it assigns to the [checked]
    and [indeterminate] properties of the checkbox. *)
Definition updateSelectAllCheckbox (st : State) : bool * bool :=
  if length (selectableItems st) =? 0 then (false, false)
  else
    let selectedCount :=
      length (filter (fun o => key o ∈ selectedKeys st) (selectableItems st)) in
    (selectedCount =? length (selectableItems st),
     (0 <? selectedCount) && (selectedCount <? length (selectableItems st))).

(** Keys of [localStorage], an object mapping strings to strings. *)
Definition STORAGE_KEY_PROFILE : string := "s3gui_last_profile".
Definition STORAGE_KEY_BUCKET : string := "s3gui_last_bucket".

(** [saveLastSelection()]: each of the two items is written only when its
    variable is set. *)
Definition saveLastSelection (st : State) (storage : gmap string string)
  : gmap string string :=
  let withProfile :=
    match currentProfileId st with
    | Some (String _ _ as profileId) => <[STORAGE_KEY_PROFILE := profileId]> storage
    | _ => storage
    end in
  match currentBucket st with
  | Some (String _ _ as bucket) => <[STORAGE_KEY_BUCKET := bucket]> withProfile
  | _ => withProfile
  end.

(** [getLastSelection()]: [getItem] gives [null] for a missing item. *)
Definition getLastSelection (storage : gmap string string) : option string * option string :=
  (storage !! STORAGE_KEY_PROFILE, storage !! STORAGE_KEY_BUCKET).

(** [selectProfile(id)] up to its [await loadBuckets()]. *)
Definition selectProfile (id : string) (st : State) (storage : gmap string string)
  : State * gmap string string :=
  let st' :=
    {| currentProfileId := Some id; currentBucket := None;
       currentPrefix := EmptyString; objects := []; commonPrefixes := [];
       continuationToken := None; tokenHistory := [];
       hasMoreData := hasMoreData st; isLoading := isLoading st;
       isLoadingMore := isLoadingMore st; searchPrefix := searchPrefix st;
       selectedKeys := selectedKeys st; errorLog := errorLog st |} in
  (st', saveLastSelection st' storage).

(** [selectBucket(name)] up to the await of its [loadObjects()]. *)
Definition selectBucket (name : string) (st : State) (storage : gmap string string)
  : option InvokeCall * State * gmap string string :=
  let st' :=
    {| currentProfileId := currentProfileId st; currentBucket := Some name;
       currentPrefix := EmptyString; objects := objects st;
       commonPrefixes := commonPrefixes st;
       continuationToken := None; tokenHistory := [];
       hasMoreData := hasMoreData st; isLoading := isLoading st;
       isLoadingMore := isLoadingMore st; searchPrefix := EmptyString;
       selectedKeys := []; errorLog := errorLog st |} in
  (loadObjects false st', saveLastSelection st' storage).

(** What [restoreLastSelection()] selects: the stored profile when
    [profiles] has one with that id ([profileIds] are the ids of
    [profiles]), and then the stored bucket when [buckets], as it is
    after [selectProfile] has loaded it, has one with that name
    ([bucketNames]). The first component is the argument of the call of
    [selectProfile], the second that of [selectBucket]; [None] when the
    call is not made. *)
Definition restoreLastSelection (storage : gmap string string)
    (profileIds bucketNames : list string) : option string * option string :=
  match getLastSelection storage with
  | (Some (String _ _ as profileId), bucket) =>
      if bool_decide (profileId ∈ profileIds) then
        (Some profileId,
         match bucket with
         | Some (String _ _ as name) =>
             if bool_decide (name ∈ bucketNames) then Some name else None
         | _ => None
         end)
      else (None, None)
  | _ => (None, None)
  end.

End Listing.

(** The continuation token and the prefix that a call of
    [api.listObjects] carries (if a call was made). *)
Definition requestedToken (c : option InvokeCall) : option jsval :=
  c ≫= argument "continuationToken".

Definition requestedPrefix (c : option InvokeCall) : option jsval :=
  c ≫= argument "prefix".

(** [x || null] for a string [x] sent over the bridge. *)
Definition orNull (x : string) : jsval :=
  match x with
  | EmptyString => JNull
  | _ => JStr x
  end.

(** A profile and a bucket are selected. *)
Definition ready (st : Listing.State) : Prop :=
  truthy (Listing.currentProfileId st) = true ∧ truthy (Listing.currentBucket st) = true.

(** A listing state with a profile and a bucket selected, at the root. *)
Definition sampleListing : Listing.State :=
  {| Listing.currentProfileId := Some "p1"; Listing.currentBucket := Some "photos";
     Listing.currentPrefix := EmptyString; Listing.objects := [];
     Listing.commonPrefixes := []; Listing.continuationToken := None;
     Listing.tokenHistory := []; Listing.hasMoreData := false;
     Listing.isLoading := false; Listing.isLoadingMore := false;
     Listing.searchPrefix := EmptyString; Listing.selectedKeys := [];
     Listing.errorLog := initialErrorLog |}.

(** ** Drag and drop: [setupDragAndDrop] (main.ts)

    [dragCounter] and the [drag-over] class of the main content, which the
    page starts without. [dropped] is not in the source: it records the
    calls of [uploadDroppedFiles], oldest first. *)
Record DragState := {
  dragCounter : Z;
  dragOverClass : bool;
  dropped : list (list string)
}.

Definition initialDragState : DragState :=
  {| dragCounter := 0; dragOverClass := false; dropped := [] |}.

(** The events of [onDragDropEvent] by their [payload.type]; [paths] is
    [None] when the payload has no paths. A type other than [over],
    [leave] and [drop] falls through the three tests. *)
Inductive DragDropEvent :=
| DragOver
| DragLeave
| DragDrop (paths : option (list string))
| DragOther.

(** The callback passed to [appWindow.onDragDropEvent]. *)
Definition onDragDropEvent (event : DragDropEvent) (st : DragState) : DragState :=
  match event with
  | DragOver =>
      {| dragCounter := dragCounter st + 1; dragOverClass := true; dropped := dropped st |}
  | DragLeave =>
      if (dragCounter st - 1 <=? 0)%Z
      then {| dragCounter := 0; dragOverClass := false; dropped := dropped st |}
      else {| dragCounter := dragCounter st - 1; dragOverClass := dragOverClass st;
              dropped := dropped st |}
  | DragDrop paths =>
      {| dragCounter := 0; dragOverClass := false;
         dropped := match paths with
                    | Some ((_ :: _) as filePaths) => dropped st ++ [filePaths]
                    | _ => dropped st
                    end |}
  | DragOther => st
  end.

(** Events are handled oldest first. *)
Definition runDragDrop (events : list DragDropEvent) (st : DragState) : DragState :=
  foldl (fun s event => onDragDropEvent event s) st events.

(** The non-empty path lists of the drop events of a list. *)
Definition dropsOf (events : list DragDropEvent) : list (list string) :=
  omap (fun event => match event with
                     | DragDrop (Some ((_ :: _) as filePaths)) => Some filePaths
                     | _ => None
                     end) events.

(** ** Rendering the task list once per frame: [scheduleRender] (main.ts)

    [renderScheduled], with the callbacks handed to
    [requestAnimationFrame] and not yet run ([frameCallbacks]: they are
    all the same closure, so their number is kept). [renders] is not in
    the source: it counts the calls of [renderTasks] made by these
    callbacks. *)
Record RenderState := {
  renderScheduled : bool;
  frameCallbacks : nat;
  renders : nat
}.

Definition initialRenderState : RenderState :=
  {| renderScheduled := false; frameCallbacks := 0; renders := 0 |}.

(** [if (!renderScheduled) { renderScheduled = true;
      requestAnimationFrame(() => {...}); }] *)
Definition scheduleRender (st : RenderState) : RenderState :=
  if renderScheduled st then st
  else {| renderScheduled := true; frameCallbacks := S (frameCallbacks st);
          renders := renders st |}.

(** The callback: [renderScheduled = false; renderTasks();] *)
Definition frameCallback (st : RenderState) : RenderState :=
  {| renderScheduled := false; frameCallbacks := frameCallbacks st;
     renders := S (renders st) |}.

(** An animation frame: the browser runs the callbacks registered before
    the frame, each once. *)
Definition animationFrame (st : RenderState) : RenderState :=
  Nat.iter (frameCallbacks st) frameCallback
    {| renderScheduled := renderScheduled st; frameCallbacks := 0; renders := renders st |}.

Inductive RenderEvent := CallScheduleRender | AnimationFrame.

Definition applyRenderEvent (ev : RenderEvent) (st : RenderState) : RenderState :=
  match ev with
  | CallScheduleRender => scheduleRender st
  | AnimationFrame => animationFrame st
  end.

Definition runRenderEvents (evs : list RenderEvent) (st : RenderState) : RenderState :=
  foldl (fun s ev => applyRenderEvent ev s) st evs.

(** ** File names of paths *)

(** A character of the class [[/\\]]. *)
Definition isSeparator (a : ascii) : bool := Ascii.eqb a "/" || Ascii.eqb a backslash.

(** No character of the string is a separator. *)
Fixpoint noSeparator (s : string) : bool :=
  match s with
  | EmptyString => true
  | String a rest => negb (isSeparator a) && noSeparator rest
  end.

(** The last character of the string is a separator. *)
Fixpoint endsWithSeparator (s : string) : bool :=
  match s with
  | EmptyString => false
  | String a EmptyString => isSeparator a
  | String _ rest => endsWithSeparator rest
  end.

Global Instance RenderEvent_eq_dec : EqDecision RenderEvent.
Proof. solve_decision. Defined.

(** The number of events of one kind in a list. *)
Definition countEvents (ev : RenderEvent) (evs : list RenderEvent) : nat :=
  length (filter (fun e => e = ev) evs).

(** ** Previewable files: [isMediaFile], [isVideoFile] (main.ts) *)

(** [toLowerCase] on one code unit below 256: the capital letters A to Z
    and the capital letters of Latin-1 (192 to 222, without the
    multiplication sign 215) move 32 code units up; nothing else
    changes. *)
Definition toLowerCaseChar (a : ascii) : ascii :=
  let n := nat_of_ascii a in
  if (65 <=? n) && (n <=? 90) || (192 <=? n) && (n <=? 222) && negb (n =? 215)
  then ascii_of_nat (n + 32)
  else a.

Fixpoint toLowerCase (s : string) : string :=
  match s with
  | EmptyString => EmptyString
  | String a rest => String (toLowerCaseChar a) (toLowerCase rest)
  end.

(** [s.split(c).pop()] for a one-character separator [c]: the text after
    the last [c], the whole string when it has none ([acc] is the piece
    read so far). *)
Fixpoint lastPiece (c : ascii) (acc : string) (s : string) : string :=
  match s with
  | EmptyString => acc
  | String a rest =>
      if Ascii.eqb a c then lastPiece c EmptyString rest
      else lastPiece c (acc +:+ String a EmptyString) rest
  end.

(** [key.toLowerCase().split(".").pop()] *)
Definition extensionOf (key : string) : string :=
  lastPiece "." EmptyString (toLowerCase key).

Definition mediaExtensions : list string :=
  ["jpg"; "jpeg"; "png"; "gif"; "webp"; "svg"; "mp4"; "webm"; "ogg"].

Definition videoExtensions : list string := ["mp4"; "webm"; "ogg"; "mov"; "avi"].

(** [[...].includes(ext || "")] *)
Definition isMediaFile (key : string) : bool :=
  bool_decide (extensionOf key ∈ mediaExtensions).

Definition isVideoFile (key : string) : bool :=
  bool_decide (extensionOf key ∈ videoExtensions).

(* ================================================================== *)
(** * Theorems *)
(* ================================================================== *)

(** ** Strings *)

Lemma str_app_cons a s t : String a s +:+ t = String a (s +:+ t).
Proof. reflexivity. Qed.

Lemma str_app_nil_l s : EmptyString +:+ s = s.
Proof. reflexivity. Qed.

Lemma str_app_nil_r s : s +:+ EmptyString = s.
Proof. induction s as [|a s IH]; [done|]. by rewrite str_app_cons, IH. Qed.

Lemma str_app_assoc s t u : (s +:+ t) +:+ u = s +:+ (t +:+ u).
Proof. induction s as [|a s IH]; [done|]. by rewrite !str_app_cons, IH. Qed.

(** ** escapeHtml *)

Lemma replaceAll_app c r s1 s2 :
  replaceAll c r (s1 +:+ s2) = replaceAll c r s1 +:+ replaceAll c r s2.
Proof.
  induction s1 as [|a s1 IH]; [done|].
  rewrite str_app_cons. simpl. rewrite IH.
  destruct (Ascii.eqb a c); [|done].
  by rewrite str_app_assoc.
Qed.

Lemma escapeHtml_app s1 s2 :
  escapeHtml (s1 +:+ s2) = escapeHtml s1 +:+ escapeHtml s2.
Proof. unfold escapeHtml. by rewrite !replaceAll_app. Qed.

Lemma escapeHtml_char a : escapeHtml (String a EmptyString) = escapeChar a.
Proof.
  unfold escapeHtml, escapeChar. simpl.
  destruct (Ascii.eqb a "&") eqn:E1; [done|]. simpl.
  destruct (Ascii.eqb a "<") eqn:E2; [done|]. simpl.
  destruct (Ascii.eqb a ">") eqn:E3; [done|]. simpl.
  destruct (Ascii.eqb a dquote) eqn:E4; done.
Qed.

Lemma escapeHtml_escapeEach str : escapeHtml str = escapeEach str.
Proof.
  induction str as [|a str IH]; [done|].
  change (String a str) with (String a EmptyString +:+ str).
  rewrite escapeHtml_app, escapeHtml_char, IH. done.
Qed.

(** A character occurs in a string. *)
Lemma chars_app s t :
  String.list_ascii_of_string (s +:+ t)
  = String.list_ascii_of_string s ++ String.list_ascii_of_string t.
Proof. induction s as [|a s IH]; [done|]. rewrite str_app_cons. simpl. by rewrite IH. Qed.

Lemma escapeChar_no_markup a c :
  c ∈ ["<"; ">"; dquote]%char →
  c ∉ String.list_ascii_of_string (escapeChar a).
Proof.
  rewrite !elem_of_cons, elem_of_nil. intros Hc. unfold escapeChar.
  destruct (Ascii.eqb_spec a "&");
    [destruct Hc as [->|[->|[->|[]]]]; by apply (bool_decide_unpack _)|].
  destruct (Ascii.eqb_spec a "<");
    [destruct Hc as [->|[->|[->|[]]]]; by apply (bool_decide_unpack _)|].
  destruct (Ascii.eqb_spec a ">");
    [destruct Hc as [->|[->|[->|[]]]]; by apply (bool_decide_unpack _)|].
  destruct (Ascii.eqb_spec a dquote);
    [destruct Hc as [->|[->|[->|[]]]]; by apply (bool_decide_unpack _)|].
  simpl. rewrite list_elem_of_singleton. intros ->. tauto.
Qed.

Lemma amp_starts_entity_nil : amp_starts_entity EmptyString.
Proof. intros [|a pre] post H; discriminate H. Qed.

Lemma amp_starts_entity_other a s :
  a ≠ "&"%char → amp_starts_entity s → amp_starts_entity (String a s).
Proof.
  intros Ha Hs [|b pre] post H.
  - rewrite str_app_nil_l in H. congruence.
  - rewrite str_app_cons in H. injection H as _ H. by eapply Hs.
Qed.

Lemma amp_starts_entity_amp s :
  (∃ e, e ∈ entity_tails ∧ String.prefix e s = true) →
  amp_starts_entity s → amp_starts_entity (String "&" s).
Proof.
  intros He Hs [|b pre] post H.
  - rewrite str_app_nil_l in H. by injection H as <-.
  - rewrite str_app_cons in H. injection H as _ H. by eapply Hs.
Qed.

Lemma prefix_app e s : String.prefix e (e +:+ s) = true.
Proof.
  induction e as [|a e IH]; [by destruct s|].
  rewrite str_app_cons. simpl. by destruct (ascii_dec a a).
Qed.

Lemma amp_starts_entity_escapeChar a s :
  amp_starts_entity s → amp_starts_entity (escapeChar a +:+ s).
Proof.
  intros Hs. unfold escapeChar.
  destruct (Ascii.eqb_spec a "&") as [|N1].
  { apply amp_starts_entity_amp.
    - exists "amp;". split; [set_solver|]. apply (prefix_app "amp;").
    - by repeat (apply amp_starts_entity_other; [done|]). }
  destruct (Ascii.eqb_spec a "<") as [|N2].
  { apply amp_starts_entity_amp.
    - exists "lt;". split; [set_solver|]. apply (prefix_app "lt;").
    - by repeat (apply amp_starts_entity_other; [done|]). }
  destruct (Ascii.eqb_spec a ">") as [|N3].
  { apply amp_starts_entity_amp.
    - exists "gt;". split; [set_solver|]. apply (prefix_app "gt;").
    - by repeat (apply amp_starts_entity_other; [done|]). }
  destruct (Ascii.eqb_spec a dquote) as [|N4].
  { apply amp_starts_entity_amp.
    - exists "quot;". split; [set_solver|]. apply (prefix_app "quot;").
    - by repeat (apply amp_starts_entity_other; [done|]). }
  by apply amp_starts_entity_other.
Qed.

(** C9. For every input string, [escapeHtml] returns a string in which the
    characters [<], [>] and the double quote do not occur, and in which
    every ampersand is the first character of one of the entities
    [&amp;], [&lt;], [&gt;], [&quot;]: whatever stands right after an
    ampersand begins with [amp;], [lt;], [gt;] or [quot;]. The ampersand
    pass runs first, so the entities written by the later passes are not
    escaped again. *)
Theorem escapeHtml_no_markup (str : string) :
  (∀ c, c ∈ ["<"; ">"; dquote]%char →
        c ∉ String.list_ascii_of_string (escapeHtml str))
  ∧ (∀ pre post, escapeHtml str = pre +:+ String "&" post →
        ∃ e, e ∈ entity_tails ∧ String.prefix e post = true).
Proof.
  rewrite escapeHtml_escapeEach. split.
  - intros c Hc. induction str as [|a str IH]; simpl.
    + set_solver.
    + rewrite chars_app, elem_of_app.
      intros [H|H]; [by eapply escapeChar_no_markup|done].
  - change (amp_starts_entity (escapeEach str)).
    induction str as [|a str IH]; simpl.
    + apply amp_starts_entity_nil.
    + by apply amp_starts_entity_escapeChar.
Qed.

(** The order of the passes matters: with the ampersand pass last, the
    entity written for [<] would be escaped a second time. *)
Example escapeHtml_lt : escapeHtml "a<b&c" = "a&lt;b&amp;c".
Proof. reflexivity. Qed.

Example ampersand_last_differs :
  replaceAll "&" "&amp;" (replaceAll "<" "&lt;" "a<b") = "a&amp;lt;b".
Proof. reflexivity. Qed.

(** ** The error log *)

Lemma length_removelast {A} (l : list A) : length (removelast l) = pred (length l).
Proof.
  induction l as [|x l IH]; [done|].
  destruct l as [|y l]; [done|].
  change (S (length (removelast (y :: l))) = S (length l)).
  by rewrite IH.
Qed.

Lemma showError_errors message st :
  errors (showError message st)
  = if decide (length (errors st) < 50) then message :: errors st
    else message :: removelast (errors st).
Proof.
  unfold showError; simpl.
  destruct (Nat.ltb_spec 50 (S (length (errors st)))); case_decide; try lia; [|done].
  destruct (errors st); [simpl in *; lia|done].
Qed.

Lemma showError_bound message st :
  length (errors st) ≤ 50 → length (errors (showError message st)) ≤ 50.
Proof.
  intros H. rewrite showError_errors. case_decide; simpl; [lia|].
  rewrite length_removelast. lia.
Qed.

Lemma applyErrorOp_bound op st :
  length (errors st) ≤ 50 → length (errors (applyErrorOp op st)) ≤ 50.
Proof.
  destruct op; simpl; [by apply showError_bound|lia|done].
Qed.

Lemma runErrorOps_bound ops st :
  length (errors st) ≤ 50 → length (errors (runErrorOps ops st)) ≤ 50.
Proof.
  revert st. induction ops as [|op ops IH]; intros st H; [done|].
  apply IH. by apply applyErrorOp_bound.
Qed.

(** C8. After every sequence of [showError], [clearErrors] (and
    [scrollErrors]) calls, started from the empty log, the log holds at most
    50 messages; a further [showError] puts its message at index 0, keeps
    the bound, keeps every older message while there is room, and drops the
    oldest (last) entry when the log already holds 50. *)
Theorem errors_bounded_newest_first (ops : list ErrorOp) (message : string) :
  let st := runErrorOps ops initialErrorLog in
  length (errors st) ≤ 50
  ∧ errors (showError message st) !! 0 = Some message
  ∧ length (errors (showError message st)) ≤ 50
  ∧ (length (errors st) < 50 →
       errors (showError message st) = message :: errors st)
  ∧ (length (errors st) = 50 →
       errors (showError message st) = message :: removelast (errors st)).
Proof.
  intros st.
  assert (length (errors st) ≤ 50) as Hb.
  { apply runErrorOps_bound. simpl. lia. }
  split; [done|]. rewrite showError_errors.
  split; [by case_decide|].
  split; [rewrite <- showError_errors; by apply showError_bound|].
  split; intros H; case_decide; (done || lia).
Qed.

(** Fifty-one messages: the first one shown is gone, the last one shown is
    at index 0. *)
Example errors_overflow :
  let st := runErrorOps (OpShowError <$> (pretty <$> seq 0 51)) initialErrorLog in
  length (errors st) = 50 ∧ errors st !! 0 = Some "50" ∧ errors st !! 49 = Some "1".
Proof. vm_compute. done. Qed.

(** ** The one-shot Sync action *)

(** C7. For every selection (profile, bucket, prefix), every answer of the
    folder dialog and every state of the task list and error log, the Sync
    action calls the bridge exactly when a profile and a bucket are
    selected and a folder was chosen, and the call it makes is
    [sync_folder] for the current profile, bucket and prefix and the
    chosen folder, with direction [local_to_remote] and no other
    direction. *)
Theorem syncWithLocal_local_to_remote
    (sel : Selection) (folder : option string) (later : Selection)
    (ts : TaskStore) (log : ErrorLog) :
  let call := (syncWithLocal sel folder later ts log).1.1 in
  (is_Some call ↔
     truthy (currentProfileId sel) && truthy (currentBucket sel) && truthy folder = true)
  ∧ (∀ c, call = Some c →
       command c = "sync_folder"
       ∧ argument "profileId" c = Some (jsOfOption (currentProfileId later))
       ∧ argument "bucket" c = Some (jsOfOption (currentBucket later))
       ∧ argument "prefix" c = Some (JStr (currentPrefix later))
       ∧ argument "localPath" c = Some (jsOfOption folder)
       ∧ argument "direction" c = Some (JStr "local_to_remote")
       ∧ "local_to_remote" ∈ SyncDirection
       ∧ ∀ direction, argument "direction" c = Some (JStr direction) →
           direction = "local_to_remote").
Proof.
  unfold syncWithLocal.
  destruct (truthy (currentProfileId sel)), (truthy (currentBucket sel)); simpl;
    try (split; [split; [by intros [? [=]]|done]|done]).
  destruct folder as [[|a path]|]; simpl;
    try (split; [split; [by intros [? [=]]|done]|done]).
  split; [split; [done|by eexists]|].
  intros c [= <-]. repeat split; try reflexivity.
  - by apply (bool_decide_unpack _).
  - intros direction H. by injection H.
Qed.

Example syncWithLocal_sample :
  (syncWithLocal
     {| currentProfileId := Some "p1"; currentBucket := Some "photos";
        currentPrefix := "2024/" |}
     (Some "/home/me/pics")
     {| currentProfileId := Some "p1"; currentBucket := Some "photos";
        currentPrefix := "2024/" |}
     {| tasks := []; taskIdCounter := 0; statusLog := [] |}
     initialErrorLog).1.1
  = Some (syncFolder (JStr "p1") (JStr "photos") "2024/" "/home/me/pics" "local_to_remote").
Proof. reflexivity. Qed.

(** ** The completion event *)

(** What the listener of the front end shows for an event with exactly
    the fields that types.ts declares. *)
Example completed_message_sample :
  syncCompletedMessage sampleCompleted = Some "Sync completed: 3 uploaded, 0 downloaded".
Proof. by vm_compute. Qed.

(** ** Search debounce *)

Lemma first_input_armed st t v :
  timers st = [] → 0 < nextTimerId st → (now st ≤ t)%Z →
  armed (inputAt st (t, v)) t v (loads st).
Proof.
  intros Ht Hid Hnow. destruct st as [n tms nid sto sp ct th ls]; simpl in *. subst tms.
  destruct nid as [|id]; [lia|].
  unfold inputAt, elapse, handleSearchInput, armed; simpl.
  assert (Z.max n t = t) as -> by lia.
  destruct sto as [[|k]|]; simpl; (split; [done|]); (split; [done|]); by exists id.
Qed.

Lemma next_input_armed st t v L t' v' :
  armed st t v L → (t ≤ t' < t + 300)%Z →
  armed (inputAt st (t', v')) t' v' L.
Proof.
  intros (Hnow & Hl & id & Htm & Hsto & Hnid) Ht.
  destruct st as [n tms nid sto sp ct th ls]; simpl in *. subst.
  unfold inputAt, elapse, handleSearchInput, armed; simpl.
  rewrite !filter_cons, !filter_nil; simpl.
  destruct (decide (dueBy t' _)) as [Hd|Hd]; [unfold dueBy in Hd; simpl in Hd; lia|].
  destruct (decide (¬ dueBy t' _)) as [_|Hd']; [|tauto]. simpl.
  rewrite !filter_cons, !filter_nil; simpl.
  destruct (decide (S id ≠ S id)) as [?|_]; [done|]. simpl.
  assert (Z.max t t' = t') as -> by lia.
  split; [done|]. split; [done|]. by exists (S id).
Qed.

Lemma burst_armed rest : ∀ st t v L,
  armed st t v L → rapid t rest →
  armed (inputsAt rest st) (default (t, v) (last rest)).1 (default (t, v) (last rest)).2 L.
Proof.
  induction rest as [|[t' v'] rest IH]; intros st t v L Ha Hr; [done|].
  destruct Hr as [Ht Hr]. simpl in Ht, Hr.
  pose proof (next_input_armed _ _ _ _ _ v' Ha Ht) as Ha'.
  specialize (IH _ _ _ _ Ha' Hr). unfold inputsAt in *. simpl foldl.
  destruct rest as [|ev rest]; [done|].
  rewrite last_cons_cons.
  destruct (last (ev :: rest)) eqn:E; [done|]. by apply last_None in E.
Qed.

Lemma armed_elapse st t v L T :
  armed st t v L → (t ≤ T)%Z →
  loads (elapse T st) = L ++ (if decide (t + 300 ≤ T)%Z then [((t + 300)%Z, v)] else [])
  ∧ ((t + 300 ≤ T)%Z → searchPrefix (elapse T st) = v ∧ timers (elapse T st) = []).
Proof.
  intros (Hnow & Hl & id & Htm & Hsto & Hnid) Ht.
  destruct st as [n tms nid sto sp ct th ls]; simpl in *. subst.
  unfold elapse; simpl. rewrite !filter_cons, !filter_nil; simpl.
  destruct (decide (dueBy T _)) as [Hd|Hd]; unfold dueBy in Hd; simpl in Hd.
  - destruct (decide (¬ _)) as [?|_]; [done|].
    rewrite decide_True by done. simpl. by split.
  - destruct (decide (¬ _)) as [_|?]; [|done].
    rewrite decide_False by done. simpl. split; [by rewrite app_nil_r|lia].
Qed.

(** C5. A burst of one or more input events in which each event arrives
    less than 300 ms after the one before it triggers exactly one reload:
    each event cancels the pending timer and arms a new one, so after the
    burst exactly one timer is pending, due 300 ms after the last event
    and holding its text; and at any time [T] after the last event the
    reloads made since the burst began are none while [T] is within 300 ms
    of the last event, and from then on exactly one, made 300 ms after the
    last event with the text of the last event. *)
Theorem debounce_single_load
    (st0 : SearchState) (t1 : Z) (v1 : string) (rest : list (Z * string)) (T : Z) :
  timers st0 = [] → 0 < nextTimerId st0 → (now st0 ≤ t1)%Z →
  rapid t1 rest →
  let final := default (t1, v1) (last rest) in
  (final.1 ≤ T)%Z →
  let burst := inputsAt ((t1, v1) :: rest) st0 in
  let st := elapse T burst in
  (∃ id, timers burst = [{| timer_id := id; timer_due := (final.1 + 300)%Z;
                            timer_value := final.2 |}]
         ∧ searchTimeout burst = Some id)
  ∧ loads burst = loads st0
  ∧ loads st = loads st0
               ++ (if decide (final.1 + 300 ≤ T)%Z then [((final.1 + 300)%Z, final.2)] else [])
  ∧ ((final.1 + 300 ≤ T)%Z → searchPrefix st = final.2 ∧ timers st = []).
Proof.
  intros Htm Hid Hnow Hr final HT burst st.
  pose proof (first_input_armed st0 t1 v1 Htm Hid Hnow) as Ha.
  pose proof (burst_armed rest _ _ _ _ Ha Hr) as Ha'.
  split; [|split].
  - destruct Ha' as (_ & _ & id & Ht & Hs & _). by exists (S id).
  - by destruct Ha' as (_ & Hl & _).
  - by apply armed_elapse.
Qed.

Lemma debounce_single_load_sample :
  let st0 := initialSearchState in
  let rest := [(100%Z, "ab"); (250%Z, "abc")] in
  (timers st0 = [] ∧ 0 < nextTimerId st0 ∧ (now st0 ≤ 0)%Z ∧ rapid 0 rest)
  ∧ loads (elapse 1000 (inputsAt ((0%Z, "a") :: rest) st0)) = [(550%Z, "abc")]
  ∧ loads (elapse 549 (inputsAt ((0%Z, "a") :: rest) st0)) = [].
Proof.
  split; [repeat split; (done || simpl; lia)|].
  split.
  - apply (debounce_single_load initialSearchState 0 "a"
             [(100%Z, "ab"); (250%Z, "abc")] 1000);
      (done || simpl; lia).
  - apply (debounce_single_load initialSearchState 0 "a"
             [(100%Z, "ab"); (250%Z, "abc")] 549);
      (done || simpl; lia).
Defined.

(** Two events 300 ms apart are two bursts: each one reloads. *)
Example debounce_two_bursts :
  loads (elapse 1000 (inputsAt [(0%Z, "a"); (300%Z, "ab")] initialSearchState))
  = [(300%Z, "a"); (600%Z, "ab")].
Proof. by vm_compute. Qed.

(** ** The task pool *)

Section PoolFacts.

Context {T O A : Type}.
Variable w : Worker T O A.
Variable concurrency : Z.

Lemma finallyCallback_cons p x l :
  finallyCallback p (x :: l) = if decide (x = p) then l else x :: finallyCallback p l.
Proof.
  unfold finallyCallback, indexOf. simpl.
  destruct (decide (x = p)); [done|].
  destruct (list_find _ l) as [[i y]|]; done.
Qed.

Lemma finallyCallback_elem p l k :
  NoDup l → k ∈ finallyCallback p l ↔ k ∈ l ∧ k ≠ p.
Proof.
  induction 1 as [|x l Hx Hl IH].
  { unfold finallyCallback; simpl.
    split; [by intros ?%elem_of_nil|by intros [?%elem_of_nil _]]. }
  rewrite finallyCallback_cons. destruct (decide (x = p)) as [->|Hne].
  - rewrite elem_of_cons. split; [intros Hk; split; [by right|by intros ->]|].
    intros [[->|Hk] Hkp]; done.
  - rewrite !elem_of_cons, IH. split; [intros [->|[? ?]]; auto|].
    intros [[->|Hk] Hkp]; auto.
Qed.

Lemma finallyCallback_NoDup p l : NoDup l → NoDup (finallyCallback p l).
Proof.
  induction 1 as [|x l Hx Hl IH]; [by constructor|].
  rewrite finallyCallback_cons. destruct (decide (x = p)); [done|].
  constructor; [|done]. rewrite finallyCallback_elem by done. tauto.
Qed.

Lemma finallyCallback_length p l :
  p ∈ l → S (length (finallyCallback p l)) = length l.
Proof.
  induction l as [|x l IH]; [by intros ?%elem_of_nil|].
  rewrite finallyCallback_cons. destruct (decide (x = p)); [done|].
  rewrite elem_of_cons. intros [->|Hp]; [done|]. simpl. by rewrite IH.
Qed.

Lemma called_insert (ps : list (T * PromiseState O)) p item st st' :
  ps !! p = Some (item, st) → fst <$> <[p := (item, st')]> ps = fst <$> ps.
Proof.
  intros Hp. rewrite list_fmap_insert. simpl.
  apply list_insert_id. by rewrite list_lookup_fmap, Hp.
Qed.

Lemma start_inv (items : list T) (a : A) :
  PoolInv concurrency items (start (O:=O) items a).
Proof.
  split; simpl; try done.
  - constructor.
  - intros k. split; [by intros ?%elem_of_nil|]. by intros (?&?&?&?).
  - lia.
  - by intros [|].
Qed.

Lemma step_inv (items : list T) ev s s' :
  PoolInv concurrency items s → step w concurrency ev s = Some s' →
  PoolInv concurrency items s'.
Proof.
  intros [Hitems Hnd Hrun Hbound Haw Hbody Hif Hret] Hstep.
  destruct ev as [|p o|p]; simpl in Hstep.
  - destruct (control s) eqn:Hc; try done.
    + (* the outer test *)
      destruct (bool_decide (0 < length (queue s)) || bool_decide (0 < length (running s)))
        eqn:Htest; injection Hstep as <-; split; simpl; try done.
      * intros _. apply orb_true_iff in Htest as [Hq%bool_decide_eq_true|Hr%bool_decide_eq_true].
        -- left. by destruct (queue s); [simpl in Hq; lia|].
        -- right. by destruct (running s); [simpl in Hr; lia|].
      * by intros [|].
      * intros _. apply orb_false_iff in Htest as [Hq%bool_decide_eq_false Hr%bool_decide_eq_false].
        split; [destruct (queue s)|destruct (running s)]; simpl in *; (done || lia).
    + (* the inner test *)
      destruct (bool_decide (Z.of_nat (length (running s)) < concurrency)%Z
                && bool_decide (0 < length (queue s))) eqn:Htest.
      * apply andb_true_iff in Htest as [Hlt%bool_decide_eq_true _].
        destruct (queue s) as [|item rest] eqn:Hq; [done|]. injection Hstep as <-.
        assert (length (promises s) ∉ running s) as Hfresh.
        { intros (item'&st&Hk&_)%Hrun. apply lookup_lt_Some in Hk. lia. }
        split; simpl; try done.
        -- unfold called in *. simpl. rewrite fmap_app, <- app_assoc. done.
        -- apply NoDup_app. split; [done|]. split; [|apply NoDup_singleton].
           intros k Hk ->%list_elem_of_singleton. done.
        -- intros k. rewrite elem_of_app, list_elem_of_singleton, Hrun. split.
           ++ intros [(item'&st&Hk&Hst)| ->].
              ** exists item', st. by rewrite lookup_app_l by by eapply lookup_lt_Some.
              ** exists item, FnPending. split; [|done].
                 by rewrite lookup_app_r, Nat.sub_diag by lia.
           ++ intros (item'&st&Hk&Hst).
              destruct (decide (k < length (promises s))) as [Hlt'|Hge].
              ** left. exists item', st. by rewrite lookup_app_l in Hk.
              ** right. apply lookup_lt_Some in Hk. rewrite length_app in Hk. simpl in Hk. lia.
        -- rewrite length_app. simpl. lia.
        -- intros _. right. by destruct (running s).
      * injection Hstep as <-. split; simpl; try done.
        -- intros _. apply Hbody. by left.
        -- intros _ [Hlt Hq]. apply andb_false_iff in Htest as [H|H];
             apply bool_decide_eq_false in H; [done|].
           destruct (queue s); [done|]. simpl in H. lia.
    + (* the test before the await *)
      destruct (bool_decide (0 < length (running s))) eqn:Htest;
        injection Hstep as <-; split; simpl; try done.
      * intros _. apply bool_decide_eq_true in Htest. by destruct (running s); [simpl in Htest; lia|].
      * by intros [|].
      * by intros [|].
    + (* the continuation of the await *)
      injection Hstep as <-. split; simpl; try done; by destruct rejected; try intros [|].
  - (* a worker settles *)
    destruct (synchronous (control s)) eqn:Hsync; [done|].
    destruct (promises s !! p) as [[item [| |]]|] eqn:Hp; try done.
    injection Hstep as <-. split; simpl; try done.
    + unfold called in *; simpl. by erewrite called_insert.
    + intros k. rewrite Hrun. destruct (decide (k = p)) as [->|Hne].
      * rewrite list_lookup_insert_eq by by eapply lookup_lt_Some.
        split; intros _; eauto.
      * by rewrite list_lookup_insert_ne.
  - (* a finally callback runs *)
    destruct (synchronous (control s)) eqn:Hsync; [done|].
    destruct (promises s !! p) as [[item [| |]]|] eqn:Hp; try done.
    injection Hstep as <-.
    assert (p ∈ running s) as Hin by (apply Hrun; eauto).
    pose proof (finallyCallback_length _ _ Hin) as Hlen.
    split; simpl; try done.
    + unfold called in *; simpl. by erewrite called_insert.
    + by apply finallyCallback_NoDup.
    + intros k. rewrite finallyCallback_elem, Hrun by done.
      destruct (decide (k = p)) as [->|Hne].
      * rewrite list_lookup_insert_eq by by eapply lookup_lt_Some.
        split; [by intros [_ ?]|]. by intros (?&?&[= <- <-]&?).
      * rewrite list_lookup_insert_ne by done.
        split; [by intros [? _]|intros H; by split].
    + lia.
    + by destruct (control s).
    + by destruct (control s); try intros [|].
    + by destruct (control s).
    + destruct (control s) eqn:Hc; try done. intros _.
      destruct (Hret eq_refl) as [_ Hr]. rewrite Hr in Hin. by apply elem_of_nil in Hin.
Qed.

Lemma run_inv (items : list T) schedule : ∀ s s',
  PoolInv concurrency items s → run w concurrency schedule s = Some s' →
  PoolInv concurrency items s'.
Proof.
  induction schedule as [|ev rest IH]; intros s s' Hinv Hrun; simpl in Hrun.
  - by injection Hrun as <-.
  - destruct (step w concurrency ev s) as [s1|] eqn:Hstep; [|done].
    eapply IH; [|done]. by eapply step_inv.
Qed.

End PoolFacts.

Section PoolTermination.

Context {T O A : Type}.
Variable w : Worker T O A.
Variable concurrency : Z.

Lemma inFlight_le_running (items : list T) (s : Pool T O A) :
  PoolInv concurrency items s → length (inFlight s) ≤ length (running s).
Proof.
  intros Hinv. apply submseteq_length, NoDup_submseteq.
  - apply NoDup_filter, NoDup_seq.
  - intros k [Hk _]%list_elem_of_filter. apply (inv_running _ _ _ Hinv).
    unfold pendingAt in Hk. destruct (promises s !! k) as [[item [| |]]|]; try done.
    by exists item, FnPending.
Qed.

Lemma weight_insert (ps : list (T * PromiseState O)) p x y :
  ps !! p = Some x →
  sum_list_with (fun q => promiseWeight q.2) (<[p := y]> ps) + promiseWeight x.2
  = sum_list_with (fun q => promiseWeight q.2) ps + promiseWeight y.2.
Proof.
  revert p. induction ps as [|q ps IH]; intros [|p] Hp; simplify_eq/=; [lia|].
  specialize (IH _ Hp). lia.
Qed.

Lemma step_measure (items : list T) ev s s' :
  (1 ≤ concurrency)%Z → PoolInv concurrency items s →
  step w concurrency ev s = Some s' → measure s' < measure s.
Proof.
  intros Hc Hinv Hstep. unfold measure.
  destruct ev as [|p o|p]; simpl in Hstep.
  - destruct (control s) eqn:Hctl; try done.
    + destruct (_ || _); injection Hstep as <-; simpl; lia.
    + destruct (_ && _).
      * destruct (queue s) as [|item rest] eqn:Hq; [done|]. injection Hstep as <-.
        simpl. rewrite sum_list_with_app. simpl. lia.
      * injection Hstep as <-. simpl. lia.
    + destruct (bool_decide (0 < length (running s))) eqn:Htest;
        injection Hstep as <-; simpl; [lia|].
      exfalso. apply bool_decide_eq_false in Htest.
      assert (running s = []) as Hr by (destruct (running s); [done|simpl in Htest; lia]).
      destruct (inv_body _ _ _ Hinv) as [Hq|?]; [by right| |done].
      apply (inv_if _ _ _ Hinv Hctl). rewrite Hr. simpl. split; [lia|done].
    + injection Hstep as <-. simpl. destruct rejected; simpl; lia.
  - destruct (synchronous (control s)); [done|].
    destruct (promises s !! p) as [[item [| |]]|] eqn:Hp; try done.
    injection Hstep as <-. simpl.
    pose proof (weight_insert _ _ _ (item, FnSettled o) Hp) as Hw. simpl in Hw. lia.
  - destruct (synchronous (control s)) eqn:Hsync; [done|].
    destruct (promises s !! p) as [[item [| |]]|] eqn:Hp; try done.
    injection Hstep as <-. simpl.
    pose proof (weight_insert _ _ _ (item, Finalized o) Hp) as Hw. simpl in Hw.
    destruct (control s); simpl in *; try done; lia.
Qed.


(** Whatever the worker awaits can settle: any outcome [o] will do. *)
Lemma step_progress (items : list T) (o : O) s :
  PoolInv concurrency items s → ¬ terminated s →
  ∃ ev s', step w concurrency ev s = Some s'.
Proof.
  intros Hinv Hterm. destruct (control s) eqn:Hctl.
  - exists Main. simpl. rewrite Hctl. destruct (_ || _); eauto.
  - exists Main. simpl. rewrite Hctl.
    destruct (bool_decide (Z.of_nat (length (running s)) < concurrency)%Z); simpl; [|eauto].
    destruct (bool_decide (0 < length (queue s))) eqn:Hq; [|eauto].
    apply bool_decide_eq_true in Hq. destruct (queue s); [simpl in Hq; lia|eauto].
  - exists Main. simpl. rewrite Hctl. destruct (bool_decide _); eauto.
  - destruct (running s) as [|k l] eqn:Hr; [by destruct (inv_awaiting _ _ _ Hinv Hctl)|].
    destruct (proj1 (inv_running _ _ _ Hinv k)) as (item&st&Hk&Hst); [rewrite Hr; left|].
    destruct st as [|o'|o']; [| |done].
    + exists (Settle k o). simpl. rewrite Hctl, Hk. simpl. eauto.
    + exists (Finally k). simpl. rewrite Hctl, Hk. simpl. eauto.
  - exists Main. simpl. rewrite Hctl. eauto.
  - destruct Hterm. by left.
  - destruct Hterm. by right.
Qed.

Lemma run_app schedule1 schedule2 (s s1 : Pool T O A) :
  run w concurrency schedule1 s = Some s1 →
  run w concurrency (schedule1 ++ schedule2) s = run w concurrency schedule2 s1.
Proof.
  revert s. induction schedule1 as [|ev rest IH]; intros s H; simpl in *.
  - by injection H as <-.
  - destruct (step w concurrency ev s); [by apply IH|done].
Qed.

Lemma run_completes (items : list T) (o : O) : ∀ n s,
  (1 ≤ concurrency)%Z → PoolInv concurrency items s → measure s ≤ n →
  ∃ schedule s', run w concurrency schedule s = Some s' ∧ terminated s'.
Proof.
  induction n as [|n IH]; intros s Hc Hinv Hn.
  - destruct (decide (control s = Returned)) as [?|N1]; [exists [], s; split; [done|by left]|].
    destruct (decide (control s = Thrown)) as [?|N2]; [exists [], s; split; [done|by right]|].
    destruct (step_progress items o s Hinv) as (ev&s1&Hstep); [by intros [|]|].
    pose proof (step_measure _ _ _ _ Hc Hinv Hstep). lia.
  - destruct (decide (control s = Returned)) as [?|N1]; [exists [], s; split; [done|by left]|].
    destruct (decide (control s = Thrown)) as [?|N2]; [exists [], s; split; [done|by right]|].
    destruct (step_progress items o s Hinv) as (ev&s1&Hstep); [by intros [|]|].
    pose proof (step_measure _ _ _ _ Hc Hinv Hstep).
    destruct (IH s1 Hc) as (rest&s'&Hrun&Hterm); [by eapply step_inv|lia|].
    exists (ev :: rest), s'. simpl. by rewrite Hstep.
Qed.



End PoolTermination.

Section PoolRejections.

Context {T O A : Type}.
Variable w : Worker T O A.
Variable concurrency : Z.

Lemma step_rejectionSeen ev s s' :
  rejectionSeen w s → step w concurrency ev s = Some s' → rejectionSeen w s'.
Proof.
  unfold rejectionSeen. intros Hrej Hstep Hc'.
  destruct ev as [|p o|p]; simpl in Hstep.
  - destruct (control s) eqn:Hc; try done.
    + destruct (_ || _); injection Hstep as <-; done.
    + destruct (_ && _).
      * destruct (queue s) as [|item rest]; [done|]. injection Hstep as <-. done.
      * injection Hstep as <-. done.
    + destruct (bool_decide _); injection Hstep as <-; done.
    + injection Hstep as <-. destruct rejected; [|done]. by apply Hrej.
  - destruct (synchronous (control s)); [done|].
    destruct (promises s !! p) as [[item [| |]]|] eqn:Hp; try done.
    injection Hstep as <-. simpl in *.
    destruct (Hrej Hc') as (k&item'&o'&Hk&Hr). exists k, item', o'. split; [|done].
    rewrite list_lookup_insert_ne; [done|]. intros ->. congruence.
  - destruct (synchronous (control s)); [done|].
    destruct (promises s !! p) as [[item [| |]]|] eqn:Hp; try done.
    injection Hstep as <-. simpl in *.
    destruct (control s) eqn:Hc; try done.
    + exists p, item, o. split; [|by destruct (rejects w item o)].
      apply list_lookup_insert_eq. by eapply lookup_lt_Some.
    + destruct (Hrej Hc') as (k&item'&o'&Hk&Hr). exists k, item', o'. split; [|done].
      rewrite list_lookup_insert_ne; [done|]. intros ->. congruence.
    + destruct (Hrej Hc') as (k&item'&o'&Hk&Hr). exists k, item', o'. split; [|done].
      rewrite list_lookup_insert_ne; [done|]. intros ->. congruence.
Qed.

Lemma run_rejectionSeen schedule : ∀ s s',
  rejectionSeen w s → run w concurrency schedule s = Some s' → rejectionSeen w s'.
Proof.
  induction schedule as [|ev rest IH]; intros s s' Hrej Hrun; simpl in Hrun.
  - by injection Hrun as <-.
  - destruct (step w concurrency ev s) as [s1|] eqn:Hstep; [|done].
    eapply IH; [|done]. by eapply step_rejectionSeen.
Qed.

Lemma step_thrown ev s s' :
  control s = Thrown → step w concurrency ev s = Some s' →
  ev ≠ Main ∧ control s' = Thrown ∧ queue s' = queue s ∧ called s' = called s.
Proof.
  intros Hc Hstep. destruct ev as [|p o|p]; simpl in Hstep; rewrite Hc in Hstep; [done| |].
  - simpl in Hstep. destruct (promises s !! p) as [[item [| |]]|] eqn:Hp; try done.
    injection Hstep as <-. simpl. unfold called. simpl.
    by rewrite (called_insert _ _ _ _ _ Hp).
  - simpl in Hstep. destruct (promises s !! p) as [[item [| |]]|] eqn:Hp; try done.
    injection Hstep as <-. simpl. unfold called. simpl.
    by rewrite (called_insert _ _ _ _ _ Hp).
Qed.

Lemma run_thrown schedule : ∀ s s',
  control s = Thrown → run w concurrency schedule s = Some s' →
  (Main ∉ schedule) ∧ control s' = Thrown ∧ queue s' = queue s ∧ called s' = called s.
Proof.
  induction schedule as [|ev rest IH]; intros s s' Hc Hrun; simpl in Hrun.
  - injection Hrun as <-. split; [by intros ?%elem_of_nil|done].
  - destruct (step w concurrency ev s) as [s1|] eqn:Hstep; [|done].
    destruct (step_thrown _ _ _ Hc Hstep) as (Hev&Hc1&Hq1&Hcalled1).
    destruct (IH _ _ Hc1 Hrun) as (Hno&Hc'&Hq'&Hcalled').
    split; [|by rewrite Hq', Hcalled'].
    rewrite not_elem_of_cons. by split.
Qed.

Lemma step_never_thrown ev s s' :
  (∀ item o, rejects w item o = false) → rejection (control s) = false →
  step w concurrency ev s = Some s' → rejection (control s') = false.
Proof.
  intros Hnever Hc Hstep. destruct ev as [|p o|p]; simpl in Hstep.
  - destruct (control s) eqn:Hctl; try done.
    + destruct (_ || _); injection Hstep as <-; done.
    + destruct (_ && _).
      * destruct (queue s) as [|item rest]; [done|]. injection Hstep as <-. done.
      * injection Hstep as <-. done.
    + destruct (bool_decide _); injection Hstep as <-; done.
    + injection Hstep as <-. by destruct rejected.
  - destruct (synchronous (control s)); [done|].
    destruct (promises s !! p) as [[item [| |]]|]; try done.
    by injection Hstep as <-.
  - destruct (synchronous (control s)); [done|].
    destruct (promises s !! p) as [[item [| |]]|]; try done.
    injection Hstep as <-. simpl. destruct (control s); try done. simpl. by rewrite Hnever.
Qed.

Lemma run_never_thrown schedule : ∀ s s',
  (∀ item o, rejects w item o = false) → rejection (control s) = false →
  run w concurrency schedule s = Some s' → rejection (control s') = false.
Proof.
  induction schedule as [|ev rest IH]; intros s s' Hnever Hc Hrun; simpl in Hrun.
  - by injection Hrun as <-.
  - destruct (step w concurrency ev s) as [s1|] eqn:Hstep; [|done].
    eapply IH; [done| |done]. by eapply step_never_thrown.
Qed.

End PoolRejections.

Lemma uploadFilesWithTasks_Some sel filePaths ts uw s0 :
  uploadFilesWithTasks sel filePaths ts = Some (uw, s0) →
  ∃ profileId bucket,
    currentProfileId sel = Some profileId ∧ currentBucket sel = Some bucket
    ∧ uw = uploadWorker profileId bucket (currentPrefix sel)
    ∧ s0 = start
        (uploadItems filePaths
           (newTasks (taskIdCounter ts) TypeUpload
              ((fun filePath => baseNameOr filePath filePath) <$> filePaths)))
        {| store := (addTasksBatch TypeUpload
                       ((fun filePath => baseNameOr filePath filePath) <$> filePaths) ts).2;
           bridge := [] |}.
Proof.
  unfold uploadFilesWithTasks.
  destruct (currentProfileId sel) as [[|c1 p]|]; try done.
  destruct (currentBucket sel) as [[|c2 b]|]; try done.
  simpl. intros [= <- <-]. by eexists _, _.
Qed.








(** ** The task list *)

Lemma findTask_cons taskId t l :
  findTask taskId (t :: l) = if decide (task_id t = taskId) then Some t else findTask taskId l.
Proof.
  unfold findTask. simpl. destruct (decide (task_id t = taskId)); [done|].
  by destruct (list_find _ l) as [[i y]|].
Qed.

Lemma findTask_app_l taskId l1 l2 t :
  findTask taskId l1 = Some t → findTask taskId (l1 ++ l2) = Some t.
Proof.
  induction l1 as [|x l1 IH]; [done|]. simpl. rewrite !findTask_cons.
  destruct (decide (task_id x = taskId)); [done|apply IH].
Qed.

Lemma findTask_id taskId l t : findTask taskId l = Some t → task_id t = taskId.
Proof.
  induction l as [|x l IH]; [done|]. rewrite findTask_cons.
  destruct (decide (task_id x = taskId)); [by intros [= <-]|apply IH].
Qed.

Lemma assignFirst_length taskId f l : length (assignFirst taskId f l) = length l.
Proof.
  induction l as [|x l IH]; [done|]. simpl.
  destruct (decide (task_id x = taskId)); simpl; by rewrite ?IH.
Qed.

Lemma assignFirst_app_l taskId f l1 l2 t :
  findTask taskId l1 = Some t →
  assignFirst taskId f (l1 ++ l2) = assignFirst taskId f l1 ++ l2.
Proof.
  induction l1 as [|x l1 IH]; [done|]. rewrite findTask_cons. simpl.
  destruct (decide (task_id x = taskId)); [done|]. intros H. by rewrite IH.
Qed.

Lemma findTask_assignFirst_eq taskId f l t :
  (∀ x, task_id (f x) = task_id x) →
  findTask taskId l = Some t → findTask taskId (assignFirst taskId f l) = Some (f t).
Proof.
  intros Hf. induction l as [|x l IH]; [done|]. rewrite findTask_cons. simpl.
  destruct (decide (task_id x = taskId)) as [Hx|Hx].
  - intros [= <-]. by rewrite findTask_cons, decide_True by by rewrite Hf.
  - intros H. by rewrite findTask_cons, decide_False, IH.
Qed.

Lemma findTask_assignFirst_ne taskId taskId' f l :
  (∀ x, task_id (f x) = task_id x) → taskId' ≠ taskId →
  findTask taskId' (assignFirst taskId f l) = findTask taskId' l.
Proof.
  intros Hf Hne. induction l as [|x l IH]; [done|]. simpl.
  destruct (decide (task_id x = taskId)) as [Hx|Hx]; rewrite !findTask_cons.
  - rewrite Hf. by rewrite !decide_False by congruence.
  - by rewrite IH.
Qed.

Lemma updateTaskStatus_batch taskId status error ts batch old t :
  tasks ts = batch ++ old → findTask taskId batch = Some t →
  updateTaskStatus taskId status error ts
  = {| tasks := assignFirst taskId (setStatus status error) batch ++ old;
       taskIdCounter := taskIdCounter ts;
       statusLog := statusLog ts ++ [(taskId, task_status t, status)] |}.
Proof.
  intros Hts Ht. unfold updateTaskStatus.
  rewrite Hts, (findTask_app_l _ _ _ _ Ht). by rewrite (assignFirst_app_l _ _ _ _ _ Ht).
Qed.

Lemma taskIdOf_inj n m : taskIdOf n = taskIdOf m → n = m.
Proof.
  unfold taskIdOf. intros H. apply (inj (String.app "task-")) in H.
  by apply (inj pretty) in H.
Qed.

Lemma newTasks_lookup type fileNames : ∀ n k t,
  newTasks n type fileNames !! k = Some t →
  ∃ fileName, fileNames !! k = Some fileName ∧ t = newTask (S (n + k)) type fileName.
Proof.
  induction fileNames as [|f rest IH]; intros n k t H; [done|].
  destruct k as [|k]; simpl in H.
  - injection H as <-. exists f. by rewrite Nat.add_0_r.
  - destruct (IH _ _ _ H) as (f'&Hf&->). exists f'. split; [done|].
    by rewrite Nat.add_succ_r.
Qed.

Lemma newTasks_length type fileNames n : length (newTasks n type fileNames) = length fileNames.
Proof. revert n. induction fileNames as [|f rest IH]; intros n; simpl; by rewrite ?IH. Qed.

Lemma findTask_lookup_NoDup l k t :
  NoDup (task_id <$> l) → l !! k = Some t → findTask (task_id t) l = Some t.
Proof.
  revert k. induction l as [|x l IH]; intros k Hnd Hk; [done|].
  rewrite fmap_cons in Hnd. apply NoDup_cons in Hnd as [Hx Hnd].
  rewrite findTask_cons. destruct k as [|k]; simpl in Hk.
  - injection Hk as <-. by rewrite decide_True.
  - rewrite decide_False; [by eapply IH|].
    intros Heq. apply Hx. rewrite Heq. apply list_elem_of_fmap.
    exists t. split; [done|]. by eapply list_elem_of_lookup_2.
Qed.

Lemma newTasks_NoDup type fileNames n : NoDup (task_id <$> newTasks n type fileNames).
Proof.
  apply NoDup_alt. intros i j tid Hi Hj.
  rewrite list_lookup_fmap in Hi, Hj.
  destruct (newTasks n type fileNames !! i) as [ti|] eqn:Ei; [|done].
  destruct (newTasks n type fileNames !! j) as [tj|] eqn:Ej; [|done].
  apply newTasks_lookup in Ei as (fi&_&->). apply newTasks_lookup in Ej as (fj&_&->).
  simpl in Hi, Hj. rewrite <- Hi in Hj. apply (inj Some) in Hj.
  apply taskIdOf_inj in Hj. lia.
Qed.

(** ** Upload batches *)

Lemma historyOf_app taskId l1 l2 :
  historyOf taskId (l1 ++ l2) = historyOf taskId l1 ++ historyOf taskId l2.
Proof. unfold historyOf. by rewrite filter_app. Qed.

Lemma setStatus_id status error t : task_id (setStatus status error t) = task_id t.
Proof. done. Qed.

Section UploadUpdate.

Variable items : list UploadItem.
Hypothesis items_distinct : ∀ k k' item item',
  items !! k = Some item → items !! k' = Some item' →
  task_id (task item) = task_id (task item') → k = k'.

(** One call of [updateTaskStatus] on the task of item [p], whose promise
    goes from state [ph p] to state [ph' p]. *)
Lemma taskFollows_update batch log (ph ph' : nat → option (PromiseState UploadOutcome))
    p item before status error :
  items !! p = Some item →
  (∀ k, k ≠ p → ph' k = ph k) →
  (∀ k it, items !! k = Some it → taskFollows batch log it (ph k)) →
  expectedStatus (ph p) = before →
  expectedStatus (ph' p) = status →
  expectedHistory (task_id (task item)) (ph' p)
  = expectedHistory (task_id (task item)) (ph p)
    ++ [(task_id (task item), before, status)] →
  expectedError (ph' p) = (if truthy error then error else expectedError (ph p)) →
  ∀ k it, items !! k = Some it →
    taskFollows (assignFirst (task_id (task item)) (setStatus status error) batch)
                (log ++ [(task_id (task item), before, status)])
                it (ph' k).
Proof.
  intros Hp Hother Hall Hbefore Hst Hhist Herr k it Hk.
  destruct (Hall _ _ Hk) as (Hh & t & Ht & Hts & Hte).
  destruct (decide (k = p)) as [->|Hne].
  - assert (it = item) as -> by congruence.
    split.
    + rewrite historyOf_app, Hh, Hhist. f_equal.
      unfold historyOf. by rewrite filter_cons, decide_True.
    + exists (setStatus status error t). split; [|split].
      * by apply findTask_assignFirst_eq.
      * by rewrite Hst.
      * simpl. by rewrite Herr, Hte.
  - assert (task_id (task it) ≠ task_id (task item)) as Hid.
    { intros Heq. apply Hne. by eapply items_distinct. }
    rewrite Hother by done. split.
    + rewrite historyOf_app, Hh.
      assert (historyOf (task_id (task it))
                [(task_id (task item), before, status)] = []) as ->.
      { unfold historyOf. rewrite filter_cons, decide_False by (simpl; congruence).
        by rewrite filter_nil. }
      by rewrite app_nil_r.
    + exists t. by rewrite findTask_assignFirst_ne.
Qed.

End UploadUpdate.

Section UploadSteps.

Variable ts0 : TaskStore.
Variables profileId bucket prefix : string.
Variable concurrency : Z.
Variable items : list UploadItem.
Hypothesis items_distinct : ∀ k k' item item',
  items !! k = Some item → items !! k' = Some item' →
  task_id (task item) = task_id (task item') → k = k'.

Local Abbreviation uw := (uploadWorker profileId bucket prefix).

Lemma taskFollows_finalized batch log it o :
  taskFollows batch log it (Some (FnSettled o)) →
  taskFollows batch log it (Some (Finalized o)).
Proof. done. Qed.

Lemma upload_step_inv ev s s' :
  PoolInv concurrency items s →
  UploadInv ts0 profileId bucket prefix items s →
  step uw concurrency ev s = Some s' →
  UploadInv ts0 profileId bucket prefix items s'.
Proof.
  intros Hinv (batch & log & Htasks & Hlen & Hlog & Hbridge & Hthrown & Hrej & Hown & Hall) Hstep.
  destruct ev as [|p o|p]; simpl in Hstep.
  - destruct (control s) eqn:Hctl; try done.
    + destruct (_ || _); injection Hstep as <-; by exists batch, log.
    + destruct (_ && _).
      * destruct (queue s) as [|item rest] eqn:Hq; [done|]. injection Hstep as <-.
        assert (items !! length (promises s) = Some item) as Hitem.
        { rewrite <- (inv_items _ _ _ Hinv), Hq. unfold called.
          rewrite lookup_app_r by (rewrite length_fmap; lia).
          by rewrite length_fmap, Nat.sub_diag. }
        assert (promiseAt s (length (promises s)) = None) as Hnone.
        { unfold promiseAt. by rewrite lookup_ge_None_2. }
        destruct (Hall _ _ Hitem) as (_ & t & Ht & Hts & _).
        rewrite Hnone in Hts.
        exists (assignFirst (task_id (task item)) (setStatus StatusRunning None) batch),
               (log ++ [(task_id (task item), StatusPending, StatusRunning)]).
        simpl. rewrite (updateTaskStatus_batch _ _ _ _ _ _ _ Htasks Ht), Hts. simpl.
        split; [done|]. split; [by rewrite assignFirst_length|].
        split; [by rewrite Hlog, app_assoc|].
        split; [unfold called; simpl; by rewrite Hbridge, !fmap_app|].
        split; [done|]. split; [done|]. split.
        { intros e [He| ->%list_elem_of_singleton]%elem_of_app; [by apply Hown|].
          exists item. split; [by eapply list_elem_of_lookup_2|done]. }
        apply (taskFollows_update items items_distinct batch log
                 (promiseAt s) _ (length (promises s)) item
                 StatusPending StatusRunning None Hitem);
          rewrite ?Hnone; try done.
        -- intros k Hk. unfold promiseAt. simpl.
           destruct (decide (k < length (promises s))).
           ++ by rewrite lookup_app_l.
           ++ rewrite !lookup_ge_None_2; [done|lia|rewrite length_app; simpl; lia].
        -- unfold promiseAt. simpl. by rewrite lookup_app_r, Nat.sub_diag.
        -- unfold promiseAt. simpl. by rewrite lookup_app_r, Nat.sub_diag.
        -- unfold promiseAt. simpl. by rewrite lookup_app_r, Nat.sub_diag.
      * injection Hstep as <-. by exists batch, log.
    + destruct (bool_decide _); injection Hstep as <-; by exists batch, log.
    + injection Hstep as <-. destruct rejected; [done|]. by exists batch, log.
  - destruct (synchronous (control s)) eqn:Hsync; [done|].
    destruct (promises s !! p) as [[item [| |]]|] eqn:Hp; try done.
    injection Hstep as <-.
    assert (items !! p = Some item) as Hitem.
    { rewrite <- (inv_items _ _ _ Hinv). apply lookup_app_l_Some.
      unfold called. by rewrite list_lookup_fmap, Hp. }
    assert (promiseAt s p = Some FnPending) as Hpend.
    { unfold promiseAt. by rewrite Hp. }
    destruct (Hall _ _ Hitem) as (_ & t & Ht & Hts & _).
    rewrite Hpend in Hts. simpl in Hts.
    set (error := match o with UploadResolved => None | UploadRejected reason => Some reason end).
    exists (assignFirst (task_id (task item)) (setStatus (terminalStatus o) error) batch),
           (log ++ [(task_id (task item), StatusRunning, terminalStatus o)]).
    assert (match o with
            | UploadResolved =>
                updateTaskStatus (task_id (task item)) StatusCompleted None (store (app s))
            | UploadRejected reason =>
                updateTaskStatus (task_id (task item)) StatusFailed (Some reason) (store (app s))
            end
            = updateTaskStatus (task_id (task item)) (terminalStatus o) error (store (app s)))
      as Hstore by by destruct o.
    simpl. rewrite Hstore, (updateTaskStatus_batch _ _ _ _ _ _ _ Htasks Ht), Hts.
    simpl.
    split; [done|]. split; [by rewrite assignFirst_length|].
    split; [by rewrite Hlog, app_assoc|].
    split; [unfold called in *; simpl; by erewrite called_insert|].
    split; [done|]. split; [done|]. split.
    { intros e [He| ->%list_elem_of_singleton]%elem_of_app; [by apply Hown|].
      exists item. split; [by eapply list_elem_of_lookup_2|done]. }
    assert (∀ a : UploadApp, promiseAt
              {| queue := queue s; running := running s;
                 promises := <[p := (item, FnSettled o)]> (promises s);
                 control := control s; app := a |} p
            = Some (FnSettled o)) as Hnew.
    { intros a. unfold promiseAt. simpl.
      by rewrite list_lookup_insert_eq by by eapply lookup_lt_Some. }
    apply (taskFollows_update items items_distinct batch log
             (promiseAt s) _ p item StatusRunning (terminalStatus o) error Hitem);
      rewrite ?Hnew, ?Hpend; try done.
    + intros k Hk. unfold promiseAt. simpl. by rewrite list_lookup_insert_ne.
    + by destruct o as [|[|c reason]].
  - destruct (synchronous (control s)) eqn:Hsync; [done|].
    destruct (promises s !! p) as [[item [| |]]|] eqn:Hp; try done.
    injection Hstep as <-. exists batch, log. simpl.
    split; [done|]. split; [done|]. split; [done|].
    split; [unfold called in *; simpl; by erewrite called_insert|].
    split; [by destruct (control s)|]. split; [by destruct (control s)|].
    split; [done|].
    intros k it Hk. specialize (Hall _ _ Hk). unfold promiseAt in *. simpl.
    destruct (decide (k = p)) as [->|Hne].
    + rewrite list_lookup_insert_eq by by eapply lookup_lt_Some.
      rewrite Hp in Hall. by apply taskFollows_finalized.
    + by rewrite list_lookup_insert_ne.
Qed.

Lemma upload_run_inv schedule : ∀ s s',
  PoolInv concurrency items s →
  UploadInv ts0 profileId bucket prefix items s →
  run uw concurrency schedule s = Some s' →
  UploadInv ts0 profileId bucket prefix items s'.
Proof.
  induction schedule as [|ev rest IH]; intros s s' Hinv Hup Hrun; simpl in Hrun.
  - by injection Hrun as <-.
  - destruct (step uw concurrency ev s) as [s1|] eqn:Hstep; [|done].
    eapply IH; [by eapply step_inv|by eapply upload_step_inv|done].
Qed.

End UploadSteps.

Section UploadBatch.

Variable sel : Selection.
Variable filePaths : list string.
Variable ts : TaskStore.

Local Abbreviation fileNames := ((fun filePath => baseNameOr filePath filePath) <$> filePaths).
Local Abbreviation created := (newTasks (taskIdCounter ts) TypeUpload fileNames).
Local Abbreviation items := (uploadItems filePaths created).

Lemma uploadItems_lookup k item :
  items !! k = Some item →
  filePaths !! k = Some (filePath item) ∧ created !! k = Some (task item).
Proof.
  unfold uploadItems. rewrite lookup_zip_with_Some.
  intros (x & y & -> & Hx & Hy). done.
Qed.

Lemma uploadItems_length : length items = length filePaths.
Proof.
  unfold uploadItems. rewrite length_zip_with, newTasks_length, length_fmap. lia.
Qed.

Lemma uploadItems_distinct k k' item item' :
  items !! k = Some item → items !! k' = Some item' →
  task_id (task item) = task_id (task item') → k = k'.
Proof.
  intros [_ Hk]%uploadItems_lookup [_ Hk']%uploadItems_lookup Heq.
  pose proof (newTasks_NoDup TypeUpload fileNames (taskIdCounter ts)) as Hnd.
  eapply (proj1 (NoDup_alt _) Hnd); rewrite list_lookup_fmap.
  - by rewrite Hk.
  - by rewrite Hk', Heq.
Qed.

Lemma upload_start_inv profileId bucket prefix :
  UploadInv ts profileId bucket prefix items
    (start items {| store := (addTasksBatch TypeUpload fileNames ts).2; bridge := [] |}).
Proof.
  exists created, []. simpl.
  split; [done|].
  split; [by rewrite uploadItems_length, newTasks_length, length_fmap|].
  split; [by rewrite app_nil_r|]. split; [done|]. split; [done|]. split; [done|].
  split; [by intros e ?%elem_of_nil|].
  intros k item Hk. destruct (uploadItems_lookup _ _ Hk) as [_ Hc].
  split; [done|]. exists (task item). split.
  - eapply findTask_lookup_NoDup; [apply newTasks_NoDup|exact Hc].
  - apply newTasks_lookup in Hc as (f & _ & ->). done.
Qed.

Lemma upload_invariants uw s0 concurrency schedule s :
  uploadFilesWithTasks sel filePaths ts = Some (uw, s0) →
  run uw concurrency schedule s0 = Some s →
  queue s0 = items
  ∧ PoolInv concurrency items s
  ∧ ∃ profileId bucket,
      uw = uploadWorker profileId bucket (currentPrefix sel)
      ∧ UploadInv ts profileId bucket (currentPrefix sel) items s.
Proof.
  intros Hup Hrun.
  destruct (uploadFilesWithTasks_Some _ _ _ _ _ Hup) as (pid & b & _ & _ & -> & ->).
  split; [done|].
  pose proof (start_inv concurrency items
                {| store := (addTasksBatch TypeUpload fileNames ts).2; bridge := [] |}
                (O:=UploadOutcome)) as Hinv0.
  split; [by eapply run_inv|].
  exists pid, b. split; [done|].
  eapply upload_run_inv; [apply uploadItems_distinct|exact Hinv0|apply upload_start_inv|done].
Qed.

End UploadBatch.

Lemma upload_run_returns sel filePaths ts uw s0 concurrency schedule s :
  uploadFilesWithTasks sel filePaths ts = Some (uw, s0) →
  run uw concurrency schedule s0 = Some s →
  (1 ≤ concurrency)%Z →
  ∃ rest s', run uw concurrency rest s = Some s' ∧ control s' = Returned.
Proof.
  intros Hup Hrun Hc.
  destruct (upload_invariants _ _ _ _ _ _ _ _ Hup Hrun) as (_ & Hinv & _).
  destruct (run_completes uw concurrency _ UploadResolved (measure s) s Hc Hinv (le_n _))
    as (rest & s' & Hrest & [Hret|Hthr]); [by exists rest, s'|].
  exfalso.
  assert (run uw concurrency (schedule ++ rest) s0 = Some s') as Hall
    by by rewrite (run_app _ _ _ _ _ _ Hrun).
  destruct (upload_invariants _ _ _ _ _ _ _ _ Hup Hall)
    as (_ & _ & _ & _ & _ & _ & _ & _ & _ & _ & _ & Hthrown & _). done.
Qed.

Lemma runningTasks_le_running sel filePaths ts uw s0 concurrency schedule s :
  uploadFilesWithTasks sel filePaths ts = Some (uw, s0) →
  run uw concurrency schedule s0 = Some s →
  length (runningTasks (queue s0) (store (app s))) ≤ length (running s).
Proof.
  intros Hup Hrun.
  destruct (upload_invariants _ _ _ _ _ _ _ _ Hup Hrun)
    as (Hq & Hinv & pid & b & -> & batch & log & Htasks & _ & _ & _ & _ & _ & _ & Hall).
  rewrite Hq. apply submseteq_length, NoDup_submseteq.
  { apply NoDup_filter, NoDup_seq. }
  intros k [Hk _]%list_elem_of_filter. unfold taskStatusAt in Hk.
  destruct (_ !! k) as [item|] eqn:Hitem; [|done]. simpl in Hk.
  destruct (Hall _ _ Hitem) as (_ & t & Ht & Hst & _).
  rewrite Htasks, (findTask_app_l _ _ _ _ Ht) in Hk. simpl in Hk.
  injection Hk as Hk. rewrite Hst in Hk.
  apply (inv_running _ _ _ Hinv). unfold promiseAt in Hk.
  destruct (promises s !! k) as [[item' st]|]; [|done].
  exists item', st. split; [done|]. by destruct st as [|[]|[]].
Qed.

(** C1. For every list of work items, every worker and every concurrency
    limit N >= 1, in every state that a run of [runWithConcurrency] goes
    through, the [running] array holds at most N promises, and the workers
    still pending are among them; the limit passed for uploads,
    MAX_CONCURRENT_UPLOADS, is 20, so an upload batch never has more than
    20 promises in [running], nor more than 20 tasks in status running. *)
Theorem running_at_most_concurrency {T O A : Type}
    (w : Worker T O A) (concurrency : Z) (items : list T) (a : A)
    (schedule : list (Event O)) (s : Pool T O A) :
  (1 ≤ concurrency)%Z →
  run w concurrency schedule (start items a) = Some s →
  (Z.of_nat (length (running s)) ≤ concurrency)%Z
  ∧ length (inFlight s) ≤ length (running s)
  ∧ MAX_CONCURRENT_UPLOADS = 20%Z
  ∧ ∀ sel filePaths ts uw s0 uploads s',
      uploadFilesWithTasks sel filePaths ts = Some (uw, s0) →
      run uw MAX_CONCURRENT_UPLOADS uploads s0 = Some s' →
      length (running s') ≤ 20
      ∧ length (runningTasks (queue s0) (store (app s'))) ≤ 20.
Proof.
  intros Hc Hrun.
  pose proof (run_inv w concurrency items schedule _ _ (start_inv _ _ _) Hrun) as Hinv.
  split; [pose proof (inv_bound _ _ _ Hinv); lia|].
  split; [by eapply inFlight_le_running|].
  split; [done|].
  intros sel filePaths ts uw s0 uploads s' Hup Hrun'.
  pose proof (runningTasks_le_running _ _ _ _ _ _ _ _ Hup Hrun') as Htasks.
  destruct (upload_invariants _ _ _ _ _ _ _ _ Hup Hrun') as (_ & Hinv' & _).
  pose proof (inv_bound _ _ _ Hinv'). unfold MAX_CONCURRENT_UPLOADS in *. lia.
Qed.

(** Three items under a limit of 2: two are dispatched, the third waits
    until one of them has settled and its callback has run. *)
Lemma running_at_most_concurrency_sample :
  ∃ s, run idleWorker 2
         [Main; Main; Main; Main; Main; Settle 1 (); Finally 1; Main; Main; Main]
         (start [(); (); ()] ()) = Some s
       ∧ running s = [0; 2]
       ∧ (Z.of_nat (length (running s)) ≤ 2)%Z
       ∧ length (inFlight s) ≤ length (running s).
Proof.
  eexists. split; [by vm_compute|]. split; [done|].
  pose proof (running_at_most_concurrency idleWorker 2 [(); (); ()] ()
                [Main; Main; Main; Main; Main; Settle 1 (); Finally 1; Main; Main; Main]
                _ ltac:(lia) eq_refl) as (H1 & H2 & _).
  by split.
Defined.

Lemma finalized_when_returned {T O A} concurrency (items : list T) (s : Pool T O A) k item :
  PoolInv concurrency items s → control s = Returned → items !! k = Some item →
  called s = items ∧ ∃ o, promiseAt s k = Some (Finalized o).
Proof.
  intros Hinv Hctl Hk. destruct (inv_returned _ _ _ Hinv Hctl) as [Hq Hr].
  pose proof (inv_items _ _ _ Hinv) as Hitems. rewrite Hq, app_nil_r in Hitems.
  split; [done|]. rewrite <- Hitems in Hk. unfold called in Hk.
  rewrite list_lookup_fmap in Hk. unfold promiseAt.
  destruct (promises s !! k) as [[item' st]|] eqn:Hp; [|done].
  destruct st as [| |o]; [| |by exists o].
  - assert (k ∈ running s) as Hin by (apply (inv_running _ _ _ Hinv); eauto).
    rewrite Hr in Hin. by apply elem_of_nil in Hin.
  - assert (k ∈ running s) as Hin by (apply (inv_running _ _ _ Hinv); eauto).
    rewrite Hr in Hin. by apply elem_of_nil in Hin.
Qed.

Lemma expectedHistory_entries taskId p e :
  e ∈ expectedHistory taskId p →
  e.1.2 = StatusPending ∧ e.2 = StatusRunning
  ∨ e.1.2 = StatusRunning ∧ isTerminal e.2 = true.
Proof.
  destruct p as [[|o|o]|]; simpl; rewrite ?elem_of_cons, ?elem_of_nil;
    intros H; destruct_or?; subst; simpl; try done; auto;
    right; by destruct o.
Qed.

(** C2. For every batch of upload items and every concurrency limit (so
    also one smaller than the batch), in every state of the run: the
    items handed to the worker so far followed by the items still queued
    are the batch, in order, so no item is dispatched twice; the bridge
    has been called once for each item handed to the worker, with that
    item's path; the status assignments made since the batch began are,
    for the task of each item, none while the item is queued, one
    (pending to running) while its upload is pending, and two (pending to
    running, then running to completed or failed) once it has settled,
    and no assignment is of another kind (so none goes from running to
    running); under a limit of at least 1 some schedule leads the pool to
    return; and when the pool returns every item has been dispatched and
    every promise has settled. *)
Theorem upload_dispatched_exactly_once
    (sel : Selection) (filePaths : list string) (ts : TaskStore)
    (uw : Worker UploadItem UploadOutcome UploadApp)
    (s0 : Pool UploadItem UploadOutcome UploadApp) (concurrency : Z)
    (schedule : list (Event UploadOutcome)) (s : Pool UploadItem UploadOutcome UploadApp) :
  uploadFilesWithTasks sel filePaths ts = Some (uw, s0) →
  run uw concurrency schedule s0 = Some s →
  let items := queue s0 in
  length items = length filePaths
  ∧ called s ++ queue s = items
  ∧ argument "filePaths" <$> bridge (app s) = filePathsOf <$> called s
  ∧ (∃ log, statusLog (store (app s)) = statusLog ts ++ log
       ∧ (∀ e, e ∈ log →
            e.1.2 = StatusPending ∧ e.2 = StatusRunning
            ∨ e.1.2 = StatusRunning ∧ isTerminal e.2 = true)
       ∧ ∀ k item, items !! k = Some item →
           historyOf (task_id (task item)) log
           = expectedHistory (task_id (task item)) (promiseAt s k))
  ∧ ((1 ≤ concurrency)%Z →
       ∃ rest s', run uw concurrency rest s = Some s' ∧ control s' = Returned)
  ∧ (control s = Returned →
       called s = items
       ∧ ∀ k item, items !! k = Some item → ∃ o, promiseAt s k = Some (Finalized o)).
Proof.
  intros Hup Hrun items.
  pose proof (upload_run_returns _ _ _ _ _ _ _ _ Hup Hrun) as Hreturns.
  destruct (upload_invariants _ _ _ _ _ _ _ _ Hup Hrun)
    as (Hq & Hinv & pid & b & -> & batch & log & Htasks & Hlen & Hlog & Hbridge
        & _ & _ & Hown & Hall).
  unfold items. rewrite Hq. clear items.
  split; [apply uploadItems_length|].
  split; [apply (inv_items _ _ _ Hinv)|].
  split. { rewrite Hbridge, <- !list_fmap_compose. by apply list_fmap_ext. }
  split.
  { exists log. split; [done|]. split; [|intros k item Hk; apply (Hall _ _ Hk)].
    intros e He. destruct (Hown _ He) as (item & [k Hk]%list_elem_of_lookup_1 & Hid).
    destruct (Hall _ _ Hk) as [Hh _].
    apply (expectedHistory_entries (task_id (task item)) (promiseAt s k)).
    rewrite <- Hh. unfold historyOf. by apply list_elem_of_filter. }
  split; [done|].
  intros Hctl. split.
  - destruct (inv_returned _ _ _ Hinv Hctl) as [Hq' _].
    pose proof (inv_items _ _ _ Hinv) as Hitems. by rewrite Hq', app_nil_r in Hitems.
  - intros k item Hk. by eapply finalized_when_returned.
Qed.

(** C3. For every batch of upload items, in every state of the run: the
    pool has not thrown (a failed upload never rejects the worker's
    promise, so it never ends the batch); the tasks before the batch are
    untouched behind the batch's own tasks; the status and the error field
    of each item's task follow from the state of that item's upload alone,
    so a failed upload marks its own task failed and no other, and the
    task holds the reason of the failure (the error field is assigned
    under [if (error)], so an empty reason leaves it unset, which reads
    the same; the text shown is the reason, or Failed for the empty
    reason); while the
    pool has not returned a next step exists, some schedule leads it to
    return, and when it has returned every task of the batch is completed
    or failed according to its own upload. *)
Theorem upload_failure_is_isolated
    (sel : Selection) (filePaths : list string) (ts : TaskStore)
    (uw : Worker UploadItem UploadOutcome UploadApp)
    (s0 : Pool UploadItem UploadOutcome UploadApp) (concurrency : Z)
    (schedule : list (Event UploadOutcome)) (s : Pool UploadItem UploadOutcome UploadApp) :
  uploadFilesWithTasks sel filePaths ts = Some (uw, s0) →
  run uw concurrency schedule s0 = Some s →
  let items := queue s0 in
  control s ≠ Thrown
  ∧ (∃ batch, tasks (store (app s)) = batch ++ tasks ts ∧ length batch = length items)
  ∧ (∀ k item, items !! k = Some item →
       ∃ t, findTask (task_id (task item)) (tasks (store (app s))) = Some t
            ∧ task_status t = expectedStatus (promiseAt s k)
            ∧ task_error t = expectedError (promiseAt s k)
            ∧ ∀ reason, settledWith (promiseAt s k) (UploadRejected reason) →
                task_status t = StatusFailed
                ∧ errorText t = reason
                ∧ statusText t = failureText reason
                ∧ (reason ≠ EmptyString → task_error t = Some reason))
  ∧ (control s ≠ Returned → ∃ ev s', step uw concurrency ev s = Some s')
  ∧ ((1 ≤ concurrency)%Z →
       ∃ rest s', run uw concurrency rest s = Some s' ∧ control s' = Returned)
  ∧ (control s = Returned →
       ∀ k item, items !! k = Some item →
         ∃ o t, promiseAt s k = Some (Finalized o)
                ∧ findTask (task_id (task item)) (tasks (store (app s))) = Some t
                ∧ task_status t = terminalStatus o).
Proof.
  intros Hup Hrun items.
  destruct (upload_invariants _ _ _ _ _ _ _ _ Hup Hrun)
    as (Hq & Hinv & pid & b & -> & batch & log & Htasks & Hlen & Hlog & Hbridge
        & Hthrown & _ & Hown & Hall).
  unfold items. rewrite Hq. clear items.
  assert (∀ k item, uploadItems filePaths
            (newTasks (taskIdCounter ts) TypeUpload
               ((fun filePath => baseNameOr filePath filePath) <$> filePaths)) !! k = Some item →
          ∃ t, findTask (task_id (task item)) (tasks (store (app s))) = Some t
               ∧ task_status t = expectedStatus (promiseAt s k)
               ∧ task_error t = expectedError (promiseAt s k)) as Hfind.
  { intros k item Hk. destruct (Hall _ _ Hk) as (_ & t & Ht & Hst & Herr).
    exists t. rewrite Htasks. split; [by apply findTask_app_l|done]. }
  split; [done|]. split; [by exists batch|]. split.
  { intros k item Hk. destruct (Hfind _ _ Hk) as (t & Ht & Hst & Herr).
    exists t. split; [done|]. split; [done|]. split; [done|].
    intros reason Hs.
    assert (expectedStatus (promiseAt s k) = StatusFailed
            ∧ expectedError (promiseAt s k) = recordedReason (UploadRejected reason))
      as [Hes Hee] by (by destruct Hs as [-> | ->]).
    rewrite Hes in Hst. rewrite Hee in Herr. split; [done|].
    unfold statusText, errorText. rewrite Hst, Herr. by destruct reason. }
  split.
  { intros Hctl. apply (step_progress _ _ _ UploadResolved _ Hinv).
    by intros [|]. }
  split.
  { intros Hc. by eapply upload_run_returns. }
  intros Hctl k item Hk.
  destruct (finalized_when_returned _ _ _ _ _ Hinv Hctl Hk) as [_ [o Ho]].
  destruct (Hfind _ _ Hk) as (t & Ht & Hst & _).
  exists o, t. rewrite Ho in Hst. done.
Qed.

Lemma upload_dispatched_exactly_once_sample :
  ∃ s, uploadFilesWithTasks sampleSelection samplePaths emptyStore
       = Some (sampleWorker, sampleStart)
       ∧ run sampleWorker 1 sampleSchedule sampleStart = Some s
       ∧ control s = Returned
       ∧ called s ++ queue s = queue sampleStart
       ∧ statusLog (store (app s))
         = [("task-1", StatusPending, StatusRunning); ("task-1", StatusRunning, StatusFailed);
            ("task-2", StatusPending, StatusRunning); ("task-2", StatusRunning, StatusCompleted)].
Proof.
  assert (uploadFilesWithTasks sampleSelection samplePaths emptyStore
          = Some (sampleWorker, sampleStart)) as H1 by (vm_compute; reflexivity).
  destruct (run sampleWorker 1 sampleSchedule sampleStart) as [s|] eqn:H2;
    [|by vm_compute in H2].
  exists s. split; [done|]. split; [done|].
  pose proof (upload_dispatched_exactly_once _ _ _ _ _ _ _ _ H1 H2) as (_ & Hitems & _).
  vm_compute in H2. injection H2 as <-.
  split; [reflexivity|]. split; [exact Hitems|]. by vm_compute.
Defined.

Lemma upload_failure_is_isolated_sample :
  ∃ s, uploadFilesWithTasks sampleSelection samplePaths emptyStore
       = Some (sampleWorker, sampleStart)
       ∧ run sampleWorker 1 sampleSchedule sampleStart = Some s
       ∧ control s ≠ Thrown
       ∧ (task_status <$> tasks (store (app s))) = [StatusFailed; StatusCompleted]
       ∧ (task_error <$> tasks (store (app s))) = [Some "timeout"; None].
Proof.
  assert (uploadFilesWithTasks sampleSelection samplePaths emptyStore
          = Some (sampleWorker, sampleStart)) as H1 by (vm_compute; reflexivity).
  destruct (run sampleWorker 1 sampleSchedule sampleStart) as [s|] eqn:H2;
    [|by vm_compute in H2].
  exists s. split; [done|]. split; [done|].
  pose proof (upload_failure_is_isolated _ _ _ _ _ _ _ _ H1 H2) as (Hthrown & _).
  vm_compute in H2. injection H2 as <-.
  split; [exact Hthrown|]. split; by vm_compute.
Defined.

(** ** The one-shot sync *)

Section SyncOnce.

Variable d : Direction.
Variable deleteOrphans : bool.

Lemma planEntry_merge (l r : gmap string FileEntry) p :
  merge (planEntry d deleteOrphans) l r !! p = planEntry d deleteOrphans (l !! p) (r !! p).
Proof. rewrite lookup_merge. by destruct (l !! p), (r !! p). Qed.

Lemma planEntry_path l r k p :
  planEntry d deleteOrphans l r = Some k → opPath (k p) = p.
Proof.
  unfold planEntry. intros H.
  repeat (case_match; simplify_eq); done.
Qed.

Lemma planEntry_is_Some l r :
  is_Some (planEntry d deleteOrphans l r) ↔ is_Some l ∨ is_Some r.
Proof.
  unfold planEntry. split.
  - intros [k H]. destruct l, r; try done; eauto.
  - intros [[a ->]|[b ->]]; repeat (case_match; simplify_eq); eauto.
Qed.

Lemma elem_of_plannedOps l r op :
  op ∈ plannedOps d deleteOrphans l r ↔
  ∃ k, planEntry d deleteOrphans (l !! opPath op) (r !! opPath op) = Some k
       ∧ op = k (opPath op).
Proof.
  unfold plannedOps. rewrite list_elem_of_fmap. split.
  - intros ([p k] & -> & Hin). apply elem_of_map_to_list in Hin.
    rewrite planEntry_merge in Hin. simpl.
    rewrite (planEntry_path _ _ _ _ Hin). eauto.
  - intros (k & Hk & Hop). exists (opPath op, k). split; [done|].
    apply elem_of_map_to_list. by rewrite planEntry_merge.
Qed.

Lemma plannedOps_paths l r :
  opPath <$> plannedOps d deleteOrphans l r
  = (map_to_list (merge (planEntry d deleteOrphans) l r)).*1.
Proof.
  unfold plannedOps. rewrite <- list_fmap_compose.
  apply list_fmap_ext. intros i [p k] Hin%list_elem_of_lookup_2%elem_of_map_to_list.
  rewrite planEntry_merge in Hin. simpl. by eapply planEntry_path.
Qed.

Lemma plan_perm l r : plan d deleteOrphans l r ≡ₚ plannedOps d deleteOrphans l r.
Proof. unfold plan. apply filter_app_complement. Qed.

Lemma plan_NoDup l r : NoDup (opPath <$> plan d deleteOrphans l r).
Proof. rewrite plan_perm, plannedOps_paths. apply NoDup_fst_map_to_list. Qed.

Lemma elem_of_plan l r op :
  op ∈ plan d deleteOrphans l r ↔
  ∃ k, planEntry d deleteOrphans (l !! opPath op) (r !! opPath op) = Some k
       ∧ op = k (opPath op).
Proof. rewrite plan_perm. apply elem_of_plannedOps. Qed.

Lemma plan_length l r : length (plan d deleteOrphans l r) = totalEntries l r.
Proof.
  rewrite plan_perm. unfold plannedOps, totalEntries.
  rewrite length_fmap, length_map_to_list, <- size_dom. f_equal.
  apply set_eq. intros p.
  rewrite elem_of_dom, planEntry_merge, planEntry_is_Some, elem_of_union, !elem_of_dom.
  done.
Qed.

End SyncOnce.

Section SyncRuns.

Variable fails : SyncOperation → bool.
Variable clock : Z.

Lemma runOp_other st op p :
  p ≠ opPath op → entriesAt (runOp fails clock st op) p = entriesAt st p.
Proof.
  intros Hp. unfold entriesAt, runOp.
  destruct op as [q|q|q|q|q]; simpl in *;
    repeat case_match; simpl;
    rewrite ?lookup_insert_ne, ?lookup_delete_ne by done; try done.
Qed.

Lemma runOp_own st op :
  failedOps (runOp fails clock st op) = [] →
  entriesAt (runOp fails clock st op) (opPath op)
  = effect clock op (side_local st !! opPath op) (side_remote st !! opPath op).
Proof.
  unfold entriesAt, runOp.
  destruct op as [q|q|q|q|q]; simpl in *;
    repeat case_match; simpl;
    rewrite ?lookup_insert_eq, ?lookup_delete_eq; try done; intros Hf;
    first [ by apply app_eq_nil in Hf as [_ ?]
          | by repeat match goal with E : _ !! _ = _ |- _ => rewrite E; clear E end ].
Qed.

Lemma runOp_failedOps st op :
  length (failedOps st) ≤ length (failedOps (runOp fails clock st op)).
Proof.
  unfold runOp. destruct op; repeat case_match; simpl; rewrite ?length_app; simpl; lia.
Qed.

Lemma foldl_runOp_failedOps ops : ∀ st,
  length (failedOps st) ≤ length (failedOps (foldl (runOp fails clock) st ops)).
Proof.
  induction ops as [|op ops IH]; intros st; [done|]. simpl.
  etrans; [apply (runOp_failedOps st op)|apply IH].
Qed.

Lemma foldl_runOp_absent ops : ∀ st p,
  (∀ op, op ∈ ops → opPath op ≠ p) →
  entriesAt (foldl (runOp fails clock) st ops) p = entriesAt st p.
Proof.
  induction ops as [|op ops IH]; intros st p Hp; [done|]. simpl.
  rewrite IH by (intros ? ?; apply Hp; by right).
  apply runOp_other. intros ->. by apply (Hp op); [left|].
Qed.

Lemma foldl_runOp_present ops : ∀ st op,
  NoDup (opPath <$> ops) →
  failedOps (foldl (runOp fails clock) st ops) = [] → op ∈ ops →
  entriesAt (foldl (runOp fails clock) st ops) (opPath op)
  = effect clock op (side_local st !! opPath op) (side_remote st !! opPath op).
Proof.
  induction ops as [|op0 ops IH]; intros st op Hnd Hf Hin; [by apply elem_of_nil in Hin|].
  rewrite fmap_cons in Hnd. apply NoDup_cons in Hnd as [Hfresh Hnd]. cbn [foldl] in *.
  assert (failedOps (runOp fails clock st op0) = []) as Hf0.
  { pose proof (foldl_runOp_failedOps ops (runOp fails clock st op0)) as Hle.
    rewrite Hf in Hle. destruct (failedOps (runOp fails clock st op0)); [done|].
    simpl in Hle. lia. }
  apply elem_of_cons in Hin as [->|Hin].
  - rewrite foldl_runOp_absent.
    + by apply runOp_own.
    + intros op' Hin' Heq. apply Hfresh. rewrite <- Heq. by apply list_elem_of_fmap_2.
  - rewrite IH; [|done|done|done].
    assert (opPath op ≠ opPath op0) as Hne.
    { intros Heq. apply Hfresh. rewrite <- Heq. by apply list_elem_of_fmap_2. }
    pose proof (runOp_other st op0 _ Hne) as Ho. unfold entriesAt in Ho.
    by injection Ho as -> ->.
Qed.

Lemma foldl_runOp_skips ops : ∀ st,
  (∀ op, op ∈ ops → ∃ p, op = Skip p) →
  foldl (runOp fails clock) st ops
  = {| side_local := side_local st; side_remote := side_remote st;
       uploaded := uploaded st; downloaded := downloaded st; deleted := deleted st;
       skipped := skipped st + length ops; failedOps := failedOps st |}.
Proof.
  induction ops as [|op ops IH]; intros st Hs.
  - simpl. rewrite Nat.add_0_r. by destruct st.
  - destruct (Hs op) as [p ->]; [by left|]. simpl.
    rewrite IH by (intros; apply Hs; by right). simpl. f_equal. lia.
Qed.

End SyncRuns.

(** After a successful operation the planner has nothing left to do on
    the path of the operation. *)
Lemma planEntry_after d deleteOrphans clock l r k p :
  planEntry d deleteOrphans l r = Some k →
  planEntry d deleteOrphans (effect clock (k p) l r).1 (effect clock (k p) l r).2 = None
  ∨ planEntry d deleteOrphans (effect clock (k p) l r).1 (effect clock (k p) l r).2 = Some Skip.
Proof.
  unfold planEntry. intros H.
  destruct l as [a|], r as [b|], d, deleteOrphans; simpl in *;
    repeat (case_match; simplify_eq; simpl in * );
    rewrite ?decide_True by done; auto.
Qed.

Lemma sync_once_entries d deleteOrphans fails clock (l r : gmap string FileEntry) p :
  failedOps (sync_once d deleteOrphans fails clock l r) = [] →
  entriesAt (sync_once d deleteOrphans fails clock l r) p
  = match planEntry d deleteOrphans (l !! p) (r !! p) with
    | Some k => effect clock (k p) (l !! p) (r !! p)
    | None => (l !! p, r !! p)
    end.
Proof.
  intros Hf. unfold sync_once in *.
  destruct (planEntry d deleteOrphans (l !! p) (r !! p)) as [k|] eqn:Hk.
  - assert (k p ∈ plan d deleteOrphans l r) as Hin.
    { apply elem_of_plan. exists k. by rewrite (planEntry_path _ _ _ _ _ _ Hk). }
    pose proof (foldl_runOp_present fails clock _ (startSync l r) (k p)
                  (plan_NoDup d deleteOrphans l r) Hf Hin) as H.
    by rewrite (planEntry_path _ _ _ _ _ _ Hk) in H.
  - rewrite foldl_runOp_absent; [done|].
    intros op (k & Hk' & _)%elem_of_plan Heq. rewrite Heq in Hk'. by rewrite Hk in Hk'.
Qed.

(** C6, amended. Running the one-shot sync twice in a row, with no local or
    remote change between the two runs, after a first run in which no
    operation failed, yields a second result whose uploaded, downloaded and
    deleted counts are all 0 and whose skipped count equals the total
    number of entries (the paths of the two sides together); the second
    run leaves both sides as they were. This holds for every direction,
    with or without the deletion of orphans, whatever fails or not in the
    second run. *)
Theorem sync_once_idempotent
    (d : Direction) (deleteOrphans : bool) (fails1 fails2 : SyncOperation → bool)
    (clock1 clock2 : Z) (l r : gmap string FileEntry) :
  let first := sync_once d deleteOrphans fails1 clock1 l r in
  failedOps first = [] →
  let second :=
    sync_once d deleteOrphans fails2 clock2 (side_local first) (side_remote first) in
  uploaded second = 0 ∧ downloaded second = 0 ∧ deleted second = 0
  ∧ skipped second = totalEntries (side_local first) (side_remote first)
  ∧ failedOps second = []
  ∧ side_local second = side_local first ∧ side_remote second = side_remote first.
Proof.
  intros first Hf second.
  assert (∀ op, op ∈ plan d deleteOrphans (side_local first) (side_remote first) →
                ∃ p, op = Skip p) as Hskips.
  { intros op (k & Hk & Hop)%elem_of_plan. exists (opPath op). rewrite Hop at 1.
    pose proof (sync_once_entries d deleteOrphans fails1 clock1 l r (opPath op) Hf) as He.
    fold first in He. unfold entriesAt in He.
    destruct (planEntry d deleteOrphans (l !! opPath op) (r !! opPath op)) as [k0|] eqn:Hk0.
    - destruct (planEntry_after d deleteOrphans clock1 _ _ _ (opPath op) Hk0) as [Hn|Hs].
      + rewrite <- He in Hn. simpl in Hn. by rewrite Hn in Hk.
      + rewrite <- He in Hs. simpl in Hs. rewrite Hs in Hk. by injection Hk as <-.
    - injection He as Hl Hr. rewrite Hl, Hr in Hk. by rewrite Hk0 in Hk. }
  unfold second, sync_once. rewrite (foldl_runOp_skips _ _ _ _ Hskips). simpl.
  by rewrite plan_length.
Qed.

Lemma sync_once_idempotent_sample :
  let first := sync_once LocalToRemote false (fun _ => false) 20 sampleLocal ∅ in
  failedOps first = []
  ∧ uploaded first = 1
  ∧ let second :=
      sync_once LocalToRemote false (fun _ => false) 30 (side_local first) (side_remote first) in
    uploaded second = 0 ∧ downloaded second = 0 ∧ deleted second = 0
    ∧ skipped second = totalEntries (side_local first) (side_remote first)
    ∧ failedOps second = []
    ∧ side_local second = side_local first ∧ side_remote second = side_remote first.
Proof.
  split; [by vm_compute|]. split; [by vm_compute|].
  apply (sync_once_idempotent LocalToRemote false (fun _ => false) (fun _ => false)
           20 30 sampleLocal ∅).
  by vm_compute.
Defined.

(** C6, as stated, fails when an operation of the first run failed: with
    one local file and an empty remote side, a first run whose upload
    fails changes nothing, and the second run, on the same two sides,
    uploads the file instead of skipping it. *)
Lemma sync_once_retries_failed_upload :
  let first := sync_once LocalToRemote false (fun _ => true) 20 sampleLocal ∅ in
  let second :=
    sync_once LocalToRemote false (fun _ => false) 30 (side_local first) (side_remote first) in
  side_local first = sampleLocal ∧ side_remote first = ∅
  ∧ failedOps first = [Upload "a.txt"]
  ∧ uploaded second = 1 ∧ skipped second = 0
  ∧ totalEntries (side_local first) (side_remote first) = 1.
Proof. by vm_compute. Qed.

(** The scenarios A, B and C of the specification. *)
Example sync_scenario_A :
  let run := sync_once LocalToRemote false (fun _ => false) 20 sampleLocal ∅ in
  (uploaded run, downloaded run, deleted run, skipped run) = (1, 0, 0, 0)
  ∧ entry_fingerprint <$> side_remote run !! "a.txt" = Some (entry_fingerprint sampleEntry).
Proof. by vm_compute. Qed.

Example sync_scenario_B :
  let run := sync_once LocalToRemote false (fun _ => false) 20
               sampleLocal {[ "a.txt" := copied 5 sampleEntry ]} in
  (uploaded run, downloaded run, deleted run, skipped run) = (0, 0, 0, 1).
Proof. by vm_compute. Qed.

Example sync_scenario_C :
  let run := sync_once LocalToRemote false (fun _ => false) 20 sampleLocal
               {[ "a.txt" := {| entry_size := 1;
                                entry_fingerprint := "57cec4137b614c87cb4e24a3d003a3e0";
                                entry_mtime := 5 |} ]} in
  (uploaded run, downloaded run, deleted run, skipped run) = (1, 0, 0, 0)
  ∧ entry_fingerprint <$> side_remote run !! "a.txt" = Some (entry_fingerprint sampleEntry).
Proof. by vm_compute. Qed.

(** ** The completion event of a batch *)





(** Scenario A: one local file, uploaded; the event reports one upload,
    beside the fields the front end reads. *)
Example completed_event_sample :
  let event := completionEvent sampleCompleted
                 (sync_once LocalToRemote false (fun _ => false) 20 sampleLocal ∅) in
  event !! "uploaded" = Some (JNum 1) ∧ event !! "skipped" = Some (JNum 0)
  ∧ conforms SyncResult event = true ∧ conforms SyncCompletedPayload event = true
  ∧ syncCompletedMessage event = Some "Sync completed: 3 uploaded, 0 downloaded"
  ∧ conforms SyncResult sampleCompleted = false
  ∧ syncCompletedMessage (completionEvent ∅ (startSync ∅ ∅))
    = Some "Sync completed: undefined uploaded, undefined downloaded".
Proof. vm_compute. done. Qed.

(* ================================================================== *)
(** * Further properties of the front end *)
(* ================================================================== *)

(** ** The error panel *)

Lemma slice_window {A} (i : Z) (l : list A) :
  (0 ≤ i ≤ Z.max 0 (Z.of_nat (length l) - 5))%Z →
  slice i (i + 5) l = take 5 (drop (Z.to_nat i) l)
  ∧ length (slice i (i + 5) l) = Nat.min 5 (length l).
Proof.
  intros Hi. unfold slice, sliceBound.
  destruct (Z.ltb_spec i 0); [lia|]. destruct (Z.ltb_spec (i + 5) 0); [lia|].
  replace (Z.to_nat (Z.min i (Z.of_nat (length l)))) with (Z.to_nat i) by lia.
  split.
  - destruct (decide (Z.of_nat (length l) < i + 5)%Z) as [Hshort|Hlong].
    + rewrite !take_ge; [done| |]; rewrite length_drop; lia.
    + f_equal. lia.
  - rewrite length_take, length_drop. lia.
Qed.

Lemma scroll_index_step op st :
  (0 ≤ errorScrollIndex st ≤ Z.max 0 (Z.of_nat (length (errors st)) - 5))%Z →
  length (errors st) ≤ 50 →
  let st' := applyErrorOp op st in
  (0 ≤ errorScrollIndex st' ≤ Z.max 0 (Z.of_nat (length (errors st')) - 5))%Z.
Proof.
  intros Hi Hb. destruct op as [m| |d]; cbn [applyErrorOp].
  - change (errorScrollIndex (showError m st)) with (errorScrollIndex st).
    rewrite showError_errors. case_decide; simpl; [lia|].
    rewrite length_removelast. lia.
  - simpl. lia.
  - simpl. lia.
Qed.

Lemma scroll_index_run ops : ∀ st,
  (0 ≤ errorScrollIndex st ≤ Z.max 0 (Z.of_nat (length (errors st)) - 5))%Z →
  length (errors st) ≤ 50 →
  let st' := runErrorOps ops st in
  (0 ≤ errorScrollIndex st' ≤ Z.max 0 (Z.of_nat (length (errors st')) - 5))%Z.
Proof.
  induction ops as [|op ops IH]; intros st Hi Hb; [done|].
  apply IH; [by apply scroll_index_step|by apply applyErrorOp_bound].
Qed.

(** X1. After every sequence of [showError], [clearErrors] and
    [scrollErrors] calls (with any scroll distances), started from the
    empty log, the scroll index is between 0 and the number of messages
    minus 5 (0 when there are fewer than 5), so the panel drawn by
    [renderErrors] shows the five messages from the scroll index on, and
    all the messages when there are fewer than five: scrolling never
    leaves the panel short or empty while messages exist. *)
Theorem error_panel_window (ops : list ErrorOp) :
  let st := runErrorOps ops initialErrorLog in
  (0 ≤ errorScrollIndex st ≤ Z.max 0 (Z.of_nat (length (errors st)) - 5))%Z
  ∧ visibleErrors st = take 5 (drop (Z.to_nat (errorScrollIndex st)) (errors st))
  ∧ length (visibleErrors st) = Nat.min 5 (length (errors st)).
Proof.
  intros st.
  assert (0 ≤ errorScrollIndex st ≤ Z.max 0 (Z.of_nat (length (errors st)) - 5))%Z as Hi.
  { apply scroll_index_run; simpl; lia. }
  split; [done|]. by apply slice_window.
Qed.

(** Scrolling past either end stops at the end. *)
Example error_panel_scroll :
  let st := runErrorOps (OpShowError <$> (pretty <$> seq 0 7)) initialErrorLog in
  visibleErrors (scrollErrors 10 st) = ["4"; "3"; "2"; "1"; "0"]
  ∧ visibleErrors (scrollErrors (-10) (scrollErrors 10 st)) = ["6"; "5"; "4"; "3"; "2"].
Proof. vm_compute. done. Qed.

Lemma occurrences_app c s t :
  occurrences c (s +:+ t) = occurrences c s + occurrences c t.
Proof.
  induction s as [|a s IH]; [done|]. rewrite str_app_cons. simpl. rewrite IH. lia.
Qed.

Lemma occurrences_escapeHtml c str :
  c ∈ ["<"; ">"; dquote]%char → occurrences c (escapeHtml str) = 0.
Proof.
  intros Hc. rewrite escapeHtml_escapeEach.
  induction str as [|a str IH]; [done|].
  simpl. rewrite occurrences_app, IH, Nat.add_0_r.
  pose proof (escapeChar_no_markup a c Hc) as Hno.
  induction (escapeChar a) as [|b s IHs]; [done|].
  simpl in *. rewrite not_elem_of_cons in Hno. destruct Hno as [Hcb Hs].
  destruct (Ascii.eqb_spec b c); [congruence|]. by rewrite IHs.
Qed.

Lemma occurrences_errorItem c e :
  c ∈ ["<"; ">"; dquote]%char → occurrences c (errorItem e) = 2.
Proof.
  intros Hc. unfold errorItem.
  rewrite !occurrences_app, occurrences_escapeHtml by done.
  rewrite !elem_of_cons, elem_of_nil in Hc.
  destruct Hc as [->|[->|[->|[]]]]; reflexivity.
Qed.

(** X2. Whatever the messages of the log contain, the HTML text that
    [renderErrors] writes holds exactly two [<], two [>] and two double
    quotes for each message shown, those of the item template: a message
    is escaped before it is inserted, so it adds no tag and closes no
    attribute. *)
Theorem renderErrors_markup (st : ErrorLog) (c : ascii) :
  c ∈ ["<"; ">"; dquote]%char →
  occurrences c (renderErrors st) = 2 * length (visibleErrors st).
Proof.
  intros Hc. unfold renderErrors, joinEmpty.
  induction (visibleErrors st) as [|e l IH]; [done|].
  cbn [fmap list_fmap foldr length].
  rewrite occurrences_app, IH, occurrences_errorItem by done. lia.
Qed.

Lemma renderErrors_markup_sample :
  let st := showError "<img src=x onerror=alert(1)>" initialErrorLog in
  renderErrors st
  = "<div class=" +:+ String dquote "error-item" +:+ String dquote ">"
    +:+ "&lt;img src=x onerror=alert(1)&gt;</div>"
  ∧ occurrences "<" (renderErrors st) = 2 * 1.
Proof.
  split; [reflexivity|].
  apply (renderErrors_markup (showError "<img src=x onerror=alert(1)>" initialErrorLog) "<").
  rewrite !elem_of_cons. by left.
Defined.

(** ** The task list *)

Lemma assignFirst_ids taskId f l :
  (∀ x, task_id (f x) = task_id x) →
  task_id <$> assignFirst taskId f l = task_id <$> l.
Proof.
  intros Hf. induction l as [|x l IH]; [done|]. cbn [assignFirst].
  destruct (decide (task_id x = taskId)); rewrite !fmap_cons; [by rewrite Hf|by rewrite IH].
Qed.

Lemma assignFirst_absent taskId f l :
  taskId ∉ task_id <$> l → assignFirst taskId f l = l.
Proof.
  induction l as [|x l IH]; [done|]. rewrite fmap_cons, not_elem_of_cons.
  intros [Hx Hl]. simpl. rewrite decide_False by done. by rewrite IH.
Qed.

Lemma assignFirst_NoDup taskId f l :
  NoDup (task_id <$> l) →
  assignFirst taskId f l = (fun t => if decide (task_id t = taskId) then f t else t) <$> l.
Proof.
  induction l as [|x l IH]; [done|]. rewrite fmap_cons. intros [Hx Hl]%NoDup_cons.
  simpl. destruct (decide (task_id x = taskId)) as [Heq|Hne].
  - f_equal. rewrite <- (assignFirst_absent taskId f l) at 1 by by rewrite <- Heq.
    by rewrite IH.
  - by rewrite IH.
Qed.

Lemma findTask_None taskId l : findTask taskId l = None ↔ taskId ∉ task_id <$> l.
Proof.
  induction l as [|x l IH]; [split; [intros _ ?%elem_of_nil|]; done|].
  rewrite findTask_cons, fmap_cons, not_elem_of_cons.
  destruct (decide (task_id x = taskId)) as [Heq|Hne]; [split; [done|by intros [? _]]|].
  rewrite IH. split; [by intros ?; split|by intros [_ ?]].
Qed.

Lemma newTasks_ids type fileNames n t :
  t ∈ newTasks n type fileNames →
  ∃ m, n < m ≤ n + length fileNames ∧ task_id t = taskIdOf m.
Proof.
  intros [k Hk]%list_elem_of_lookup_1.
  pose proof (lookup_lt_Some _ _ _ Hk) as Hlt. rewrite newTasks_length in Hlt.
  apply newTasks_lookup in Hk as (f&_&->). exists (S (n + k)). split; [lia|done].
Qed.

Lemma idsInUse_fresh st m :
  idsInUse st → taskIdCounter st < m → taskIdOf m ∉ task_id <$> tasks st.
Proof.
  intros [_ Hids] Hm (t&Heq&Ht)%list_elem_of_fmap.
  destruct (Hids t Ht) as (n&Hn&Hid). rewrite Hid in Heq.
  apply taskIdOf_inj in Heq. lia.
Qed.

Lemma applyTaskOp_idsInUse op st : idsInUse st → idsInUse (applyTaskOp op st).
Proof.
  intros Hin. pose proof Hin as [Hnd Hids].
  destruct op as [type fileName|type fileNames|taskId status error|]; cbn [applyTaskOp].
  - unfold addTask. cbn [snd]. split; cbn [tasks taskIdCounter].
    + rewrite fmap_cons. apply NoDup_cons. split; [|done].
      apply idsInUse_fresh; [done|lia].
    + intros t [->|Ht]%elem_of_cons.
      * exists (S (taskIdCounter st)). split; [lia|done].
      * destruct (Hids t Ht) as (n&Hn&Hid). exists n. split; [lia|done].
  - unfold addTasksBatch. cbn [snd]. split; cbn [tasks taskIdCounter].
    + rewrite fmap_app. apply NoDup_app. split; [apply newTasks_NoDup|]. split; [|done].
      intros tid (t&->&Ht)%list_elem_of_fmap.
      apply newTasks_ids in Ht as (m&Hm&->). apply idsInUse_fresh; [done|lia].
    + intros t [Ht|Ht]%elem_of_app.
      * apply newTasks_ids in Ht as (m&Hm&Hid). exists m. split; [lia|done].
      * destruct (Hids t Ht) as (n&Hn&Hid). exists n. split; [lia|done].
  - unfold updateTaskStatus. destruct (findTask taskId (tasks st)) as [found|]; [|done].
    split; cbn [tasks taskIdCounter].
    + by rewrite assignFirst_ids.
    + rewrite assignFirst_NoDup by done. intros t (x&->&Hx)%list_elem_of_fmap.
      destruct (Hids x Hx) as (n&Hn&Hid). exists n. split; [done|].
      by destruct (decide (task_id x = taskId)).
  - unfold clearCompletedTasks. split; cbn [tasks taskIdCounter].
    + eapply sublist_NoDup; [done|]. apply fmap_sublist, sublist_filter.
    + intros t [_ Ht]%list_elem_of_filter. by apply Hids.
Qed.

Lemma runTaskOps_idsInUse ops : ∀ st, idsInUse st → idsInUse (runTaskOps ops st).
Proof.
  induction ops as [|op ops IH]; intros st Hin; [done|].
  apply IH. by apply applyTaskOp_idsInUse.
Qed.

Lemma emptyStore_idsInUse : idsInUse emptyStore.
Proof. split; simpl; [constructor|]. by intros t ?%elem_of_nil. Qed.

(** X3. After every sequence of [addTask], [addTasksBatch],
    [updateTaskStatus] and [clearCompletedTasks] calls, started from the
    empty list, no two tasks of the list have the same id, every id is
    [task-n] for a counter value n between 1 and [taskIdCounter], and the
    ids that the next [addTask] or [addTasksBatch] draws are new: none is
    the id of a task in the list, also after tasks have been cleared,
    because the counter is never reset. *)
Theorem task_ids_unique (ops : list TaskOp) :
  let st := runTaskOps ops emptyStore in
  NoDup (task_id <$> tasks st)
  ∧ (∀ t, t ∈ tasks st → ∃ n, 1 ≤ n ≤ taskIdCounter st ∧ task_id t = taskIdOf n)
  ∧ (∀ type fileName, task_id (addTask type fileName st).1 ∉ task_id <$> tasks st)
  ∧ (∀ type fileNames t, t ∈ (addTasksBatch type fileNames st).1 →
       task_id t ∉ task_id <$> tasks st)
  ∧ (∀ type fileNames, NoDup (task_id <$> (addTasksBatch type fileNames st).1)).
Proof.
  intros st.
  pose proof (runTaskOps_idsInUse ops _ emptyStore_idsInUse) as Hin. fold st in Hin.
  split; [apply Hin|]. split; [apply Hin|]. split; [|split].
  - intros type fileName. simpl. apply idsInUse_fresh; [done|lia].
  - intros type fileNames t Ht. simpl in Ht.
    apply newTasks_ids in Ht as (m&Hm&->). apply idsInUse_fresh; [done|lia].
  - intros type fileNames. apply newTasks_NoDup.
Qed.

(** X4. In a task list built by those calls, [updateTaskStatus] changes
    the status (and, when an error text is passed, the error) of the task
    with the given id and of no other task: [find] stops at the first
    match, and there is no second one. It never adds, removes or reorders
    tasks, and for an id that is not in the list (a task cleared
    meanwhile) it does nothing at all. *)
Theorem updateTaskStatus_exact (ops : list TaskOp) (taskId : string)
    (status : TaskStatus) (error : option string) :
  let st := runTaskOps ops emptyStore in
  let st' := updateTaskStatus taskId status error st in
  tasks st'
    = (fun t => if decide (task_id t = taskId) then setStatus status error t else t)
      <$> tasks st
  ∧ task_id <$> tasks st' = task_id <$> tasks st
  ∧ taskIdCounter st' = taskIdCounter st
  ∧ (taskId ∉ task_id <$> tasks st → st' = st)
  ∧ (∀ t, findTask taskId (tasks st) = Some t →
       findTask taskId (tasks st') = Some (setStatus status error t)).
Proof.
  intros st st'.
  pose proof (runTaskOps_idsInUse ops _ emptyStore_idsInUse) as [Hnd _]. fold st in Hnd.
  unfold st', updateTaskStatus.
  destruct (findTask taskId (tasks st)) as [found|] eqn:Hfind; simpl.
  - split; [by apply assignFirst_NoDup|]. split; [by apply assignFirst_ids|].
    split; [done|]. split.
    + intros Hno. apply findTask_None in Hno. congruence.
    + intros t [= <-]. by apply findTask_assignFirst_eq.
  - apply findTask_None in Hfind.
    split; [by rewrite <- (assignFirst_NoDup _ _ _ Hnd), assignFirst_absent|].
    by repeat split.
Qed.

Lemma countStatus_filter_other status (P : Task → Prop) `{∀ t, Decision (P t)} l :
  (∀ t, task_status t = status → ¬ P t) → countStatus status (filter P l) = 0.
Proof.
  intros HP. unfold countStatus. apply length_zero_iff_nil.
  induction l as [|x l IH]; [done|].
  rewrite filter_cons. case_decide as Hx; [|done].
  rewrite filter_cons. case_decide as Hs; [by destruct (HP x)|done].
Qed.

Lemma filter_active_length l :
  length (filter (fun t => task_status t ≠ StatusCompleted ∧ task_status t ≠ StatusFailed) l)
  + (countStatus StatusCompleted l + countStatus StatusFailed l) = length l.
Proof.
  unfold countStatus. induction l as [|x l IH]; [done|].
  rewrite !filter_cons. destruct (task_status x) eqn:Hs;
    repeat case_decide; simpl; try lia; try congruence; tauto.
Qed.

Lemma findTask_filter (P : Task → Prop) `{∀ t, Decision (P t)} taskId l t :
  findTask taskId l = Some t → P t → findTask taskId (filter P l) = Some t.
Proof.
  induction l as [|x l IH]; [done|]. rewrite findTask_cons, filter_cons.
  destruct (decide (task_id x = taskId)) as [Heq|Hne].
  - intros [= ->] Ht. rewrite decide_True by done. by rewrite findTask_cons, decide_True.
  - intros Hfind Ht. case_decide; [rewrite findTask_cons, decide_False by done|]; by apply IH.
Qed.

(** X5. [clearCompletedTasks] removes the completed and the failed tasks
    and nothing else: what stays are the pending and running tasks, in
    their order; the progress line then counts 0 done, out of a total that
    is the old total minus the old done count; a task that is pending or
    running is still found under its id, unchanged, so the status update
    of an operation in flight still reaches it; clearing a second time
    changes nothing. *)
Theorem clearCompletedTasks_keeps_active (st : TaskStore) :
  let st' := clearCompletedTasks st in
  (∀ t, t ∈ tasks st' ↔ t ∈ tasks st ∧ isTerminal (task_status t) = false)
  ∧ tasks st' `sublist_of` tasks st
  ∧ progressDone st' = 0
  ∧ length (tasks st') + progressDone st = length (tasks st)
  ∧ (∀ taskId t, findTask taskId (tasks st) = Some t →
       isTerminal (task_status t) = false → findTask taskId (tasks st') = Some t)
  ∧ clearCompletedTasks st' = st'.
Proof.
  intros st'. unfold st', clearCompletedTasks; simpl.
  split.
  { intros t. rewrite list_elem_of_filter.
    split; intros [H1 H2]; (split; [|done]) || split; try done;
      destruct (task_status t); simpl in *; try done; try tauto; by split. }
  split; [apply sublist_filter|].
  split.
  { unfold progressDone. simpl.
    rewrite !countStatus_filter_other; [done| |]; intros t Ht [H1 H2]; congruence. }
  split; [apply filter_active_length|].
  split.
  { intros taskId t Hfind Hact. apply findTask_filter; [done|].
    destruct (task_status t); done. }
  f_equal. apply list_filter_filter_l. by intros t [? ?].
Qed.

(** Two uploads done and one running: the line reads 2 / 3 before the
    list is cleared and 0 / 1 after. *)
Example clearCompletedTasks_progress :
  let st := runTaskOps
    [OpAddTasksBatch TypeUpload ["a"; "b"; "c"];
     OpUpdateTaskStatus "task-1" StatusCompleted None;
     OpUpdateTaskStatus "task-2" StatusFailed (Some "denied");
     OpUpdateTaskStatus "task-3" StatusRunning None] emptyStore in
  taskProgressText st = "2 / 3 completed"
  ∧ taskProgressText (clearCompletedTasks st) = "0 / 1 completed"
  ∧ task_id <$> tasks (clearCompletedTasks st) = ["task-3"].
Proof. vm_compute. done. Qed.

(** ** The task pool: rejections, full slots, limits below 1 *)

Section PoolEdges.

Context {T O A : Type}.
Variable w : Worker T O A.
Variable concurrency : Z.

Lemma step_slotsUsed (items : list T) ev s s' :
  PoolInv concurrency items s → slotsUsed concurrency s →
  step w concurrency ev s = Some s' → slotsUsed concurrency s'.
Proof.
  unfold slotsUsed. intros Hinv Hused Hstep Hc'.
  destruct ev as [|p o|p]; simpl in Hstep.
  - destruct (control s) eqn:Hc; try done.
    + destruct (_ || _); injection Hstep as <-; done.
    + destruct (_ && _).
      * destruct (queue s) as [|item rest]; [done|]. injection Hstep as <-. done.
      * injection Hstep as <-. done.
    + destruct (bool_decide _); injection Hstep as <-; [|done].
      simpl. by apply (inv_if _ _ _ Hinv).
    + injection Hstep as <-. by destruct rejected.
  - destruct (synchronous (control s)); [done|].
    destruct (promises s !! p) as [[item [| |]]|]; try done.
    injection Hstep as <-. simpl in *. by apply Hused.
  - destruct (synchronous (control s)); [done|].
    destruct (promises s !! p) as [[item [| |]]|]; try done.
    injection Hstep as <-. simpl in *. by destruct (control s).
Qed.

Lemma run_slotsUsed (items : list T) schedule : ∀ s s',
  PoolInv concurrency items s → slotsUsed concurrency s →
  run w concurrency schedule s = Some s' → slotsUsed concurrency s'.
Proof.
  induction schedule as [|ev rest IH]; intros s s' Hinv Hused Hrun; simpl in Hrun.
  - by injection Hrun as <-.
  - destruct (step w concurrency ev s) as [s1|] eqn:Hstep; [|done].
    eapply IH; [by eapply step_inv|by eapply step_slotsUsed|done].
Qed.

Lemma step_slotFreed (items : list T) ev s s' :
  PoolInv concurrency items s → slotFreed concurrency s →
  step w concurrency ev s = Some s' → slotFreed concurrency s'.
Proof.
  unfold slotFreed. intros Hinv Hfreed Hstep r Hc'.
  destruct ev as [|p o|p]; simpl in Hstep.
  - destruct (control s) eqn:Hc; try done.
    + destruct (_ || _); injection Hstep as <-; done.
    + destruct (_ && _).
      * destruct (queue s) as [|item rest]; [done|]. injection Hstep as <-. done.
      * injection Hstep as <-. done.
    + destruct (bool_decide _); injection Hstep as <-; done.
    + injection Hstep as <-. by destruct rejected.
  - destruct (synchronous (control s)); [done|].
    destruct (promises s !! p) as [[item [| |]]|]; try done.
    injection Hstep as <-. simpl in *. by eapply Hfreed.
  - destruct (synchronous (control s)); [done|].
    destruct (promises s !! p) as [[item [| |]]|] eqn:Hp; try done.
    injection Hstep as <-. simpl in *.
    assert (p ∈ running s) as Hin by (apply (inv_running _ _ _ Hinv); eauto).
    pose proof (finallyCallback_length _ _ Hin) as Hlen.
    pose proof (inv_bound _ _ _ Hinv) as Hb. lia.
Qed.

Lemma run_slotFreed (items : list T) schedule : ∀ s s',
  PoolInv concurrency items s → slotFreed concurrency s →
  run w concurrency schedule s = Some s' → slotFreed concurrency s'.
Proof.
  induction schedule as [|ev rest IH]; intros s s' Hinv Hfreed Hrun; simpl in Hrun.
  - by injection Hrun as <-.
  - destruct (step w concurrency ev s) as [s1|] eqn:Hstep; [|done].
    eapply IH; [by eapply step_inv|by eapply step_slotFreed|done].
Qed.

Lemma step_idleAt (items : list T) (a : A) ev s s' :
  (concurrency ≤ 0)%Z → idleAt items a s →
  step w concurrency ev s = Some s' → ev = Main ∧ idleAt items a s'.
Proof.
  intros Hc (Hq&Hr&Hp&Ha&Hctl) Hstep.
  destruct ev as [|p o|p]; simpl in Hstep.
  - split; [done|]. destruct (control s) eqn:Hcs; try done.
    + rewrite Hr in Hstep. simpl in Hstep.
      destruct (bool_decide (0 < length (queue s))) eqn:Hne; injection Hstep as <-;
        repeat split; simpl; try done; [by left|].
      right. split; [done|]. apply bool_decide_eq_false in Hne.
      rewrite <- Hq. destruct (queue s); [done|simpl in Hne; lia].
    + rewrite Hr in Hstep. simpl in Hstep.
      rewrite bool_decide_eq_false_2 in Hstep by lia. simpl in Hstep.
      injection Hstep as <-. repeat split; simpl; try done. by left.
    + rewrite Hr in Hstep. simpl in Hstep.
      injection Hstep as <-. repeat split; simpl; try done. by left.
    + by destruct Hctl as [?|[? _]].
  - destruct (synchronous (control s)); [done|]. by rewrite Hp in Hstep.
  - destruct (synchronous (control s)); [done|]. by rewrite Hp in Hstep.
Qed.

Lemma run_idleAt (items : list T) (a : A) schedule : ∀ s s',
  (concurrency ≤ 0)%Z → idleAt items a s →
  run w concurrency schedule s = Some s' → idleAt items a s'.
Proof.
  induction schedule as [|ev rest IH]; intros s s' Hc Hidle Hrun; simpl in Hrun.
  - by injection Hrun as <-.
  - destruct (step w concurrency ev s) as [s1|] eqn:Hstep; [|done].
    eapply IH; [done| |done]. by eapply step_idleAt.
Qed.

Lemma run_idleAt_main (items : list T) (a : A) schedule : ∀ s s',
  (concurrency ≤ 0)%Z → idleAt items a s →
  run w concurrency schedule s = Some s' → ∀ ev, ev ∈ schedule → ev = Main.
Proof.
  induction schedule as [|ev rest IH]; intros s s' Hc Hidle Hrun e He;
    [by apply elem_of_nil in He|].
  simpl in Hrun. destruct (step w concurrency ev s) as [s1|] eqn:Hstep; [|done].
  destruct (step_idleAt _ _ _ _ _ Hc Hidle Hstep) as [-> Hidle1].
  apply elem_of_cons in He as [->|He]; [done|]. by eapply IH.
Qed.

End PoolEdges.

(** X6. [runWithConcurrency] rejects only because a promise it raced has
    rejected: in every state of a run in which the function has thrown,
    some worker's promise has settled with an outcome on which the worker
    rejects. Once it has thrown it runs no further statement: the items
    still queued are never handed to the worker, whatever happens later,
    while the promises in flight still settle. With a worker that never
    rejects the function never throws. *)
Theorem runWithConcurrency_throws_on_rejection {T O A : Type}
    (w : Worker T O A) (concurrency : Z) (items : list T) (a : A)
    (schedule : list (Event O)) (s : Pool T O A) :
  run w concurrency schedule (start items a) = Some s →
  (control s = Thrown →
     (∃ k item o, promises s !! k = Some (item, Finalized o) ∧ rejects w item o = true)
     ∧ ∀ later s', run w concurrency later s = Some s' →
         (Main ∉ later) ∧ control s' = Thrown
         ∧ queue s' = queue s ∧ called s' = called s)
  ∧ ((∀ item o, rejects w item o = false) → control s ≠ Thrown).
Proof.
  intros Hrun. split.
  - intros Hc. split.
    + apply (run_rejectionSeen w concurrency schedule _ _) in Hrun; [|done].
      apply Hrun. by rewrite Hc.
    + intros later s' Hlater. by apply (run_thrown w concurrency later s).
  - intros Hnever Hc.
    apply (run_never_thrown w concurrency schedule _ _ Hnever) in Hrun; [|done].
    by rewrite Hc in Hrun.
Qed.

(** Two items under a limit of 1: the first upload is rejected, the
    function throws, and the second item stays in the queue. *)
Lemma runWithConcurrency_throws_on_rejection_sample :
  ∃ s, run rejectingWorker 1 [Main; Main; Main; Main; Settle 0 true; Finally 0; Main]
         (start [(); ()] ()) = Some s
       ∧ control s = Thrown ∧ queue s = [()]
       ∧ ∃ k item o, promises s !! k = Some (item, Finalized o)
                     ∧ rejects rejectingWorker item o = true.
Proof.
  eexists. split; [by vm_compute|]. split; [done|]. split; [done|].
  pose proof (runWithConcurrency_throws_on_rejection rejectingWorker 1 [(); ()] ()
                [Main; Main; Main; Main; Settle 0 true; Finally 0; Main] _ eq_refl)
    as [Hthrown _].
  by destruct (Hthrown eq_refl) as [Hseen _].
Defined.

(** X7. Under a limit N of at least 1, while [runWithConcurrency] is
    suspended at its await and the race is still pending (no finally
    callback has run since it suspended), [running] is not empty, and if
    items are still queued it holds exactly N promises: the inner loop
    fills every free slot before the function waits, so until a promise
    settles an item never waits beside a free slot. Once a finally
    callback has run, and until the function resumes, [running] holds
    fewer than N promises, whether items are queued or not: the callback
    frees the slot before the function is resumed, and the slot is
    refilled only by the inner loop after that. *)
Theorem runWithConcurrency_fills_slots {T O A : Type}
    (w : Worker T O A) (concurrency : Z) (items : list T) (a : A)
    (schedule : list (Event O)) (s : Pool T O A) :
  (1 ≤ concurrency)%Z →
  run w concurrency schedule (start items a) = Some s →
  (control s = Awaiting →
     running s ≠ []
     ∧ (queue s ≠ [] → Z.of_nat (length (running s)) = concurrency))
  ∧ (∀ rejected, control s = Resuming rejected →
       (Z.of_nat (length (running s)) < concurrency)%Z).
Proof.
  intros Hc Hrun.
  pose proof (run_inv w concurrency items schedule _ _ (start_inv _ _ _) Hrun) as Hinv.
  split.
  - intros Hctl. split; [by apply (inv_awaiting _ _ _ Hinv)|]. intros Hq.
    assert (slotsUsed concurrency s) as Hused.
    { eapply (run_slotsUsed w concurrency items schedule); [apply start_inv| |done]. done. }
    pose proof (inv_bound _ _ _ Hinv) as Hb.
    destruct (decide (Z.of_nat (length (running s)) < concurrency)%Z) as [Hlt|Hge]; [|lia].
    by destruct (Hused Hctl).
  - intros rejected Hctl.
    assert (slotFreed concurrency s) as Hfreed.
    { eapply (run_slotFreed w concurrency items schedule); [apply start_inv| |done]. done. }
    specialize (Hfreed _ Hctl). lia.
Qed.

(** Three items under a limit of 2: at the first await two promises run
    and one item waits; when the first promise has settled and its
    callback has run, one promise is left in [running] beside the waiting
    item, until the function resumes and dispatches that item. *)
Lemma runWithConcurrency_fills_slots_sample :
  ∃ s1 s2 s3,
    run idleWorker 2 [Main; Main; Main; Main; Main] (start [(); (); ()] ()) = Some s1
    ∧ control s1 = Awaiting ∧ queue s1 = [()]
    ∧ Z.of_nat (length (running s1)) = 2%Z
    ∧ run idleWorker 2 [Settle 0 (); Finally 0] s1 = Some s2
    ∧ control s2 = Resuming false ∧ queue s2 = [()]
    ∧ (Z.of_nat (length (running s2)) < 2)%Z
    ∧ run idleWorker 2 [Main; Main; Main; Main; Main] s2 = Some s3
    ∧ control s3 = Awaiting ∧ queue s3 = [] ∧ length (running s3) = 2.
Proof.
  eexists _, _, _. split; [by vm_compute|]. split; [done|]. split; [done|].
  split.
  { by apply (runWithConcurrency_fills_slots idleWorker 2 [(); (); ()] ()
                [Main; Main; Main; Main; Main] _ ltac:(lia) eq_refl). }
  split; [by vm_compute|]. split; [done|]. split; [done|].
  split.
  { by apply (runWithConcurrency_fills_slots idleWorker 2 [(); (); ()] ()
                [Main; Main; Main; Main; Main; Settle 0 (); Finally 0] _
                ltac:(lia) eq_refl) with false. }
  split; [by vm_compute|]. done.
Defined.

(** X8. With a concurrency limit of 0 or less [runWithConcurrency] never
    calls the worker: in every state of every run the queue still holds
    all the items, no promise exists and the application state is
    untouched. For an empty list it returns at once; for a list with at
    least one item it never returns nor throws, it never reaches its
    await, so no other code gets to run, and its next statement is always
    ready: it loops forever. *)
Theorem runWithConcurrency_without_slots {T O A : Type}
    (w : Worker T O A) (concurrency : Z) (items : list T) (a : A)
    (schedule : list (Event O)) (s : Pool T O A) :
  (concurrency ≤ 0)%Z →
  run w concurrency schedule (start items a) = Some s →
  queue s = items ∧ promises s = [] ∧ running s = [] ∧ app s = a
  ∧ (∀ ev, ev ∈ schedule → ev = Main)
  ∧ (items = [] → run w concurrency [Main] (start items a) = Some (setControl Returned (start items a)))
  ∧ (items ≠ [] →
       ¬ terminated s ∧ control s ≠ Awaiting
       ∧ ∃ s', step w concurrency Main s = Some s').
Proof.
  intros Hc Hrun.
  assert (idleAt items a (start (O:=O) items a)) as Hidle0.
  { repeat split. by left. }
  pose proof (run_idleAt w concurrency items a schedule _ _ Hc Hidle0 Hrun)
    as (Hq&Hr&Hp&Ha&Hctl).
  split; [done|]. split; [done|]. split; [done|]. split; [done|]. split.
  { by apply (run_idleAt_main w concurrency items a schedule _ _ Hc Hidle0 Hrun). }
  split; [by intros ->|].
  intros Hne. destruct Hctl as [Hsync|[_ ?]]; [|done].
  split; [intros [Hret|Hthr]; by rewrite ?Hret, ?Hthr in Hsync|].
  split; [intros Haw; by rewrite Haw in Hsync|].
  simpl. destruct (control s); try done.
  - destruct (_ || _); eauto.
  - rewrite Hr. simpl. rewrite bool_decide_eq_false_2 by lia. simpl. eauto.
  - destruct (bool_decide _); eauto.
Qed.

Lemma runWithConcurrency_without_slots_sample :
  ∃ s, run idleWorker 0 [Main; Main; Main; Main; Main; Main] (start [(); ()] ()) = Some s
       ∧ queue s = [(); ()] ∧ promises s = [] ∧ ¬ terminated s.
Proof.
  eexists. split; [by vm_compute|].
  pose proof (runWithConcurrency_without_slots idleWorker 0 [(); ()] ()
                [Main; Main; Main; Main; Main; Main] _ ltac:(lia) eq_refl)
    as (Hq&Hp&_&_&_&_&Hloop).
  split; [done|]. split; [done|]. by destruct Hloop as [Hnot _].
Defined.

(** ** Clearing the search box *)

Lemma armed_clearSearchAt st t v L t' T :
  armed st t v L → (t ≤ t' < t + 300)%Z → (t + 300 ≤ T)%Z →
  let cleared := clearSearchAt t' st in
  searchPrefix cleared = EmptyString
  ∧ loads cleared = L
  ∧ timer_value <$> timers cleared = [v]
  ∧ searchPrefix (elapse T cleared) = v
  ∧ loads (elapse T cleared) = L ++ [((t + 300)%Z, v)]
  ∧ timers (elapse T cleared) = [].
Proof.
  intros (Hnow & Hl & id & Htm & Hsto & Hnid) Ht HT.
  destruct st as [n tms nid sto sp ct th ls]; simpl in *. subst.
  unfold clearSearchAt, clearSearch, elapse; simpl.
  rewrite !filter_cons, !filter_nil; simpl.
  destruct (decide (dueBy t' _)) as [Hd|Hd]; [unfold dueBy in Hd; simpl in Hd; lia|].
  destruct (decide (¬ dueBy t' _)) as [_|Hd']; [|tauto]. simpl.
  rewrite !filter_cons, !filter_nil; simpl.
  destruct (decide (dueBy T _)) as [Hd2|Hd2]; [|unfold dueBy in Hd2; simpl in Hd2; lia].
  destruct (decide (¬ dueBy T _)) as [?|_]; [done|]. simpl. done.
Qed.

(** X9. [clearSearch] does not cancel the timer that [handleSearchInput]
    has armed. When the clear button is clicked less than 300 ms after
    the last input event, the search prefix is emptied, but the pending
    timer still holds the typed text: 300 ms after that input event its
    callback runs, sets the search prefix back to the typed text and
    reloads the listing with it. *)
Theorem clearSearch_leaves_timer
    (st0 : SearchState) (t : Z) (v : string) (t' T : Z) :
  timers st0 = [] → 0 < nextTimerId st0 → (now st0 ≤ t)%Z →
  (t ≤ t' < t + 300)%Z → (t + 300 ≤ T)%Z →
  let cleared := clearSearchAt t' (inputAt st0 (t, v)) in
  searchPrefix cleared = EmptyString
  ∧ loads cleared = loads st0
  ∧ timer_value <$> timers cleared = [v]
  ∧ searchPrefix (elapse T cleared) = v
  ∧ loads (elapse T cleared) = loads st0 ++ [((t + 300)%Z, v)]
  ∧ timers (elapse T cleared) = [].
Proof.
  intros Htm Hid Hnow Ht HT.
  apply armed_clearSearchAt; [|done|done]. by apply first_input_armed.
Qed.

(** Typing [abc] at time 0 and clearing the box 100 ms later: at 300 ms
    the listing is reloaded with the prefix [abc]. *)
Lemma clearSearch_leaves_timer_sample :
  let cleared := clearSearchAt 100 (inputAt initialSearchState (0%Z, "abc")) in
  searchPrefix cleared = EmptyString
  ∧ searchPrefix (elapse 300 cleared) = "abc"
  ∧ loads (elapse 300 cleared) = [(300%Z, "abc")].
Proof.
  pose proof (clearSearch_leaves_timer initialSearchState 0 "abc" 100 300
                eq_refl ltac:(simpl; lia) ltac:(simpl; lia) ltac:(lia) ltac:(lia))
    as (H1 & _ & _ & H4 & H5 & _).
  by repeat split.
Defined.

(** ** The object listing: navigation *)

Lemma stripTrailing_snoc c s : stripTrailing c (s +:+ String c EmptyString) = s.
Proof.
  induction s as [|a s IH]; [simpl; by rewrite Ascii.eqb_refl|].
  rewrite str_app_cons. destruct s as [|b s]; simpl in *; by rewrite ?IH.
Qed.

Lemma stripTrailing_other c s : endsWith c s = false → stripTrailing c s = s.
Proof.
  induction s as [|a s IH]; [done|]. destruct s as [|b s].
  - simpl. by intros ->.
  - intros H. change (String a (stripTrailing c (String b s)) = String a (String b s)).
    by rewrite IH.
Qed.

Lemma endsWith_snoc c s : endsWith c (s +:+ String c EmptyString) = true.
Proof.
  induction s as [|a s IH]; [simpl; by rewrite Ascii.eqb_refl|].
  rewrite str_app_cons. destruct s as [|b s]; [simpl; by rewrite Ascii.eqb_refl|done].
Qed.

Lemma endsWith_split c s :
  endsWith c s = true → ∃ s', s = s' +:+ String c EmptyString.
Proof.
  induction s as [|a s IH]; [done|]. destruct s as [|b s].
  - simpl. intros ->%Ascii.eqb_eq. by exists EmptyString.
  - intros H. destruct (IH H) as [s' ->]. by exists (String a s').
Qed.

Lemma lastIndexOf_absent c s : occurrences c s = 0 → lastIndexOf c s = None.
Proof.
  induction s as [|a s IH]; [done|]. simpl.
  destruct (Ascii.eqb a c); [done|]. intros H. by rewrite IH.
Qed.

Lemma lastIndexOf_app_absent c s t :
  occurrences c t = 0 → lastIndexOf c (s +:+ t) = lastIndexOf c s.
Proof.
  intros Ht. induction s as [|a s IH]; [by apply lastIndexOf_absent|].
  rewrite str_app_cons. simpl. by rewrite IH.
Qed.

Lemma lastIndexOf_snoc c s :
  lastIndexOf c (s +:+ String c EmptyString) = Some (String.length s).
Proof.
  induction s as [|a s IH]; [simpl; by rewrite Ascii.eqb_refl|].
  rewrite str_app_cons. simpl. by rewrite IH.
Qed.

Lemma lastIndexOf_lt c s i : lastIndexOf c s = Some i → i < String.length s.
Proof.
  revert i. induction s as [|a s IH]; intros i; [done|]. simpl.
  destruct (lastIndexOf c s) as [j|].
  - intros [= <-]. specialize (IH j eq_refl). lia.
  - destruct (Ascii.eqb a c); [intros [= <-]; lia|done].
Qed.

Lemma length_string_app s t : String.length (s +:+ t) = String.length s + String.length t.
Proof. induction s as [|a s IH]; [done|]. rewrite str_app_cons. simpl. by rewrite IH. Qed.

Lemma substring_app s t : String.substring 0 (String.length s) (s +:+ t) = s.
Proof.
  induction s as [|a s IH]; [by destruct t|]. rewrite str_app_cons. simpl. by rewrite IH.
Qed.

Lemma substring_prefix n s : ∃ t, s = String.substring 0 n s +:+ t ∧ String.length (String.substring 0 n s) = Nat.min n (String.length s).
Proof.
  revert s. induction n as [|n IH]; intros s.
  - exists s. by destruct s.
  - destruct s as [|a s]; [by exists EmptyString|].
    destruct (IH s) as (t&Ht&Hlen). exists t. simpl. split; [by rewrite str_app_cons, <- Ht|].
    by rewrite Hlen.
Qed.

(** The character at the last index found is the one looked for. *)
Lemma substring_lastIndexOf c s i :
  lastIndexOf c s = Some i → endsWith c (String.substring 0 (i + 1) s) = true.
Proof.
  revert i. induction s as [|a s IH]; intros i; [done|]. simpl.
  destruct (lastIndexOf c s) as [j|] eqn:Hj.
  - intros [= <-]. specialize (IH j eq_refl). simpl.
    destruct (String.substring 0 (j + 1) s) eqn:E; [done|]. done.
  - destruct (Ascii.eqb a c) eqn:Hac; [|done]. intros [= <-]. simpl.
    destruct s; simpl; by rewrite Hac.
Qed.

Lemma lastIndexOf_not_last c s i :
  endsWith c s = false → lastIndexOf c s = Some i → i + 1 < String.length s.
Proof.
  revert i. induction s as [|a s IH]; intros i; [done|].
  destruct s as [|b s].
  - simpl. by intros ->.
  - intros Hend. change (endsWith c (String b s) = false) in Hend.
    change (lastIndexOf c (String a (String b s)))
      with (match lastIndexOf c (String b s) with
            | Some i => Some (S i)
            | None => if Ascii.eqb a c then Some 0 else None
            end).
    destruct (lastIndexOf c (String b s)) as [j|] eqn:Hj.
    + intros [= <-]. specialize (IH j Hend eq_refl). simpl in *. lia.
    + destruct (Ascii.eqb a c); [intros [= <-]; simpl; lia|done].
Qed.

Lemma parentPrefix_child p name :
  p = EmptyString ∨ endsWith "/" p = true → occurrences "/" name = 0 →
  parentPrefix (p +:+ name +:+ "/") = p.
Proof.
  intros Hp Hname. unfold parentPrefix.
  rewrite <- str_app_assoc, stripTrailing_snoc, lastIndexOf_app_absent by done.
  destruct Hp as [->|Hend]; [done|].
  destruct (endsWith_split _ _ Hend) as [p' ->].
  rewrite lastIndexOf_snoc.
  replace (String.length p' + 1) with (String.length (p' +:+ "/"))
    by (rewrite length_string_app; simpl; lia).
  apply substring_app.
Qed.

Lemma parentPrefix_shorter s :
  s ≠ EmptyString →
  String.length (parentPrefix s) < String.length s
  ∧ (∃ t, s = parentPrefix s +:+ t)
  ∧ (parentPrefix s = EmptyString ∨ endsWith "/" (parentPrefix s) = true).
Proof.
  intros Hs. unfold parentPrefix.
  assert (∃ u, s = stripTrailing "/" s +:+ u
               ∧ (endsWith "/" s = false → stripTrailing "/" s = s)
               ∧ (endsWith "/" s = true →
                    String.length (stripTrailing "/" s) < String.length s))
    as (u & Hu & Hsame & Hless).
  { destruct (endsWith "/" s) eqn:Hend.
    - destruct (endsWith_split _ _ Hend) as [s' ->]. rewrite stripTrailing_snoc.
      exists "/". split; [done|]. split; [done|]. intros _.
      rewrite length_string_app. simpl. lia.
    - rewrite stripTrailing_other by done. exists EmptyString.
      by rewrite str_app_nil_r. }
  destruct (lastIndexOf "/" (stripTrailing "/" s)) as [i|] eqn:Hi.
  - destruct (substring_prefix (i + 1) (stripTrailing "/" s)) as (t & Ht & Hlen).
    pose proof (lastIndexOf_lt _ _ _ Hi) as Hlt.
    split; [|split].
    + rewrite Hlen. destruct (endsWith "/" s) eqn:Hend.
      * specialize (Hless eq_refl). lia.
      * rewrite (Hsame eq_refl) in Hi |- *.
        pose proof (lastIndexOf_not_last _ _ _ Hend Hi). lia.
    + exists (t +:+ u). rewrite <- str_app_assoc, <- Ht. done.
    + right. by apply substring_lastIndexOf.
  - split; [|split].
    + destruct s; [done|]. simpl. lia.
    + by exists s.
    + by left.
Qed.

Lemma loadObjects_ready append st :
  ready st →
  ∃ profileId bucket,
    Listing.currentProfileId st = Some profileId ∧ Listing.currentBucket st = Some bucket
    ∧ Listing.loadObjects append st
      = (Some (api.listObjects profileId bucket (Listing.effectivePrefix st)
                 (if truthy (Listing.continuationToken st)
                  then Listing.continuationToken st else None) None),
         if append then st else Listing.setLoading true (Listing.isLoadingMore st) st).
Proof.
  intros [Hp Hb]. unfold Listing.loadObjects.
  destruct (Listing.currentProfileId st) as [[|a p]|]; try done.
  destruct (Listing.currentBucket st) as [[|b k]|]; try done.
  by eexists _, _.
Qed.

Lemma effectivePrefix_orNull st :
  (if truthy (Listing.effectivePrefix st) then jsOfOption (Listing.effectivePrefix st)
   else JNull)
  = orNull (Listing.currentPrefix st +:+ Listing.searchPrefix st).
Proof.
  unfold Listing.effectivePrefix.
  destruct (Listing.searchPrefix st) as [|a s] eqn:Hs; simpl.
  - rewrite str_app_nil_r. by destruct (Listing.currentPrefix st).
  - by destruct (Listing.currentPrefix st).
Qed.

Lemma loadObjects_state append st :
  (Listing.loadObjects append st).2 = st
  ∨ (Listing.loadObjects append st).2 = Listing.setLoading true (Listing.isLoadingMore st) st.
Proof.
  unfold Listing.loadObjects.
  destruct (Listing.currentProfileId st) as [[|a p]|]; try (by left).
  destruct (Listing.currentBucket st) as [[|b k]|]; try (by left).
  destruct append; [by left|by right].
Qed.

Lemma loadObjects_keeps append st :
  let st' := (Listing.loadObjects append st).2 in
  Listing.currentProfileId st' = Listing.currentProfileId st
  ∧ Listing.currentBucket st' = Listing.currentBucket st
  ∧ Listing.currentPrefix st' = Listing.currentPrefix st
  ∧ Listing.searchPrefix st' = Listing.searchPrefix st
  ∧ Listing.continuationToken st' = Listing.continuationToken st
  ∧ Listing.tokenHistory st' = Listing.tokenHistory st
  ∧ Listing.selectedKeys st' = Listing.selectedKeys st
  ∧ Listing.objects st' = Listing.objects st
  ∧ Listing.isLoadingMore st' = Listing.isLoadingMore st.
Proof. intros st'. unfold st'. by destruct (loadObjects_state append st) as [-> | ->]. Qed.

Lemma requested_listObjects profileId bucket prefix token maxKeys :
  requestedToken (Some (api.listObjects profileId bucket prefix token maxKeys))
    = Some (if truthy token then jsOfOption token else JNull)
  ∧ requestedPrefix (Some (api.listObjects profileId bucket prefix token maxKeys))
    = Some (if truthy prefix then jsOfOption prefix else JNull).
Proof. done. Qed.

(** X10. With a profile and a bucket selected, [loadObjects] (appending
    or not) asks the back end for one page of at most 50 entries of the
    selected bucket, under the prefix made of the current folder prefix
    followed by the search text ([null] when both are empty, whichever
    branch of the source computes it), from the current continuation token
    ([null] when there is none). Without a profile or a bucket it makes no
    call and changes nothing. *)
Theorem loadObjects_request (append : bool) (st : Listing.State) :
  (ready st →
     ∃ profileId bucket,
       Listing.currentProfileId st = Some profileId
       ∧ Listing.currentBucket st = Some bucket
       ∧ (Listing.loadObjects append st).1
         = Some {| command := "list_objects";
                   arguments :=
                     [("profileId", JStr profileId); ("bucket", JStr bucket);
                      ("prefix",
                       orNull (Listing.currentPrefix st +:+ Listing.searchPrefix st));
                      ("continuationToken",
                       orNull (default EmptyString (Listing.continuationToken st)));
                      ("maxKeys", JNum 50)] |})
  ∧ (¬ ready st → Listing.loadObjects append st = (None, st)).
Proof.
  split.
  - intros Hready. destruct (loadObjects_ready append st Hready) as (p & b & Hp & Hb & Hcall).
    exists p, b. split; [done|]. split; [done|]. rewrite Hcall. simpl.
    unfold api.listObjects. rewrite effectivePrefix_orNull. do 3 f_equal.
    by destruct (Listing.continuationToken st) as [[|a t]|].
  - intros Hnot. unfold Listing.loadObjects, ready in *.
    destruct (Listing.currentProfileId st) as [[|a p]|]; try done.
    destruct (Listing.currentBucket st) as [[|b k]|]; try done.
    destruct Hnot. by split.
Qed.

(** In the folder [docs/] with the search text [re], the page after
    token [t1] is asked for under the prefix [docs/re]. *)
Lemma loadObjects_request_sample :
  let st := Listing.setPaging (Some "t1") []
              (Listing.setPrefixes "docs/" "re" sampleListing) in
  ready st
  ∧ (Listing.loadObjects false st).1
    = Some {| command := "list_objects";
              arguments := [("profileId", JStr "p1"); ("bucket", JStr "photos");
                            ("prefix", JStr "docs/re"); ("continuationToken", JStr "t1");
                            ("maxKeys", JNum 50)] |}.
Proof.
  split; [by split|].
  destruct (loadObjects_request false
              (Listing.setPaging (Some "t1") []
                 (Listing.setPrefixes "docs/" "re" sampleListing))) as [Hcall _].
  destruct (Hcall ltac:(by split)) as (p & b & [= <-] & [= <-] & Heq). exact Heq.
Defined.



(** X12. After a page has been loaded, a plain [loadObjects()] (the
    refresh button, and the reload that follows an upload, a deletion, a
    sync or a new folder) does not ask again for the page on display: the
    successful load has stored the continuation token of the following
    page, and the reload sends that token, making the very request
    [nextPage] would make, only without pushing the token on
    [tokenHistory]; when the page on display was the last one the reload
    asks for the first page, whatever [tokenHistory] holds. *)
Theorem reload_requests_following_page (st : Listing.State)
    (result : Listing.ListObjectsResult) :
  ready st →
  let shown := Listing.loadObjectsSettled (inr result) st in
  let reload := Listing.loadObjects false shown in
  requestedToken reload.1
    = Some (orNull (default EmptyString (Listing.next_continuation_token result)))
  ∧ Listing.tokenHistory reload.2 = Listing.tokenHistory st
  ∧ Listing.objects reload.2 = Listing.result_objects result
  ∧ (truthy (Listing.next_continuation_token result) = true →
       reload.1 = (Listing.nextPage shown).1
       ∧ Listing.tokenHistory (Listing.nextPage shown).2
         = Listing.tokenHistory st
           ++ [default EmptyString (Listing.next_continuation_token result)]).
Proof.
  intros Hready shown reload.
  destruct st as [pid bk pre objs cps tok hist more ld ldm sp keys log].
  destruct Hready as [Hp Hb]. simpl in Hp, Hb.
  destruct pid as [[|a p]|]; try done. destruct bk as [[|b k]|]; try done.
  destruct result as [robjs rcps next trunc].
  unfold reload, shown, Listing.nextPage, Listing.loadObjects, Listing.loadObjectsSettled.
  simpl. destruct next as [[|c t]|]; simpl; by repeat split.
Qed.

Lemma reload_requests_following_page_sample :
  let result := {| Listing.result_objects := []; Listing.common_prefixes := [];
                   Listing.next_continuation_token := Some "t1";
                   Listing.is_truncated := true |} in
  let shown := Listing.loadObjectsSettled (inr result) sampleListing in
  requestedToken (Listing.loadObjects false sampleListing).1 = Some JNull
  ∧ requestedToken (Listing.loadObjects false shown).1 = Some (JStr "t1")
  ∧ Listing.tokenHistory (Listing.loadObjects false shown).2 = [].
Proof.
  split; [done|].
  pose proof (reload_requests_following_page sampleListing
                {| Listing.result_objects := []; Listing.common_prefixes := [];
                   Listing.next_continuation_token := Some "t1";
                   Listing.is_truncated := true |} ltac:(by split))
    as (H1 & H2 & _).
  by split.
Defined.

(** X13. Entering a folder and going back returns to the folder one was
    in: from a prefix that is empty or ends with a slash, after
    [navigateToPrefix] to the child folder [name/] of that prefix (a
    non-empty name without a slash), and whether its load succeeded or
    failed, [goToParent] sets the prefix back to what it was, with the
    paging state reset, the selection empty, and a request for the first
    page of that prefix. *)
Theorem goToParent_after_navigateToPrefix (st : Listing.State) (name : string)
    (outcome : string + Listing.ListObjectsResult) :
  ready st →
  Listing.currentPrefix st = EmptyString ∨ endsWith "/" (Listing.currentPrefix st) = true →
  name ≠ EmptyString → occurrences "/" name = 0 →
  let inside := Listing.navigateToPrefix (Listing.currentPrefix st +:+ name +:+ "/") st in
  let back := Listing.goToParent (Listing.loadObjectsSettled outcome inside.2) in
  Listing.currentPrefix inside.2 = Listing.currentPrefix st +:+ name +:+ "/"
  ∧ Listing.currentPrefix back.2 = Listing.currentPrefix st
  ∧ requestedPrefix back.1 = Some (orNull (Listing.currentPrefix st))
  ∧ requestedToken back.1 = Some JNull
  ∧ Listing.tokenHistory back.2 = []
  ∧ Listing.selectedKeys back.2 = [].
Proof.
  intros Hready Hpre Hname Hslash inside back.
  pose proof (parentPrefix_child _ _ Hpre Hslash) as Hparent.
  destruct st as [pid bk pre objs cps tok hist more ld ldm sp keys log].
  destruct Hready as [Hp Hb]. simpl in Hp, Hb, Hparent, Hpre.
  destruct pid as [[|a p]|]; try done. destruct bk as [[|b k]|]; try done.
  unfold back, inside, Listing.navigateToPrefix, Listing.goToParent, Listing.loadObjects,
    Listing.loadObjectsSettled. simpl.
  split; [done|].
  assert (pre +:+ name +:+ "/" ≠ EmptyString) as Hne.
  { destruct pre; [destruct name; [done|by rewrite str_app_cons]|by rewrite str_app_cons]. }
  destruct outcome as [err|result]; simpl;
    (destruct (pre +:+ name +:+ "/") as [|c child] eqn:Hchild; [done|]);
    simpl; rewrite Hparent; simpl;
    (split; [done|]); (split; [|done]);
    unfold requestedPrefix; simpl; unfold Listing.effectivePrefix; simpl;
    by destruct pre.
Qed.

Lemma goToParent_after_navigateToPrefix_sample :
  let st := Listing.setPrefixes "docs/" EmptyString sampleListing in
  let inside := Listing.navigateToPrefix "docs/2024/" st in
  let back := Listing.goToParent (Listing.loadObjectsSettled (inl "offline") inside.2) in
  Listing.currentPrefix inside.2 = "docs/2024/"
  ∧ Listing.currentPrefix back.2 = "docs/"
  ∧ requestedPrefix back.1 = Some (JStr "docs/").
Proof.
  pose proof (goToParent_after_navigateToPrefix
                (Listing.setPrefixes "docs/" EmptyString sampleListing) "2024"
                (inl "offline") ltac:(by split) ltac:(by right) ltac:(done) eq_refl)
    as (H1 & H2 & H3 & _).
  by repeat split.
Defined.

Lemma goToParent_prefix st :
  Listing.currentPrefix (Listing.goToParent st).2
  = match Listing.currentPrefix st with
    | EmptyString => EmptyString
    | _ => parentPrefix (Listing.currentPrefix st)
    end.
Proof.
  unfold Listing.goToParent. destruct (Listing.currentPrefix st) eqn:Hpre; [done|].
  by destruct (loadObjects_keeps false
    (Listing.clearSelection
       (Listing.setPaging None []
          (Listing.setPrefixes (parentPrefix (String a s)) (Listing.searchPrefix st) st))))
    as (_ & _ & -> & _).
Qed.

Lemma goToParent_iter n : ∀ st,
  String.length (Listing.currentPrefix st) ≤ n →
  Listing.currentPrefix (Nat.iter n (fun s => (Listing.goToParent s).2) st) = EmptyString.
Proof.
  induction n as [|n IH]; intros st Hlen.
  - simpl. destruct (Listing.currentPrefix st); [done|simpl in Hlen; lia].
  - rewrite Nat.iter_succ_r. apply IH. rewrite goToParent_prefix.
    destruct (Listing.currentPrefix st) as [|a s] eqn:Hpre; [simpl; lia|].
    destruct (parentPrefix_shorter (String a s)) as [Hlt _]; [done|]. lia.
Qed.

(** X14. [goToParent] always moves up: from a non-empty prefix it goes to
    a strictly shorter prefix of it that is empty or ends with a slash
    (also when the current prefix has no trailing slash or holds doubled
    slashes), with or without a selected bucket; at the root it does
    nothing. So going up repeatedly reaches the root, after at most as
    many steps as the prefix has characters. *)
Theorem goToParent_moves_up (st : Listing.State) :
  let up := Listing.currentPrefix (Listing.goToParent st).2 in
  (Listing.currentPrefix st ≠ EmptyString →
     String.length up < String.length (Listing.currentPrefix st)
     ∧ (∃ rest, Listing.currentPrefix st = up +:+ rest)
     ∧ (up = EmptyString ∨ endsWith "/" up = true))
  ∧ (Listing.currentPrefix st = EmptyString → Listing.goToParent st = (None, st))
  ∧ Listing.currentPrefix
      (Nat.iter (String.length (Listing.currentPrefix st))
                (fun s => (Listing.goToParent s).2) st) = EmptyString.
Proof.
  intros up. unfold up. rewrite goToParent_prefix. split; [|split].
  - intros Hne. destruct (Listing.currentPrefix st) as [|a s] eqn:Hpre; [done|].
    by apply parentPrefix_shorter.
  - intros Hroot. unfold Listing.goToParent. by rewrite Hroot.
  - by apply goToParent_iter.
Qed.

(** From [a//b/c] four steps lead to the root. *)
Lemma goToParent_moves_up_sample :
  let up := fun s => (Listing.goToParent s).2 in
  let st := Listing.setPrefixes "a//b/c" EmptyString sampleListing in
  Listing.currentPrefix (up st) = "a//b/"
  ∧ Listing.currentPrefix (up (up st)) = "a//"
  ∧ Listing.currentPrefix (up (up (up st))) = "a/"
  ∧ Listing.currentPrefix (up (up (up (up st)))) = EmptyString
  ∧ String.length (Listing.currentPrefix (up st)) < 6
  ∧ Listing.currentPrefix (Nat.iter 6 up st) = EmptyString.
Proof.
  destruct (goToParent_moves_up (Listing.setPrefixes "a//b/c" EmptyString sampleListing))
    as (Hup & _ & Hroot).
  destruct (Hup ltac:(done)) as (Hshorter & _).
  split; [reflexivity|]. split; [reflexivity|]. split; [reflexivity|].
  split; [reflexivity|]. split; [exact Hshorter|exact Hroot].
Defined.

(** ** The object listing: new folders *)

Lemma dropLeading_split c s :
  ∃ l, s = l +:+ dropLeading c s ∧ allChar c l = true
       ∧ startsWith c (dropLeading c s) = false.
Proof.
  induction s as [|a s (l & Hs & Hl & Hstart)]; [by exists EmptyString|]. simpl.
  destruct (Ascii.eqb a c) eqn:Hac.
  - exists (String a l). rewrite str_app_cons, <- Hs. simpl. by rewrite Hac.
  - exists EmptyString. simpl. by rewrite Hac.
Qed.

Lemma dropTrailing_split c s :
  ∃ r, s = dropTrailing c s +:+ r ∧ allChar c r = true
       ∧ endsWith c (dropTrailing c s) = false
       ∧ (startsWith c s = false → startsWith c (dropTrailing c s) = false).
Proof.
  induction s as [|a s (r & Hs & Hr & Hend & _)]; [by exists EmptyString|]. simpl.
  destruct (dropTrailing c s) as [|b kept] eqn:Hkept.
  - destruct (Ascii.eqb a c) eqn:Hac.
    + exists (String a r). rewrite Hs. simpl. by rewrite Hac.
    + exists r. rewrite Hs. simpl. by rewrite Hac.
  - exists r. rewrite Hs. by repeat split.
Qed.

Lemma allChar_app c s t : allChar c (s +:+ t) = allChar c s && allChar c t.
Proof.
  induction s as [|a s IH]; [done|]. rewrite str_app_cons. simpl. rewrite IH.
  by rewrite andb_assoc.
Qed.

Lemma trimSlashes_split value :
  let name := trimSlashes value in
  (∃ l r, value = l +:+ name +:+ r ∧ allChar "/" l = true ∧ allChar "/" r = true)
  ∧ startsWith "/" name = false ∧ endsWith "/" name = false
  ∧ (name = EmptyString ↔ allChar "/" value = true).
Proof.
  intros name. unfold name, trimSlashes.
  destruct (dropLeading_split "/" value) as (l & Hv & Hl & Hstart).
  destruct (dropTrailing_split "/" (dropLeading "/" value)) as (r & Hd & Hr & Hend & Hkeep).
  split; [exists l, r; split; [by rewrite <- Hd|done]|].
  split; [by apply Hkeep|]. split; [done|].
  rewrite Hv at 2. rewrite allChar_app, Hl. simpl. rewrite Hd at 2. rewrite allChar_app, Hr.
  rewrite andb_true_r. split; [by intros ->|].
  intros Hall. destruct (dropTrailing "/" (dropLeading "/" value)) as [|a s]; [done|].
  simpl in *. apply andb_true_iff in Hall as [Ha _].
  specialize (Hkeep Hstart). congruence.
Qed.

(** X15. [createFolder] strips the slashes at both ends of the typed
    name and nothing else: the typed text is a run of slashes, the name
    used, and a run of slashes, and the name used neither starts nor ends
    with a slash. With a profile and a bucket selected and a non-empty
    text, the folder is created under the key made of the current prefix
    followed by that name; a text made of slashes only leaves no name,
    and then no call is made and the message [Folder name cannot be
    empty] is shown. An empty text does nothing at all. *)
Theorem createFolder_trims_slashes (st : Listing.State) (value : string) :
  ready st → value ≠ EmptyString →
  let name := trimSlashes value in
  (∃ l r, value = l +:+ name +:+ r ∧ allChar "/" l = true ∧ allChar "/" r = true)
  ∧ startsWith "/" name = false ∧ endsWith "/" name = false
  ∧ (allChar "/" value = false →
       ∃ profileId bucket,
         Listing.currentProfileId st = Some profileId
         ∧ Listing.currentBucket st = Some bucket
         ∧ Listing.createFolder value st
           = (Some (api.createFolder profileId bucket (Listing.currentPrefix st +:+ name)),
              st))
  ∧ (allChar "/" value = true →
       Listing.createFolder value st
       = (None, Listing.setErrorLog
                  (showError "Folder name cannot be empty" (Listing.errorLog st)) st))
  ∧ Listing.createFolder EmptyString st = (None, st).
Proof.
  intros [Hp Hb] Hvalue name.
  destruct (trimSlashes_split value) as (Hsplit & Hstart & Hend & Hempty).
  fold name in Hsplit, Hstart, Hend, Hempty.
  split; [done|]. split; [done|]. split; [done|].
  unfold Listing.createFolder.
  destruct (Listing.currentProfileId st) as [[|a p]|]; try done.
  destruct (Listing.currentBucket st) as [[|b k]|]; try done.
  destruct value as [|c value]; [done|]. fold name.
  split; [|split; [|done]].
  - intros Hall. exists (String a p), (String b k). split; [done|]. split; [done|].
    destruct name as [|d name'] eqn:Hname.
    { destruct Hempty as [Hempty _]. rewrite Hempty in Hall; done. }
    do 3 f_equal. simpl. destruct (Listing.currentPrefix st); done.
  - intros Hall. apply Hempty in Hall. by rewrite Hall.
Qed.

Lemma createFolder_trims_slashes_sample :
  let st := Listing.setPrefixes "docs/" EmptyString sampleListing in
  Listing.createFolder "//reports/2024//" st
  = (Some (api.createFolder "p1" "photos" "docs/reports/2024"), st)
  ∧ (Listing.createFolder "///" st).1 = None.
Proof.
  pose proof (createFolder_trims_slashes
                (Listing.setPrefixes "docs/" EmptyString sampleListing)
                "//reports/2024//" ltac:(by split) ltac:(done))
    as (_ & _ & _ & Hcall & _).
  destruct (Hcall eq_refl) as (p & b & [= <-] & [= <-] & Heq).
  split; [exact Heq|reflexivity].
Defined.

(** ** The object listing: selection *)

Lemma elem_of_setAdd k l x : x ∈ setAdd k l ↔ x ∈ l ∨ x = k.
Proof.
  unfold setAdd. case_decide as Hk.
  - split; [by left|]. by intros [?| ->].
  - rewrite elem_of_app, list_elem_of_singleton. done.
Qed.

Lemma elem_of_setDelete k l x : x ∈ setDelete k l ↔ x ∈ l ∧ x ≠ k.
Proof. unfold setDelete. rewrite list_elem_of_filter. tauto. Qed.

Lemma setAdd_NoDup k l : NoDup l → NoDup (setAdd k l).
Proof.
  intros Hl. unfold setAdd. case_decide as Hk; [done|].
  apply NoDup_app. split; [done|]. split; [|apply NoDup_singleton].
  by intros x Hx ->%list_elem_of_singleton.
Qed.

Lemma setDelete_NoDup k l : NoDup l → NoDup (setDelete k l).
Proof. apply NoDup_filter. Qed.

Lemma elem_of_addAll (items : list Listing.ObjectInfo) : ∀ keys x,
  x ∈ foldl (fun keys o => setAdd (Listing.key o) keys) keys items
  ↔ x ∈ keys ∨ x ∈ Listing.key <$> items.
Proof.
  induction items as [|o items IH]; intros keys x; simpl.
  - rewrite elem_of_nil. tauto.
  - rewrite IH, elem_of_setAdd, elem_of_cons. tauto.
Qed.

Lemma elem_of_deleteAll (items : list Listing.ObjectInfo) : ∀ keys x,
  x ∈ foldl (fun keys o => setDelete (Listing.key o) keys) keys items
  ↔ x ∈ keys ∧ x ∉ Listing.key <$> items.
Proof.
  induction items as [|o items IH]; intros keys x; simpl.
  - rewrite elem_of_nil. tauto.
  - rewrite IH, elem_of_setDelete, not_elem_of_cons. tauto.
Qed.

Lemma addAll_NoDup (items : list Listing.ObjectInfo) : ∀ keys,
  NoDup keys → NoDup (foldl (fun keys o => setAdd (Listing.key o) keys) keys items).
Proof.
  induction items as [|o items IH]; intros keys Hk; [done|]. simpl.
  by apply IH, setAdd_NoDup.
Qed.

Lemma deleteAll_NoDup (items : list Listing.ObjectInfo) : ∀ keys,
  NoDup keys → NoDup (foldl (fun keys o => setDelete (Listing.key o) keys) keys items).
Proof.
  induction items as [|o items IH]; intros keys Hk; [done|]. simpl.
  by apply IH, setDelete_NoDup.
Qed.

Lemma filter_all_length {A} (P : A → Prop) `{∀ x, Decision (P x)} (l : list A) :
  length (filter P l) = length l ↔ Forall P l.
Proof.
  induction l as [|x l IH]; [split; [constructor|done]|].
  rewrite filter_cons, Forall_cons. pose proof (length_filter P l) as Hle.
  case_decide as Hx; simpl.
  - rewrite <- IH. split; [intros [= ?]; by split|intros [_ ->]; done].
  - split; [intros Heq; lia|by intros [? _]].
Qed.

Lemma filter_some_length {A} (P : A → Prop) `{∀ x, Decision (P x)} (l : list A) :
  0 < length (filter P l) ↔ Exists P l.
Proof.
  induction l as [|x l IH]; [split; [simpl; lia|by intros ?%Exists_nil]|].
  rewrite filter_cons, Exists_cons.
  case_decide as Hx; simpl; [split; [by left|lia]|].
  rewrite IH. split; [by right|by intros [?|?]].
Qed.

Lemma filter_not_all_length {A} (P : A → Prop) `{∀ x, Decision (P x)} (l : list A) :
  length (filter P l) < length l ↔ Exists (fun x => ¬ P x) l.
Proof.
  induction l as [|x l IH]; [split; [simpl; lia|by intros ?%Exists_nil]|].
  rewrite filter_cons, Exists_cons. pose proof (length_filter P l) as Hle.
  case_decide as Hx; simpl.
  - rewrite <- IH. split; [intros ?; right; lia|intros [?|?]; [done|lia]].
  - split; [by left|lia].
Qed.

Lemma updateSelectAllCheckbox_meaning st :
  let items := Listing.selectableItems st in
  let picked := fun o => Listing.key o ∈ Listing.selectedKeys st in
  ((Listing.updateSelectAllCheckbox st).1 = true ↔ items ≠ [] ∧ Forall picked items)
  ∧ ((Listing.updateSelectAllCheckbox st).2 = true
     ↔ Exists picked items ∧ Exists (fun o => ¬ picked o) items).
Proof.
  intros items picked. unfold Listing.updateSelectAllCheckbox. fold items.
  pose proof (filter_all_length picked items) as Hall.
  pose proof (filter_some_length picked items) as Hsome.
  pose proof (filter_not_all_length picked items) as Hnot.
  unfold picked in Hall, Hsome, Hnot |- *.
  destruct (Nat.eqb_spec (length items) 0) as [Hzero|Hpos]; simpl.
  - apply length_zero_iff_nil in Hzero. rewrite Hzero. split.
    + split; [done|by intros [? _]].
    + split; [done|by intros [?%Exists_nil _]].
  - split.
    + rewrite Nat.eqb_eq, Hall. split; [|by intros [_ ?]].
      intros HF. split; [|done]. intros Hnil. by rewrite Hnil in Hpos.
    + rewrite andb_true_iff, !Nat.ltb_lt. by rewrite Hsome, Hnot.
Qed.

(** X16. [selectAllObjects(true)] selects exactly the files of the page
    on display on top of what was selected: the selection afterwards is
    the old selection together with the keys of the listed objects that
    are not folders, so a key selected on another page stays selected and
    no folder is added. [selectAllObjects(false)] removes exactly those
    keys and keeps the rest of the selection. [toggleObjectSelection]
    adds or removes one key. None of them makes a key occur twice in the
    set. *)
Theorem selectAllObjects_page (st : Listing.State) :
  let files := Listing.key <$> Listing.selectableItems st in
  (∀ k, k ∈ Listing.selectedKeys (Listing.selectAllObjects true st)
        ↔ k ∈ Listing.selectedKeys st ∨ k ∈ files)
  ∧ (∀ k, k ∈ Listing.selectedKeys (Listing.selectAllObjects false st)
          ↔ k ∈ Listing.selectedKeys st ∧ k ∉ files)
  ∧ (∀ k, k ∈ files ↔ ∃ o, o ∈ Listing.objects st ∧ Listing.is_folder o = false
                            ∧ Listing.key o = k)
  ∧ (∀ k x, x ∈ Listing.selectedKeys (Listing.toggleObjectSelection k true st)
            ↔ x ∈ Listing.selectedKeys st ∨ x = k)
  ∧ (∀ k x, x ∈ Listing.selectedKeys (Listing.toggleObjectSelection k false st)
            ↔ x ∈ Listing.selectedKeys st ∧ x ≠ k)
  ∧ (NoDup (Listing.selectedKeys st) →
       NoDup (Listing.selectedKeys (Listing.selectAllObjects true st))
       ∧ NoDup (Listing.selectedKeys (Listing.selectAllObjects false st))
       ∧ ∀ k b, NoDup (Listing.selectedKeys (Listing.toggleObjectSelection k b st))).
Proof.
  intros files. unfold files.
  split; [intros k; apply elem_of_addAll|].
  split; [intros k; apply elem_of_deleteAll|].
  split.
  { intros k. rewrite list_elem_of_fmap. unfold Listing.selectableItems.
    split.
    - intros (o & -> & [Hf Ho]%list_elem_of_filter). by exists o.
    - intros (o & Ho & Hf & <-). exists o. split; [done|]. by apply list_elem_of_filter. }
  split; [intros k x; apply elem_of_setAdd|].
  split; [intros k x; apply elem_of_setDelete|].
  intros Hnd. split; [by apply addAll_NoDup|]. split; [by apply deleteAll_NoDup|].
  intros k [|]; simpl; [by apply setAdd_NoDup|by apply setDelete_NoDup].
Qed.

(** X17. The select-all checkbox as [updateSelectAllCheckbox] sets it:
    it is checked exactly when the page on display lists at least one
    file and every listed file is selected, and it is indeterminate
    exactly when some listed file is selected and some listed file is
    not; it is never both. After [selectAllObjects(true)] it is checked
    when the page lists a file, after [selectAllObjects(false)] and after
    [clearSelection] it is neither checked nor indeterminate; keys
    selected on other pages play no part. *)
Theorem selectAllCheckbox_state (st : Listing.State) :
  let items := Listing.selectableItems st in
  let picked := fun o => Listing.key o ∈ Listing.selectedKeys st in
  ((Listing.updateSelectAllCheckbox st).1 = true ↔ items ≠ [] ∧ Forall picked items)
  ∧ ((Listing.updateSelectAllCheckbox st).2 = true
     ↔ Exists picked items ∧ Exists (fun o => ¬ picked o) items)
  ∧ ¬ ((Listing.updateSelectAllCheckbox st).1 = true
       ∧ (Listing.updateSelectAllCheckbox st).2 = true)
  ∧ Listing.updateSelectAllCheckbox (Listing.selectAllObjects true st)
    = (bool_decide (items ≠ []), false)
  ∧ Listing.updateSelectAllCheckbox (Listing.selectAllObjects false st) = (false, false)
  ∧ Listing.updateSelectAllCheckbox (Listing.clearSelection st) = (false, false).
Proof.
  intros items picked.
  destruct (updateSelectAllCheckbox_meaning st) as [Hchecked Hind].
  split; [done|]. split; [done|]. split.
  { intros [[_ Hall]%Hchecked [_ Hsome]%Hind].
    apply Exists_exists in Hsome as (o & Ho & Hno).
    rewrite Forall_forall in Hall. by apply Hno, Hall. }
  assert (∀ st', Listing.selectableItems st' = items →
            (∀ o, o ∈ items → Listing.key o ∉ Listing.selectedKeys st') →
            Listing.updateSelectAllCheckbox st' = (false, false)) as Hnone.
  { intros st' Hitems Hno.
    destruct (updateSelectAllCheckbox_meaning st') as [Hc Hi]. rewrite Hitems in Hc, Hi.
    destruct (Listing.updateSelectAllCheckbox st') as [[|] [|]]; simpl in *; try done.
    - destruct (proj1 Hi eq_refl) as [(o & Ho & Hpick)%Exists_exists _]. by destruct (Hno o).
    - destruct (proj1 Hc eq_refl) as [Hne Hall]. destruct items as [|o rest]; [done|].
      apply Forall_cons in Hall as [Hpick _]. destruct (Hno o); [by left|done].
    - destruct (proj1 Hi eq_refl) as [(o & Ho & Hpick)%Exists_exists _]. by destruct (Hno o). }
  split; [|split].
  - destruct (updateSelectAllCheckbox_meaning (Listing.selectAllObjects true st)) as [Hc Hi].
    change (Listing.selectableItems (Listing.selectAllObjects true st)) with items in Hc, Hi.
    assert (Forall (fun o => Listing.key o
                             ∈ Listing.selectedKeys (Listing.selectAllObjects true st)) items)
      as Hall.
    { apply Forall_forall. intros o Ho. apply elem_of_addAll. right.
      apply list_elem_of_fmap. by exists o. }
    destruct (Listing.updateSelectAllCheckbox (Listing.selectAllObjects true st))
      as [checked ind]; simpl in *.
    f_equal.
    + case_bool_decide as Hne; [by apply Hc|].
      destruct checked; [|done]. by destruct (proj1 Hc eq_refl).
    + destruct ind; [|done]. destruct (proj1 Hi eq_refl) as [_ Hsome].
      apply Exists_exists in Hsome as (o & Ho & Hno).
      rewrite Forall_forall in Hall. by destruct (Hno (Hall o Ho)).
  - apply Hnone; [done|]. intros o Ho [_ Hin]%elem_of_deleteAll. apply Hin.
    apply list_elem_of_fmap. by exists o.
  - apply Hnone; [done|]. intros o Ho. simpl. apply not_elem_of_nil.
Qed.

(** A page with a folder and two files, one of them selected, and a key
    selected on another page. *)
Example selectAllCheckbox_sample :
  let file := fun k => {| Listing.key := k; Listing.size := 1; Listing.last_modified := None;
                          Listing.etag := None; Listing.is_folder := false |} in
  let folder := {| Listing.key := "docs/"; Listing.size := 0; Listing.last_modified := None;
                   Listing.etag := None; Listing.is_folder := true |} in
  let st := Listing.setSelectedKeys ["old.txt"; "a.txt"]
              (Listing.loadObjectsSettled
                 (inr {| Listing.result_objects := [folder; file "a.txt"; file "b.txt"];
                         Listing.common_prefixes := [];
                         Listing.next_continuation_token := None;
                         Listing.is_truncated := false |}) sampleListing) in
  Listing.updateSelectAllCheckbox st = (false, true)
  ∧ Listing.selectedKeys (Listing.selectAllObjects true st) = ["old.txt"; "a.txt"; "b.txt"]
  ∧ Listing.updateSelectAllCheckbox (Listing.selectAllObjects true st) = (true, false)
  ∧ Listing.selectedKeys (Listing.selectAllObjects false st) = ["old.txt"].
Proof. vm_compute. done. Qed.

(** ** The object listing: loading more grid items *)



(** ** Drag and drop *)

Lemma onDragDropEvent_inv event st :
  (0 ≤ dragCounter st)%Z → (dragOverClass st = true ↔ (0 < dragCounter st)%Z) →
  let st' := onDragDropEvent event st in
  (0 ≤ dragCounter st')%Z ∧ (dragOverClass st' = true ↔ (0 < dragCounter st')%Z).
Proof.
  intros Hpos Hclass. destruct event as [| |paths|]; simpl.
  - split; [lia|]. split; [lia|done].
  - destruct (Z.leb_spec (dragCounter st - 1) 0); simpl.
    + split; [lia|]. split; [done|lia].
    + split; [lia|]. rewrite Hclass. lia.
  - split; [lia|]. split; [done|lia].
  - done.
Qed.

Lemma runDragDrop_inv events : ∀ st,
  (0 ≤ dragCounter st)%Z → (dragOverClass st = true ↔ (0 < dragCounter st)%Z) →
  let st' := runDragDrop events st in
  (0 ≤ dragCounter st')%Z ∧ (dragOverClass st' = true ↔ (0 < dragCounter st')%Z).
Proof.
  induction events as [|event rest IH]; intros st H0 H1; [done|].
  unfold runDragDrop in *. cbn [foldl]. by apply IH; apply onDragDropEvent_inv.
Qed.

Lemma runDragDrop_dropped events : ∀ st,
  dropped (runDragDrop events st) = dropped st ++ dropsOf events.
Proof.
  induction events as [|event events IH]; intros st; [by rewrite app_nil_r|].
  unfold runDragDrop, dropsOf in *. cbn [foldl]. rewrite IH.
  destruct event as [| |[[|p ps]|]|]; simpl; try done.
  - by destruct (_ <=? _)%Z.
  - by rewrite <- app_assoc.
Qed.

(** X19. After every sequence of drag-and-drop events the drag counter
    is not negative, and the [drag-over] highlight is on exactly when the
    counter is positive: a [leave] that would take the counter to zero or
    below resets it to zero and removes the highlight, and a [drop] always
    resets both. [uploadDroppedFiles] has been called once for each drop
    that carried at least one path, in order, with the paths of that drop,
    and for no other event. *)
Theorem dragCounter_invariant (events : list DragDropEvent) :
  let st := runDragDrop events initialDragState in
  (0 ≤ dragCounter st)%Z
  ∧ (dragOverClass st = true ↔ (0 < dragCounter st)%Z)
  ∧ dropped st = dropsOf events
  ∧ (∀ paths, dragCounter (onDragDropEvent (DragDrop paths) st) = 0%Z
              ∧ dragOverClass (onDragDropEvent (DragDrop paths) st) = false)
  ∧ dragOverClass (onDragDropEvent DragOver st) = true.
Proof.
  intros st.
  assert ((0 ≤ dragCounter st)%Z ∧ (dragOverClass st = true ↔ (0 < dragCounter st)%Z))
    as [Hpos Hclass].
  { unfold st. apply runDragDrop_inv; simpl; [lia|]. split; [done|lia]. }
  split; [done|]. split; [done|].
  split; [unfold st; by rewrite runDragDrop_dropped|].
  by split.
Qed.

(** Two [over] events, one [leave], then a drop of two files. *)
Example dragCounter_sample :
  let st := runDragDrop [DragOver; DragOver; DragLeave] initialDragState in
  dragCounter st = 1%Z ∧ dragOverClass st = true
  ∧ dropped (onDragDropEvent (DragDrop (Some ["/a"; "/b"])) st) = [["/a"; "/b"]]
  ∧ dragCounter (runDragDrop [DragLeave; DragLeave] st) = 0%Z.
Proof. vm_compute. done. Qed.

(** ** Rendering the task list *)

Lemma applyRenderEvent_pending ev st :
  frameCallbacks st = (if renderScheduled st then 1 else 0) →
  let st' := applyRenderEvent ev st in
  frameCallbacks st' = (if renderScheduled st' then 1 else 0)
  ∧ renders st' = renders st
                  + match ev with
                    | AnimationFrame => if renderScheduled st then 1 else 0
                    | CallScheduleRender => 0
                    end.
Proof.
  intros Hinv. destruct st as [[|] callbacks n]; simpl in Hinv; subst callbacks;
    destruct ev; simpl; split; (done || lia).
Qed.

Lemma runRenderEvents_pending evs : ∀ st,
  frameCallbacks st = (if renderScheduled st then 1 else 0) →
  let st' := runRenderEvents evs st in
  frameCallbacks st' = (if renderScheduled st' then 1 else 0)
  ∧ renders st' ≤ renders st + countEvents AnimationFrame evs
  ∧ renders st' + (if renderScheduled st' then 1 else 0)
    ≤ renders st + (if renderScheduled st then 1 else 0)
      + countEvents CallScheduleRender evs.
Proof.
  induction evs as [|ev evs IH]; intros st Hinv.
  { simpl. unfold countEvents. simpl. split; [done|]. split; lia. }
  destruct (applyRenderEvent_pending ev st Hinv) as [Hinv' Hr].
  destruct (IH _ Hinv') as (H1 & H2 & H3).
  unfold runRenderEvents in *. cbn [foldl]. split; [done|].
  unfold countEvents in *. rewrite !filter_cons.
  destruct ev; cbn [applyRenderEvent] in *.
  - rewrite decide_False by done. rewrite decide_True by done. cbn [length].
    rewrite Hr in H2, H3. split; [lia|].
    destruct st as [[|] callbacks n]; simpl in *; lia.
  - rewrite decide_True by done. rewrite decide_False by done. cbn [length].
    rewrite Hr in H2, H3. split; [destruct (renderScheduled st); lia|].
    destruct st as [[|] callbacks n]; simpl in *; subst; simpl in *; lia.
Qed.

Lemma scheduleRender_burst n st :
  frameCallbacks st = (if renderScheduled st then 1 else 0) →
  Nat.iter (S n) scheduleRender st
  = {| renderScheduled := true; frameCallbacks := 1; renders := renders st |}.
Proof.
  intros Hinv. induction n as [|n IH].
  - destruct st as [[|] callbacks k]; simpl in *; by subst.
  - change (Nat.iter (S (S n)) scheduleRender st)
      with (scheduleRender (Nat.iter (S n) scheduleRender st)).
    by rewrite IH.
Qed.

(** X20. [scheduleRender] coalesces renders: after every sequence of
    [scheduleRender] calls and animation frames, at most one frame
    callback is pending, and one is pending exactly when
    [renderScheduled] is set; the task list has been rendered at most
    once per animation frame and at most once per call. A burst of one or
    more calls between two frames, however long, leads to exactly one
    render at the next frame, after which nothing is pending. *)
Theorem scheduleRender_once_per_frame (evs : list RenderEvent) (n : nat) :
  let st := runRenderEvents evs initialRenderState in
  let burst := Nat.iter (S n) scheduleRender st in
  frameCallbacks st = (if renderScheduled st then 1 else 0)
  ∧ renders st ≤ countEvents AnimationFrame evs
  ∧ renders st ≤ countEvents CallScheduleRender evs
  ∧ frameCallbacks burst = 1
  ∧ renders burst = renders st
  ∧ animationFrame burst
    = {| renderScheduled := false; frameCallbacks := 0; renders := S (renders st) |}.
Proof.
  intros st burst.
  destruct (runRenderEvents_pending evs initialRenderState eq_refl) as (Hinv & Hf & Hc).
  fold st in Hinv, Hf, Hc. simpl in Hf, Hc.
  split; [done|]. split; [done|]. split; [destruct (renderScheduled st); lia|].
  unfold burst. rewrite (scheduleRender_burst n st Hinv). done.
Qed.

(** Three status updates within one frame are drawn once. *)
Example scheduleRender_sample :
  runRenderEvents
    [CallScheduleRender; CallScheduleRender; CallScheduleRender; AnimationFrame;
     AnimationFrame; CallScheduleRender; AnimationFrame] initialRenderState
  = {| renderScheduled := false; frameCallbacks := 0; renders := 2 |}.
Proof. reflexivity. Qed.

(** ** File names of paths *)

Lemma lastSegment_plain path : ∀ acc,
  noSeparator path = true → lastSegment acc path = acc +:+ path.
Proof.
  induction path as [|a path IH]; intros acc Hno; simpl; [by rewrite str_app_nil_r|].
  simpl in Hno. apply andb_true_iff in Hno as [Ha Hno]. unfold isSeparator in Ha.
  apply negb_true_iff in Ha. rewrite Ha. rewrite IH by done.
  by rewrite str_app_assoc.
Qed.

Lemma lastSegment_dir dir name : ∀ acc,
  endsWithSeparator dir = true →
  lastSegment acc (dir +:+ name) = lastSegment EmptyString name.
Proof.
  induction dir as [|a dir IH]; intros acc Hend; [done|].
  rewrite str_app_cons. simpl. fold (isSeparator a).
  destruct dir as [|b dir].
  - simpl in Hend. by rewrite Hend.
  - change (endsWithSeparator (String b dir) = true) in Hend.
    destruct (isSeparator a); by apply IH.
Qed.

Lemma noSeparator_app s t : noSeparator (s +:+ t) = noSeparator s && noSeparator t.
Proof.
  induction s as [|a s IH]; [done|]. rewrite str_app_cons. simpl. rewrite IH.
  by rewrite andb_assoc.
Qed.

Lemma endsWithSeparator_app s t :
  endsWithSeparator t = true → endsWithSeparator (s +:+ t) = true.
Proof.
  intros Ht. induction s as [|a s IH]; [done|]. rewrite str_app_cons.
  destruct (s +:+ t) eqn:E; [|done].
  destruct s; [|done]. rewrite str_app_nil_l in E. by rewrite E in Ht.
Qed.

Lemma lastSegment_split path : ∀ acc,
  noSeparator acc = true →
  ∃ dir, acc +:+ path = dir +:+ lastSegment acc path
         ∧ noSeparator (lastSegment acc path) = true
         ∧ (dir = EmptyString ∨ endsWithSeparator dir = true).
Proof.
  induction path as [|a path IH]; intros acc Hacc.
  - exists EmptyString. simpl. rewrite str_app_nil_r. by repeat split; [|left].
  - simpl. fold (isSeparator a). destruct (isSeparator a) eqn:Ha.
    + destruct (IH EmptyString eq_refl) as (dir & Hpath & Hno & Hdir).
      rewrite str_app_nil_l in Hpath.
      exists (acc +:+ String a dir). split; [|split; [done|right]].
      * rewrite str_app_assoc, str_app_cons. by rewrite <- Hpath.
      * apply endsWithSeparator_app. destruct Hdir as [->|Hdir]; [done|].
        simpl. by destruct dir.
    + destruct (IH (acc +:+ String a EmptyString)) as (dir & Hpath & Hno & Hdir).
      { rewrite noSeparator_app, Hacc. simpl. by rewrite Ha. }
      exists dir. split; [|done]. by rewrite <- Hpath, str_app_assoc.
Qed.

(** X21. The name [split(/[/\\]/).pop() || fallback] gives to a path
    (the task name of an uploaded file, of a synced folder): every path
    is a directory part that is empty or ends with a slash or a
    backslash, followed by a last segment without any; the name is that
    last segment, unless it is empty (the empty path, or a path that ends
    with a separator), in which case it is the fallback. So for a
    directory part ending with a separator and a non-empty file name
    without separators, Unix or Windows style, the name is the file
    name. *)
Theorem baseNameOr_last_segment (fallback path : string) :
  (∃ dir, path = dir +:+ lastSegment EmptyString path
          ∧ noSeparator (lastSegment EmptyString path) = true
          ∧ (dir = EmptyString ∨ endsWithSeparator dir = true))
  ∧ (lastSegment EmptyString path ≠ EmptyString →
       baseNameOr fallback path = lastSegment EmptyString path)
  ∧ (path = EmptyString ∨ endsWithSeparator path = true →
       baseNameOr fallback path = fallback)
  ∧ (∀ dir name, path = dir +:+ name →
       dir = EmptyString ∨ endsWithSeparator dir = true →
       noSeparator name = true → name ≠ EmptyString →
       baseNameOr fallback path = name).
Proof.
  split; [by apply (lastSegment_split path EmptyString)|].
  split.
  { intros Hne. unfold baseNameOr. by destruct (lastSegment EmptyString path). }
  assert (∀ dir name, dir = EmptyString ∨ endsWithSeparator dir = true →
            noSeparator name = true →
            lastSegment EmptyString (dir +:+ name) = name) as Hseg.
  { intros dir name [->|Hdir] Hname.
    - by rewrite str_app_nil_l, lastSegment_plain.
    - by rewrite lastSegment_dir, lastSegment_plain. }
  split.
  - intros Hpath. unfold baseNameOr.
    rewrite <- (str_app_nil_r path), (Hseg path EmptyString); [done| |done].
    destruct Hpath as [->|?]; [by left|by right].
  - intros dir name -> Hdir Hname Hne. unfold baseNameOr. rewrite Hseg by done.
    by destruct name.
Qed.

Lemma baseNameOr_last_segment_sample :
  baseNameOr "x" "/home/me/photo.jpg" = "photo.jpg"
  ∧ baseNameOr "x" ("C:" +:+ String backslash "Users" +:+ String backslash "a.txt") = "a.txt"
  ∧ baseNameOr "folder" "/home/me/" = "folder"
  ∧ baseNameOr "x" "plain" = "plain".
Proof.
  destruct (baseNameOr_last_segment "x" "/home/me/photo.jpg") as (_ & _ & _ & Hname).
  destruct (baseNameOr_last_segment "folder" "/home/me/") as (_ & _ & Hfallback & _).
  split; [by apply (Hname "/home/me/" "photo.jpg"); [|right| |]|].
  split; [reflexivity|]. split; [apply Hfallback; by right|reflexivity].
Defined.

(** ** Upload batches and the progress line *)

Lemma updateTaskStatus_ids taskId status error st :
  task_id <$> tasks (updateTaskStatus taskId status error st) = task_id <$> tasks st.
Proof.
  unfold updateTaskStatus. destruct (findTask taskId (tasks st)); [|done].
  simpl. by apply assignFirst_ids.
Qed.

Lemma upload_step_ids profileId bucket prefix concurrency ev
    (s s' : Pool UploadItem UploadOutcome UploadApp) :
  step (uploadWorker profileId bucket prefix) concurrency ev s = Some s' →
  task_id <$> tasks (store (app s')) = task_id <$> tasks (store (app s)).
Proof.
  intros Hstep. destruct ev as [|p o|p]; simpl in Hstep.
  - destruct (control s); try done.
    + destruct (_ || _); by injection Hstep as <-.
    + destruct (_ && _).
      * destruct (queue s) as [|item rest]; [done|]. injection Hstep as <-.
        simpl. apply updateTaskStatus_ids.
      * by injection Hstep as <-.
    + destruct (bool_decide _); by injection Hstep as <-.
    + by injection Hstep as <-.
  - destruct (synchronous (control s)); [done|].
    destruct (promises s !! p) as [[item [| |]]|]; try done.
    injection Hstep as <-. simpl. destruct o; apply updateTaskStatus_ids.
  - destruct (synchronous (control s)); [done|].
    destruct (promises s !! p) as [[item [| |]]|]; try done.
    by injection Hstep as <-.
Qed.

Lemma upload_run_ids profileId bucket prefix concurrency schedule :
  ∀ s s' : Pool UploadItem UploadOutcome UploadApp,
  run (uploadWorker profileId bucket prefix) concurrency schedule s = Some s' →
  task_id <$> tasks (store (app s')) = task_id <$> tasks (store (app s)).
Proof.
  induction schedule as [|ev rest IH]; intros s s' Hrun; simpl in Hrun.
  - by injection Hrun as <-.
  - destruct (step _ concurrency ev s) as [s1|] eqn:Hstep; [|done].
    rewrite (IH _ _ Hrun). by eapply upload_step_ids.
Qed.

Lemma countStatus_app status l1 l2 :
  countStatus status (l1 ++ l2) = countStatus status l1 + countStatus status l2.
Proof. unfold countStatus. by rewrite filter_app, length_app. Qed.

Lemma terminal_count l :
  Forall (fun t => isTerminal (task_status t) = true) l →
  countStatus StatusCompleted l + countStatus StatusFailed l = length l
  ∧ filter (fun t => task_status t ≠ StatusCompleted ∧ task_status t ≠ StatusFailed) l = [].
Proof.
  unfold countStatus. induction 1 as [|t l Ht Hl [IH1 IH2]]; [done|].
  rewrite !filter_cons. destruct (task_status t) eqn:Hs; try done;
    repeat case_decide; try congruence; try tauto; simpl; split; (lia || done).
Qed.

Lemma upload_batch_terminal sel filePaths ts uw s0 concurrency schedule s :
  uploadFilesWithTasks sel filePaths ts = Some (uw, s0) →
  run uw concurrency schedule s0 = Some s →
  control s = Returned →
  ∃ batch, tasks (store (app s)) = batch ++ tasks ts
           ∧ length batch = length filePaths
           ∧ Forall (fun t => isTerminal (task_status t) = true) batch.
Proof.
  intros Hup Hrun Hret.
  destruct (upload_invariants _ _ _ _ _ _ _ _ Hup Hrun)
    as (Hq & Hinv & pid & b & Huw & batch & log & Htasks & Hlen & _ & _ & _ & _ & _ & Hall).
  pose proof (uploadFilesWithTasks_Some _ _ _ _ _ Hup) as (pid' & b' & _ & _ & Huw' & Hs0).
  rewrite uploadItems_length in Hlen.
  exists batch. split; [done|]. split; [done|].
  assert (task_id <$> batch
          = task_id <$> newTasks (taskIdCounter ts) TypeUpload
                          ((fun filePath => baseNameOr filePath filePath) <$> filePaths))
    as Hids.
  { rewrite Huw' in Hrun. pose proof (upload_run_ids _ _ _ _ _ _ _ Hrun) as Hrun_ids.
    rewrite Htasks, Hs0 in Hrun_ids. simpl in Hrun_ids. rewrite !fmap_app in Hrun_ids.
    apply app_inj_1 in Hrun_ids as [? _]; [done|].
    by rewrite !length_fmap, newTasks_length, length_fmap. }
  apply Forall_lookup. intros k t Hk.
  assert (k < length filePaths) as Hlt by (apply lookup_lt_Some in Hk; lia).
  destruct (lookup_lt_is_Some_2
              (uploadItems filePaths
                 (newTasks (taskIdCounter ts) TypeUpload
                    ((fun filePath => baseNameOr filePath filePath) <$> filePaths))) k)
    as [item Hitem]; [by rewrite uploadItems_length|].
  destruct (uploadItems_lookup _ _ _ _ Hitem) as [_ Hcreated].
  assert (task_id t = task_id (task item)) as Hid.
  { apply (f_equal (fun l => l !! k)) in Hids. rewrite !list_lookup_fmap in Hids.
    rewrite Hk, Hcreated in Hids. simpl in Hids. congruence. }
  destruct (Hall _ _ Hitem) as [_ (t' & Hfind & Hstatus & _)].
  assert (findTask (task_id t) batch = Some t) as Hfind'.
  { eapply findTask_lookup_NoDup; [|done]. rewrite Hids. apply newTasks_NoDup. }
  rewrite <- Hid, Hfind' in Hfind. injection Hfind as <-.
  destruct (finalized_when_returned _ _ _ _ _ Hinv Hret Hitem) as [_ [o Ho]].
  rewrite Hstatus, Ho. by destruct o.
Qed.

Lemma findTask_app_r taskId l1 l2 :
  taskId ∉ task_id <$> l1 → findTask taskId (l1 ++ l2) = findTask taskId l2.
Proof.
  induction l1 as [|x l1 IH]; [done|]. rewrite fmap_cons, not_elem_of_cons. intros [Hx Hl].
  simpl. rewrite findTask_cons, decide_False by done. by apply IH.
Qed.

Lemma findTask_clearCompletedTasks taskId st :
  NoDup (task_id <$> tasks st) →
  findTask taskId (tasks (clearCompletedTasks st))
  = match findTask taskId (tasks st) with
    | Some t => if isTerminal (task_status t) then None else Some t
    | None => None
    end.
Proof.
  unfold clearCompletedTasks. cbn [tasks]. generalize (tasks st) as l.
  induction l as [|x l IH]; [done|].
  rewrite fmap_cons, NoDup_cons. intros [Hx Hnd]. specialize (IH Hnd).
  rewrite filter_cons, (findTask_cons taskId x l).
  destruct (decide (task_id x = taskId)) as [Heq|Hne].
  - destruct (decide (task_status x ≠ StatusCompleted ∧ task_status x ≠ StatusFailed))
      as [[H1 H2]|Hterm].
    + rewrite findTask_cons, decide_True by done. by destruct (task_status x).
    + rewrite IH, (proj2 (findTask_None taskId l)) by by rewrite <- Heq.
      destruct (task_status x); try done; destruct Hterm; by split.
  - destruct (decide (task_status x ≠ StatusCompleted ∧ task_status x ≠ StatusFailed));
      [|done].
    by rewrite findTask_cons, decide_False.
Qed.

Lemma updateTaskStatus_counter taskId status error st :
  taskIdCounter (updateTaskStatus taskId status error st) = taskIdCounter st.
Proof. unfold updateTaskStatus. by destruct (findTask taskId (tasks st)). Qed.

Lemma updateTaskStatus_findTask_eq taskId status error st t :
  findTask taskId (tasks st) = Some t →
  findTask taskId (tasks (updateTaskStatus taskId status error st))
  = Some (setStatus status error t).
Proof.
  intros H. unfold updateTaskStatus. rewrite H. cbn [tasks].
  by apply findTask_assignFirst_eq.
Qed.

Lemma updateTaskStatus_findTask_ne taskId taskId' status error st :
  taskId' ≠ taskId →
  findTask taskId' (tasks (updateTaskStatus taskId status error st))
  = findTask taskId' (tasks st).
Proof.
  intros Hne. unfold updateTaskStatus. destruct (findTask taskId (tasks st)); [|done].
  cbn [tasks]. by apply findTask_assignFirst_ne.
Qed.

Lemma applyTaskOp_counter op st : taskIdCounter st ≤ taskIdCounter (applyTaskOp op st).
Proof.
  destruct op as [type fileName|type fileNames|taskId status error|]; cbn.
  - lia.
  - lia.
  - by rewrite updateTaskStatus_counter.
  - lia.
Qed.

(** A call made by other code leaves a task of the batch as it is, or,
    for Clear completed on a task in a terminal status, removes it. *)
Lemma applyTaskOp_findTask op st n :
  idsInUse st → n ≤ taskIdCounter st →
  match op with
  | OpUpdateTaskStatus taskId _ _ => taskId ≠ taskIdOf n
  | _ => True
  end →
  findTask (taskIdOf n) (tasks (applyTaskOp op st)) = findTask (taskIdOf n) (tasks st)
  ∨ (findTask (taskIdOf n) (tasks (applyTaskOp op st)) = None
     ∧ ∃ t, findTask (taskIdOf n) (tasks st) = Some t ∧ isTerminal (task_status t) = true).
Proof.
  intros [Hnd Hids] Hn Hforeign.
  destruct op as [type fileName|type fileNames|taskId status error|]; cbn [applyTaskOp].
  - left. unfold addTask. cbn [snd tasks]. rewrite findTask_cons, decide_False; [done|].
    simpl. intros Heq%taskIdOf_inj. lia.
  - left. unfold addTasksBatch. cbn [snd tasks]. apply findTask_app_r.
    intros (t&Heq&Ht)%list_elem_of_fmap.
    apply newTasks_ids in Ht as (m&Hm&Hid). rewrite Hid in Heq.
    apply taskIdOf_inj in Heq. lia.
  - left. apply updateTaskStatus_findTask_ne. congruence.
  - rewrite findTask_clearCompletedTasks by done.
    destruct (findTask (taskIdOf n) (tasks st)) as [t|]; [|by left].
    destruct (isTerminal (task_status t)) eqn:Hterm; [right|by left].
    split; [done|]. by exists t.
Qed.

Lemma PoolInv_app {T O A} concurrency (items : list T) (s : Pool T O A) (a : A) :
  PoolInv concurrency items s →
  PoolInv concurrency items
    {| queue := queue s; running := running s; promises := promises s;
       control := control s; app := a |}.
Proof. intros [H1 H2 H3 H4 H5 H6 H7 H8]. by split. Qed.

Section UploadBeside.

Variables profileId bucket prefix : string.
Variable concurrency : Z.
Variable items : list UploadItem.
Hypothesis items_distinct : ∀ k k' item item',
  items !! k = Some item → items !! k' = Some item' →
  task_id (task item) = task_id (task item') → k = k'.

Local Abbreviation uw := (uploadWorker profileId bucket prefix).

(** One call of [updateTaskStatus] by the worker of item [p], whose
    promise goes from state [ph p] to state [ph' p]. *)
Lemma taskSettles_update st (ph ph' : nat → option (PromiseState UploadOutcome))
    p item status error :
  items !! p = Some item →
  (∀ k, k ≠ p → ph' k = ph k) →
  (∀ k it, items !! k = Some it → taskSettles (tasks st) it (ph k)) →
  isTerminal (expectedStatus (ph p)) = false →
  expectedStatus (ph' p) = status →
  ∀ k it, items !! k = Some it →
    taskSettles (tasks (updateTaskStatus (task_id (task item)) status error st)) it (ph' k).
Proof.
  intros Hp Hother Hall Hnt Hst k it Hk. specialize (Hall _ _ Hk). unfold taskSettles in *.
  destruct (decide (k = p)) as [->|Hne].
  - assert (it = item) as -> by congruence.
    destruct (findTask (task_id (task item)) (tasks st)) as [t|] eqn:Ht; [|congruence].
    by rewrite (updateTaskStatus_findTask_eq _ _ _ _ _ Ht), Hst.
  - rewrite updateTaskStatus_findTask_ne, Hother; [done|done|].
    intros Heq. apply Hne. by eapply items_distinct.
Qed.

Lemma batch_step_inv ev s s' :
  PoolInv concurrency items s → BatchInv items s →
  step uw concurrency ev s = Some s' → BatchInv items s'.
Proof.
  intros Hinv (Hin & Hbound & Hall) Hstep.
  destruct ev as [|p o|p]; simpl in Hstep.
  - destruct (control s) eqn:Hctl; try done.
    + destruct (_ || _); injection Hstep as <-; done.
    + destruct (_ && _).
      * destruct (queue s) as [|item rest] eqn:Hq; [done|]. injection Hstep as <-.
        assert (items !! length (promises s) = Some item) as Hitem.
        { rewrite <- (inv_items _ _ _ Hinv), Hq. unfold called.
          rewrite lookup_app_r by (rewrite length_fmap; lia).
          by rewrite length_fmap, Nat.sub_diag. }
        assert (promiseAt s (length (promises s)) = None) as Hnone.
        { unfold promiseAt. by rewrite lookup_ge_None_2. }
        split; [|split]; cbn [app store dispatch begin uw uploadWorker].
        -- by apply (applyTaskOp_idsInUse (OpUpdateTaskStatus _ _ _)).
        -- intros it Hit. rewrite updateTaskStatus_counter. by apply Hbound.
        -- apply (taskSettles_update (store (app s)) (promiseAt s) _
                    (length (promises s)) item StatusRunning None Hitem);
             rewrite ?Hnone; try done.
           ++ intros k Hk. unfold promiseAt. simpl.
              destruct (decide (k < length (promises s))).
              ** by rewrite lookup_app_l.
              ** rewrite !lookup_ge_None_2; [done|lia|rewrite length_app; simpl; lia].
           ++ unfold promiseAt. simpl. by rewrite lookup_app_r, Nat.sub_diag.
      * injection Hstep as <-. done.
    + destruct (bool_decide _); injection Hstep as <-; done.
    + injection Hstep as <-. done.
  - destruct (synchronous (control s)) eqn:Hsync; [done|].
    destruct (promises s !! p) as [[item [| |]]|] eqn:Hp; try done.
    injection Hstep as <-.
    assert (items !! p = Some item) as Hitem.
    { rewrite <- (inv_items _ _ _ Hinv). apply lookup_app_l_Some.
      unfold called. by rewrite list_lookup_fmap, Hp. }
    assert (promiseAt s p = Some FnPending) as Hpend.
    { unfold promiseAt. by rewrite Hp. }
    set (error := match o with UploadResolved => None | UploadRejected reason => Some reason end).
    assert (match o with
            | UploadResolved =>
                updateTaskStatus (task_id (task item)) StatusCompleted None (store (app s))
            | UploadRejected reason =>
                updateTaskStatus (task_id (task item)) StatusFailed (Some reason) (store (app s))
            end
            = updateTaskStatus (task_id (task item)) (terminalStatus o) error (store (app s)))
      as Hstore by by destruct o.
    split; [|split]; cbn [app store finish uw uploadWorker]; rewrite Hstore.
    + by apply (applyTaskOp_idsInUse (OpUpdateTaskStatus _ _ _)).
    + intros it Hit. rewrite updateTaskStatus_counter. by apply Hbound.
    + assert (∀ a : UploadApp, promiseAt
                {| queue := queue s; running := running s;
                   promises := <[p := (item, FnSettled o)]> (promises s);
                   control := control s; app := a |} p
              = Some (FnSettled o)) as Hnew.
      { intros a. unfold promiseAt. simpl.
        by rewrite list_lookup_insert_eq by by eapply lookup_lt_Some. }
      apply (taskSettles_update (store (app s)) (promiseAt s) _ p item
               (terminalStatus o) error Hitem);
        rewrite ?Hnew, ?Hpend; try done.
      intros k Hk. unfold promiseAt. simpl. by rewrite list_lookup_insert_ne.
  - destruct (synchronous (control s)) eqn:Hsync; [done|].
    destruct (promises s !! p) as [[item [| |]]|] eqn:Hp; try done.
    injection Hstep as <-. split; [done|]. split; [done|]. cbn [app].
    intros k it Hk. specialize (Hall _ _ Hk). unfold promiseAt in *. cbn [promises].
    destruct (decide (k = p)) as [->|Hne].
    + rewrite list_lookup_insert_eq by by eapply lookup_lt_Some.
      by rewrite Hp in Hall.
    + by rewrite list_lookup_insert_ne.
Qed.

Lemma batch_uploadStep_inv e s s' :
  foreignTo items e →
  PoolInv concurrency items s → BatchInv items s →
  uploadStep uw concurrency e s = Some s' →
  PoolInv concurrency items s' ∧ BatchInv items s'.
Proof.
  intros Hforeign Hinv Hbatch Hstep. destruct e as [ev|op]; cbn [uploadStep] in Hstep.
  { split; [by eapply step_inv|by eapply batch_step_inv]. }
  destruct (synchronous (control s)); [done|]. injection Hstep as <-.
  split; [by apply PoolInv_app|].
  destruct Hbatch as (Hin & Hbound & Hall).
  split; [|split]; cbn [app store].
  - by apply applyTaskOp_idsInUse.
  - intros it Hit. destruct (Hbound it Hit) as (n & Hn & Hid). exists n. split; [|done].
    pose proof (applyTaskOp_counter op (store (app s))). lia.
  - intros k it Hk. specialize (Hall _ _ Hk).
    assert (it ∈ items) as Hit by by eapply list_elem_of_lookup_2.
    destruct (Hbound it Hit) as (n & Hn & Hid).
    unfold taskSettles, promiseAt in *. cbn [promises]. rewrite Hid in *.
    destruct (applyTaskOp_findTask op (store (app s)) n Hin) as [Hsame|(Hgone & t & Ht & Hterm)].
    + lia.
    + destruct op as [| |taskId status error|]; try done.
      intros ->. apply Hforeign. apply list_elem_of_fmap. by exists it.
    + by rewrite Hsame.
    + rewrite Hgone. rewrite Ht in Hall. by rewrite <- Hall.
Qed.

Lemma batch_uploadRun_inv schedule : ∀ s s',
  Forall (foreignTo items) schedule →
  PoolInv concurrency items s → BatchInv items s →
  uploadRun uw concurrency schedule s = Some s' →
  PoolInv concurrency items s' ∧ BatchInv items s'.
Proof.
  induction schedule as [|e rest IH]; intros s s' Hforeign Hinv Hbatch Hrun;
    cbn [uploadRun] in Hrun.
  - by injection Hrun as <-.
  - apply Forall_cons in Hforeign as [He Hrest].
    destruct (uploadStep uw concurrency e s) as [s1|] eqn:Hstep; [|done].
    destruct (batch_uploadStep_inv _ _ _ He Hinv Hbatch Hstep) as [Hinv1 Hbatch1].
    by eapply IH.
Qed.

End UploadBeside.

Lemma batch_start_inv filePaths ts :
  idsInUse ts →
  BatchInv
    (uploadItems filePaths
       (newTasks (taskIdCounter ts) TypeUpload
          ((fun filePath => baseNameOr filePath filePath) <$> filePaths)))
    (start
       (uploadItems filePaths
          (newTasks (taskIdCounter ts) TypeUpload
             ((fun filePath => baseNameOr filePath filePath) <$> filePaths)))
       {| store := (addTasksBatch TypeUpload
                      ((fun filePath => baseNameOr filePath filePath) <$> filePaths) ts).2;
          bridge := [] |}).
Proof.
  intros Hin. split; [|split]; cbn [app store start].
  - by apply (applyTaskOp_idsInUse (OpAddTasksBatch _ _)).
  - intros item [k Hk]%list_elem_of_lookup_1.
    destruct (uploadItems_lookup _ _ _ _ Hk) as [_ Hc].
    assert (task item ∈ newTasks (taskIdCounter ts) TypeUpload
              ((fun filePath => baseNameOr filePath filePath) <$> filePaths)) as Ht
      by by eapply list_elem_of_lookup_2.
    apply newTasks_ids in Ht as (m & Hm & Hid). exists m. split; [|done].
    unfold addTasksBatch. cbn [snd taskIdCounter]. lia.
  - intros k item Hk. destruct (uploadItems_lookup _ _ _ _ Hk) as [_ Hc].
    unfold taskSettles, addTasksBatch. cbn [snd tasks].
    erewrite findTask_app_l.
    2:{ eapply findTask_lookup_NoDup; [apply newTasks_NoDup|exact Hc]. }
    apply newTasks_lookup in Hc as (f & _ & ->). done.
Qed.

Lemma uploadRun_pool uw concurrency schedule : ∀ s,
  handlerOps schedule = [] →
  uploadRun uw concurrency schedule s = run uw concurrency (poolEvents schedule) s.
Proof.
  induction schedule as [|[ev|op] rest IH]; intros s Hnone; [done| |done].
  cbn [uploadRun uploadStep]. change (poolEvents (OfPool ev :: rest)) with (ev :: poolEvents rest).
  cbn [run]. destruct (step uw concurrency ev s); [by apply IH|done].
Qed.

(** X22. When an upload batch has returned, every task of the batch that
    is still in the task list is completed or failed, and Clear completed
    then removes it, whatever other code of the page did to the list
    while the batch was suspended (the Clear completed button, tasks
    added and updated by other actions), as long as the ids in use before
    the batch were those made from the counter and other code updates
    only tasks of its own. In a run in which no other code touches the
    task list between the start and the return of the batch, the progress
    line counts each file of the batch as done: the done count is the
    count before the batch plus the number of files, of a total that has
    grown by the same number; and Clear completed then leaves what the
    list would have held had it been cleared before the batch. *)
Theorem upload_batch_progress
    (sel : Selection) (filePaths : list string) (ts : TaskStore)
    (uw : Worker UploadItem UploadOutcome UploadApp)
    (s0 : Pool UploadItem UploadOutcome UploadApp) (concurrency : Z)
    (schedule : list UploadEvent) (s : Pool UploadItem UploadOutcome UploadApp) :
  uploadFilesWithTasks sel filePaths ts = Some (uw, s0) →
  uploadRun uw concurrency schedule s0 = Some s →
  control s = Returned →
  length (queue s0) = length filePaths
  ∧ (idsInUse ts → Forall (foreignTo (queue s0)) schedule →
       ∀ item, item ∈ queue s0 →
         (∀ t, findTask (task_id (task item)) (tasks (store (app s))) = Some t →
               isTerminal (task_status t) = true)
         ∧ findTask (task_id (task item)) (tasks (clearCompletedTasks (store (app s))))
           = None)
  ∧ (handlerOps schedule = [] →
       progressDone (store (app s)) = length filePaths + progressDone ts
       ∧ length (tasks (store (app s))) = length filePaths + length (tasks ts)
       ∧ tasks (clearCompletedTasks (store (app s))) = tasks (clearCompletedTasks ts)
       ∧ (tasks ts = [] →
            taskProgressText (store (app s))
            = pretty (length filePaths) +:+ " / " +:+ pretty (length filePaths)
              +:+ " completed")).
Proof.
  intros Hup Hrun Hret.
  pose proof (uploadFilesWithTasks_Some _ _ _ _ _ Hup) as (pid & b & _ & _ & Huw & Hs0).
  split; [rewrite Hs0; cbn [queue start]; apply uploadItems_length|].
  split.
  - intros Hin Hforeign item Hitem. rewrite Hs0 in Hforeign, Hitem, Hrun.
    cbn [queue start] in Hforeign, Hitem. rewrite Huw in Hrun.
    destruct (batch_uploadRun_inv pid b (currentPrefix sel) concurrency _
                (uploadItems_distinct filePaths ts) schedule _ _ Hforeign
                (start_inv _ _ _) (batch_start_inv filePaths ts Hin) Hrun)
      as [Hinv (Hin' & _ & Hall)].
    apply list_elem_of_lookup_1 in Hitem as [k Hk].
    destruct (finalized_when_returned _ _ _ _ _ Hinv Hret Hk) as [_ [o Ho]].
    specialize (Hall _ _ Hk). unfold taskSettles in Hall. rewrite Ho in Hall.
    destruct Hin' as [Hnd _]. rewrite findTask_clearCompletedTasks by done.
    destruct (findTask (task_id (task item)) (tasks (store (app s)))) as [t|];
      [|by split].
    assert (isTerminal (task_status t) = true) as Hterm by (rewrite Hall; by destruct o).
    split; [by intros t' [= <-]|by rewrite Hterm].
  - intros Hnone. rewrite (uploadRun_pool _ _ _ _ Hnone) in Hrun.
    destruct (upload_batch_terminal _ _ _ _ _ _ _ _ Hup Hrun Hret)
      as (batch & Htasks & Hlen & Hterm).
    destruct (terminal_count batch Hterm) as [Hcount Hnothing].
    assert (progressDone (store (app s)) = length filePaths + progressDone ts) as Hdone.
    { unfold progressDone. rewrite Htasks, !countStatus_app. lia. }
    split; [done|]. split; [rewrite Htasks, length_app; lia|]. split.
    + unfold clearCompletedTasks. simpl. by rewrite Htasks, filter_app, Hnothing.
    + intros Hempty. unfold taskProgressText. rewrite Hdone, Htasks, length_app, Hlen.
      unfold progressDone, countStatus. rewrite Hempty. simpl. by rewrite !Nat.add_0_r.
Qed.

(** Two files under a limit of 1. Left alone, the batch returns with the
    progress line at 2 of 2. With a click on Clear completed after the
    first upload has failed, it returns with the line at 1 of 1: the
    failed task has left the list; the task still listed is completed,
    and a second click empties the list. *)
Lemma upload_batch_progress_sample :
  ∃ s s',
    uploadFilesWithTasks sampleSelection samplePaths emptyStore
    = Some (sampleWorker, sampleStart)
    ∧ uploadRun sampleWorker 1 (OfPool <$> sampleSchedule) sampleStart = Some s
    ∧ control s = Returned
    ∧ taskProgressText (store (app s)) = "2 / 2 completed"
    ∧ tasks (clearCompletedTasks (store (app s))) = []
    ∧ uploadRun sampleWorker 1 sampleScheduleCleared sampleStart = Some s'
    ∧ control s' = Returned
    ∧ taskProgressText (store (app s')) = "1 / 1 completed"
    ∧ ∀ item, item ∈ queue sampleStart →
        findTask (task_id (task item)) (tasks (clearCompletedTasks (store (app s'))))
        = None.
Proof.
  assert (uploadFilesWithTasks sampleSelection samplePaths emptyStore
          = Some (sampleWorker, sampleStart)) as H1 by (vm_compute; reflexivity).
  destruct (uploadRun sampleWorker 1 (OfPool <$> sampleSchedule) sampleStart) as [s|] eqn:H2;
    [|by vm_compute in H2].
  destruct (uploadRun sampleWorker 1 sampleScheduleCleared sampleStart) as [s'|] eqn:H2';
    [|by vm_compute in H2'].
  exists s, s'. split; [done|]. split; [done|].
  assert (control s = Returned) as H3 by (vm_compute in H2; by injection H2 as <-).
  assert (control s' = Returned) as H3' by (vm_compute in H2'; by injection H2' as <-).
  pose proof (upload_batch_progress _ _ _ _ _ _ _ _ H1 H2 H3) as (_ & _ & Halone).
  destruct Halone as (_ & _ & Hclear & Htext); [by vm_compute|].
  split; [done|]. split; [by apply Htext|]. split; [exact Hclear|].
  split; [done|]. split; [done|].
  split; [vm_compute in H2'; by injection H2' as <-|].
  pose proof (upload_batch_progress _ _ _ _ _ _ _ _ H1 H2' H3') as (_ & Hbeside & _).
  intros item Hitem. apply Hbeside; [apply emptyStore_idsInUse| |done].
  unfold sampleScheduleCleared. rewrite !Forall_app, Forall_singleton.
  split; [|split]; [apply Forall_fmap, Forall_true; done|done
                   |apply Forall_fmap, Forall_true; done].
Defined.

(** ** Previewable files *)

Lemma toLowerCaseChar_dot a : Ascii.eqb (toLowerCaseChar a) "." = Ascii.eqb a ".".
Proof. destruct a as [[] [] [] [] [] [] [] []]; reflexivity. Qed.

Lemma toLowerCaseChar_idemp a : toLowerCaseChar (toLowerCaseChar a) = toLowerCaseChar a.
Proof. destruct a as [[] [] [] [] [] [] [] []]; reflexivity. Qed.

Lemma toLowerCase_app s t : toLowerCase (s +:+ t) = toLowerCase s +:+ toLowerCase t.
Proof. induction s as [|a s IH]; [done|]. rewrite str_app_cons. simpl. by rewrite IH. Qed.

Lemma toLowerCase_idemp s : toLowerCase (toLowerCase s) = toLowerCase s.
Proof. induction s as [|a s IH]; [done|]. simpl. by rewrite toLowerCaseChar_idemp, IH. Qed.

Lemma occurrences_toLowerCase s : occurrences "." (toLowerCase s) = occurrences "." s.
Proof. induction s as [|a s IH]; [done|]. simpl. by rewrite toLowerCaseChar_dot, IH. Qed.

Lemma lastPiece_plain c s : ∀ acc,
  occurrences c s = 0 → lastPiece c acc s = acc +:+ s.
Proof.
  induction s as [|a s IH]; intros acc Hno; simpl; [by rewrite str_app_nil_r|].
  simpl in Hno. destruct (Ascii.eqb a c); [done|].
  rewrite IH by done. by rewrite str_app_assoc.
Qed.

Lemma lastPiece_after c stem ext : ∀ acc,
  occurrences c ext = 0 →
  lastPiece c acc (stem +:+ String c ext) = ext.
Proof.
  induction stem as [|a stem IH]; intros acc Hno.
  - rewrite str_app_nil_l. simpl. rewrite Ascii.eqb_refl. by rewrite lastPiece_plain.
  - rewrite str_app_cons. simpl. destruct (Ascii.eqb a c); by apply IH.
Qed.

(** X23. Whether a key counts as a media file (and gets a preview) or as
    a video depends only on the text after its last dot, compared without
    regard to case with the lists of extensions: for a key ending in a
    dot and an extension without dots the answer is whether the
    lower-cased extension is in the list. A key without any dot is taken
    whole as its own extension, so a file named like an extension counts
    as media. Every extension of the video list is in the media list,
    except [mov] and [avi]. *)
Theorem isMediaFile_extension (stem ext : string) :
  occurrences "." ext = 0 →
  isMediaFile (stem +:+ "." +:+ ext) = bool_decide (toLowerCase ext ∈ mediaExtensions)
  ∧ isVideoFile (stem +:+ "." +:+ ext) = bool_decide (toLowerCase ext ∈ videoExtensions)
  ∧ isMediaFile ext = bool_decide (toLowerCase ext ∈ mediaExtensions)
  ∧ isMediaFile (toLowerCase (stem +:+ "." +:+ ext)) = isMediaFile (stem +:+ "." +:+ ext)
  ∧ (isVideoFile (stem +:+ "." +:+ ext) = true →
       isMediaFile (stem +:+ "." +:+ ext) = true ∨ toLowerCase ext ∈ ["mov"; "avi"]).
Proof.
  intros Hno.
  assert (extensionOf (stem +:+ "." +:+ ext) = toLowerCase ext) as Hext.
  { unfold extensionOf. rewrite !toLowerCase_app. simpl toLowerCase at 2.
    change (String (toLowerCaseChar ".") EmptyString +:+ toLowerCase ext)
      with (String "." (toLowerCase ext)).
    apply lastPiece_after. by rewrite occurrences_toLowerCase. }
  assert (extensionOf ext = toLowerCase ext) as Hplain.
  { unfold extensionOf. rewrite lastPiece_plain; [done|]. by rewrite occurrences_toLowerCase. }
  unfold isMediaFile, isVideoFile. rewrite Hext, Hplain.
  split; [done|]. split; [done|]. split; [done|]. split.
  - unfold extensionOf. rewrite toLowerCase_idemp. fold (extensionOf (stem +:+ "." +:+ ext)).
    by rewrite Hext.
  - intros Hvideo%bool_decide_eq_true. unfold videoExtensions in Hvideo.
    rewrite !elem_of_cons, elem_of_nil in Hvideo.
    destruct Hvideo as [H|[H|[H|[H|[H|[]]]]]]; rewrite H;
      [by left|by left|by left|right|right]; rewrite !elem_of_cons; tauto.
Qed.

Lemma isMediaFile_extension_sample :
  isMediaFile "photos/2024/Beach.JPG" = true
  ∧ isVideoFile "photos/2024/Beach.JPG" = false
  ∧ isMediaFile "JPG" = true.
Proof.
  pose proof (isMediaFile_extension "photos/2024/Beach" "JPG" eq_refl) as (H1 & H2 & H3 & _).
  split; [exact H1|]. split; [exact H2|exact H3].
Defined.

Example isMediaFile_samples :
  isMediaFile "clip.mov" = false ∧ isVideoFile "clip.mov" = true
  ∧ isMediaFile "notes." = false ∧ isMediaFile "archive.tar.png" = true
  ∧ isMediaFile "photo.jpg/" = false.
Proof. vm_compute. done. Qed.

(** ** The last selection, kept in local storage *)

(** X24. What is stored as the last selection. [selectBucket] stores the
    selected profile and the bucket, so that [getLastSelection] reads both
    back. [selectProfile] stores the profile but leaves the stored bucket
    as it was: the bucket stored then is the one last selected under
    whichever profile. [restoreLastSelection] selects the stored profile
    only if the profile list has it, and the stored bucket only if that
    profile was selected and its bucket list has the name; after
    [selectProfile] and [selectBucket] it selects that profile and that
    bucket again when both still exist. *)
Theorem last_selection_round_trip (st : Listing.State) (storage : gmap string string)
    (id name : string) :
  id ≠ EmptyString → name ≠ EmptyString →
  let chosen := Listing.selectProfile id st storage in
  let opened := Listing.selectBucket name chosen.1 chosen.2 in
  Listing.getLastSelection chosen.2
    = (Some id, storage !! Listing.STORAGE_KEY_BUCKET)
  ∧ Listing.getLastSelection opened.2 = (Some id, Some name)
  ∧ (∀ profileIds bucketNames,
       id ∈ profileIds → name ∈ bucketNames →
       Listing.restoreLastSelection opened.2 profileIds bucketNames = (Some id, Some name))
  ∧ (∀ stored profileIds bucketNames p b,
       Listing.restoreLastSelection stored profileIds bucketNames = (p, b) →
       (∀ x, p = Some x → x ∈ profileIds ∧ stored !! Listing.STORAGE_KEY_PROFILE = Some x)
       ∧ (∀ y, b = Some y → y ∈ bucketNames ∧ p ≠ None
                            ∧ stored !! Listing.STORAGE_KEY_BUCKET = Some y)).
Proof.
  intros Hid Hname chosen opened.
  destruct id as [|a id]; [done|]. destruct name as [|c name]; [done|].
  unfold opened, chosen, Listing.selectBucket, Listing.selectProfile,
    Listing.saveLastSelection, Listing.getLastSelection. simpl.
  split; [by rewrite lookup_insert_eq, lookup_insert_ne|].
  assert (Listing.getLastSelection
            (<[Listing.STORAGE_KEY_BUCKET := String c name]>
               (<[Listing.STORAGE_KEY_PROFILE := String a id]>
                  (<[Listing.STORAGE_KEY_PROFILE := String a id]> storage)))
          = (Some (String a id), Some (String c name))) as Hget.
  { unfold Listing.getLastSelection.
    by rewrite lookup_insert_eq, lookup_insert_ne, lookup_insert_eq. }
  split; [exact Hget|]. split.
  - intros profileIds bucketNames Hp Hb. unfold Listing.restoreLastSelection.
    rewrite Hget. by rewrite !bool_decide_eq_true_2.
  - intros stored profileIds bucketNames p b. unfold Listing.restoreLastSelection,
      Listing.getLastSelection.
    destruct (stored !! Listing.STORAGE_KEY_PROFILE) as [[|d x]|] eqn:Hx;
      try (intros [= <- <-]; by split).
    case_bool_decide as Hin; [|intros [= <- <-]; by split].
    destruct (stored !! Listing.STORAGE_KEY_BUCKET) as [[|e y]|] eqn:Hy;
      try (intros [= <- <-]; split; [by intros ? [= <-]|done]).
    case_bool_decide as Hin'; intros [= <- <-].
    + split; [by intros ? [= <-]|by intros ? [= <-]].
    + split; [by intros ? [= <-]|done].
Qed.

Lemma last_selection_round_trip_sample :
  let stored := {[ Listing.STORAGE_KEY_PROFILE := "p0"; Listing.STORAGE_KEY_BUCKET := "old" ]} in
  let chosen := Listing.selectProfile "p1" sampleListing stored in
  Listing.getLastSelection chosen.2 = (Some "p1", Some "old")
  ∧ Listing.getLastSelection (Listing.selectBucket "photos" chosen.1 chosen.2).2
    = (Some "p1", Some "photos")
  ∧ Listing.restoreLastSelection chosen.2 ["p0"; "p1"] ["old"; "photos"]
    = (Some "p1", Some "old").
Proof.
  pose proof (last_selection_round_trip sampleListing
                {[ Listing.STORAGE_KEY_PROFILE := "p0"; Listing.STORAGE_KEY_BUCKET := "old" ]}
                "p1" "photos" ltac:(done) ltac:(done)) as (H1 & H2 & _).
  split; [exact H1|]. split; [exact H2|]. by vm_compute.
Defined.
